(** * flowjax: block autoregressive networks and the distribution protocol

    A shallow embedding of [flowjax/bijections/bnaf.py] and of the
    distribution classes of [flowjax/distributions.py], with the
    properties of the specification proved over it.

    Numbers.  The arrays of the source hold floating-point numbers.  They
    are modelled by [scalar]: a real number, or one of the three special
    values of IEEE arithmetic (plus and minus infinity, not-a-number).
    Arithmetic on finite values is exact real arithmetic (no rounding, no
    overflow, no signed zero); the special values follow the IEEE rules.
    Where a property depends on the rounding, it is modelled: the weight
    normalisation is given once more with every operation rounded to a
    floating-point format, the losses that [count_fruitless] compares are
    converted to the format of the arrays, and the product that
    [train_val_split] rounds is a binary64 number.

    Arrays.  A 1-d array is a list, a 2-d array a list of rows, a 3-d
    array a list of 2-d blocks.  A 2-d array with no row carries no
    column count.  A column array of shape [(n, 1)] (the result of a
    reduction with [keepdims=True] over the last axis, or [W_log_scale])
    is held as the list of its [n] entries. *)

From Stdlib Require Import Reals Lra Lia ZArith FunctionalExtensionality.
From stdpp Require Import base list gmap strings.

Local Open Scope R_scope.

(** ** Scalars *)

Inductive scalar : Type :=
  | Fin (r : R)
  | PInf
  | NInf
  | NaN.

#[global] Instance scalar_inhabited : Inhabited scalar := populate NaN.

Inductive sign : Type := Neg | Zero | Pos.

Definition Rsign (r : R) : sign :=
  match total_order_T r 0 with
  | inleft (left _) => Neg
  | inleft (right _) => Zero
  | inright _ => Pos
  end.

Definition sneg (x : scalar) : scalar :=
  match x with
  | Fin r => Fin (- r)
  | PInf => NInf
  | NInf => PInf
  | NaN => NaN
  end.

Definition sadd (x y : scalar) : scalar :=
  match x, y with
  | NaN, _ | _, NaN => NaN
  | Fin a, Fin b => Fin (a + b)
  | PInf, NInf | NInf, PInf => NaN
  | PInf, _ | _, PInf => PInf
  | NInf, _ | _, NInf => NInf
  end.

Definition ssub (x y : scalar) : scalar := sadd x (sneg y).

(** An infinity times a finite value: not-a-number at zero, otherwise
    the infinity with the product's sign. *)
Definition inf_times (positive : bool) (r : R) : scalar :=
  match Rsign r with
  | Zero => NaN
  | Pos => if positive then PInf else NInf
  | Neg => if positive then NInf else PInf
  end.

Definition smul (x y : scalar) : scalar :=
  match x, y with
  | NaN, _ | _, NaN => NaN
  | Fin a, Fin b => Fin (a * b)
  | PInf, Fin b => inf_times true b
  | NInf, Fin b => inf_times false b
  | Fin a, PInf => inf_times true a
  | Fin a, NInf => inf_times false a
  | PInf, PInf | NInf, NInf => PInf
  | PInf, NInf | NInf, PInf => NInf
  end.

Definition sdiv (x y : scalar) : scalar :=
  match x, y with
  | NaN, _ | _, NaN => NaN
  | Fin a, Fin b =>
      match Rsign b with
      | Zero => match Rsign a with Zero => NaN | Pos => PInf | Neg => NInf end
      | _ => Fin (a / b)
      end
  | Fin _, (PInf | NInf) => Fin 0
  | PInf, Fin b => match Rsign b with Neg => NInf | _ => PInf end
  | NInf, Fin b => match Rsign b with Neg => PInf | _ => NInf end
  | (PInf | NInf), (PInf | NInf) => NaN
  end.

Definition sexp (x : scalar) : scalar :=
  match x with
  | Fin r => Fin (exp r)
  | PInf => PInf
  | NInf => Fin 0
  | NaN => NaN
  end.

Definition slog (x : scalar) : scalar :=
  match x with
  | Fin r => match Rsign r with Pos => Fin (ln r) | Zero => NInf | Neg => NaN end
  | PInf => PInf
  | NInf | NaN => NaN
  end.

Definition ssqrt (x : scalar) : scalar :=
  match x with
  | Fin r => match Rsign r with Neg => NaN | _ => Fin (sqrt r) end
  | PInf => PInf
  | NInf | NaN => NaN
  end.

Definition stanh (x : scalar) : scalar :=
  match x with
  | Fin r => Fin (tanh r)
  | PInf => Fin 1
  | NInf => Fin (-1)
  | NaN => NaN
  end.

(** [jax.nn.softplus x = logaddexp x 0 = log (1 + exp x)]. *)
Definition softplus (x : scalar) : scalar :=
  match x with
  | Fin r => Fin (ln (1 + exp r))
  | PInf => PInf
  | NInf => Fin 0
  | NaN => NaN
  end.

(** The maximum of a reduction: a not-a-number operand wins. *)
Definition smax (x y : scalar) : scalar :=
  match x, y with
  | NaN, _ | _, NaN => NaN
  | PInf, _ | _, PInf => PInf
  | NInf, z | z, NInf => z
  | Fin a, Fin b => Fin (Rmax a b)
  end.

Definition isnan (x : scalar) : bool :=
  match x with NaN => true | _ => false end.

Definition is_finite (x : scalar) : Prop :=
  match x with Fin _ => True | _ => False end.

(** Truth value of an array entry ([jnp.where mask] keeps the non-zero ones). *)
Definition nonzero (x : scalar) : bool :=
  match x with
  | Fin r => match Rsign r with Zero => false | _ => true end
  | _ => true
  end.

(** Comparisons of two floats: false whenever an operand is not-a-number. *)
Definition sle (x y : scalar) : bool :=
  match x, y with
  | NaN, _ | _, NaN => false
  | NInf, _ | _, PInf => true
  | Fin a, Fin b => if Rle_dec a b then true else false
  | _, _ => false
  end.

Definition seqb (x y : scalar) : bool :=
  match x, y with
  | Fin a, Fin b => if Req_dec_T a b then true else false
  | PInf, PInf | NInf, NInf => true
  | _, _ => false
  end.

Definition slt (x y : scalar) : bool := sle x y && negb (seqb x y).

(** ** Floating-point formats

    Where a property depends on the rounding of the arithmetic, the
    rounding is modelled.  A format rounds the exact result of an
    operation on finite operands to a value of the format, or to an
    infinity when the result overflows; on the special values an operation
    follows the IEEE rules above.  Zero is a value of every format, and
    rounding a real number never gives not-a-number. *)
Class Rounding : Type := {
  rnd : R → scalar;
  rnd_0 : rnd 0 = Fin 0;
  rnd_not_nan : ∀ r, isnan (rnd r) = false;
}.

(** A value brought to the format: the result of an operation, or a
    Python float converted by [jnp.array]. *)
Definition rounded `{Rounding} (x : scalar) : scalar :=
  match x with
  | Fin r => rnd r
  | _ => x
  end.

(** The floats of Python are binary64 numbers.  Rounding to binary64 is
    consumed through its interface: it is monotone, and an integer of
    magnitude at most [2 ^ 53] is a binary64 number. *)
Class Binary64 : Type := {
  float64 : R → R;
  float64_monotone : ∀ x y, x <= y → float64 x <= float64 y;
  float64_integer : ∀ z : Z, (Z.abs z ≤ 2 ^ 53)%Z → float64 (IZR z) = IZR z;
}.

(** ** Exceptions *)

Inductive exn : Type :=
  | ValueError
  | TypeError
  | IndexError
  | ZeroDivisionError
  | AttributeError (name : string)
  | NotImplementedError (msg : string).

Inductive result (A : Type) : Type :=
  | Ok (a : A)
  | Raise (e : exn).
Arguments Ok {A} a.
Arguments Raise {A} e.

#[global] Instance result_bind : MBind result :=
  λ A B k m, match m with Ok a => k a | Raise e => Raise e end.
#[global] Instance result_ret : MRet result := λ A a, Ok a.
#[global] Instance result_fmap : FMap result :=
  λ A B f m, match m with Ok a => Ok (f a) | Raise e => Raise e end.

(** Run a fallible function over a list, left to right; the first
    exception stops the loop. *)
Fixpoint mapM {A B : Type} (f : A → result B) (l : list A) : result (list B) :=
  match l with
  | [] => Ok []
  | a :: l' => b ← f a; bs ← mapM f l'; Ok (b :: bs)
  end.

(** ** Arrays *)

Abbreviation vec := (list scalar).
Abbreviation matrix := (list (list scalar)).
Abbreviation tensor3 := (list (list (list scalar))).

Definition nrows (m : matrix) : nat := length m.
Definition ncols (m : matrix) : nat := length (hd [] m).

Definition full (n : nat) (v : scalar) : vec := replicate n v.
Definition full2 (r c : nat) (v : scalar) : matrix := replicate r (full c v).
Definition full3 (n r c : nat) (v : scalar) : tensor3 := replicate n (full2 r c v).

Definition vmap (f : scalar → scalar) (v : vec) : vec := f <$> v.
Definition mmap (f : scalar → scalar) (m : matrix) : matrix := vmap f <$> m.
Definition tmap (f : scalar → scalar) (t : tensor3) : tensor3 := mmap f <$> t.

Definition vzip (f : scalar → scalar → scalar) (u v : vec) : vec := zip_with f u v.
Definition mzip (f : scalar → scalar → scalar) (a b : matrix) : matrix :=
  zip_with (vzip f) a b.

(** [a.sum()] *)
Definition vsum (v : vec) : scalar := foldr sadd (Fin 0) v.
Definition msum (m : matrix) : scalar := vsum (vsum <$> m).
Definition tsum (t : tensor3) : scalar := vsum (msum <$> t).

Definition dot (u v : vec) : scalar := vsum (vzip smul u v).

(** [a.mean()]: the sum over the number of entries, not-a-number for an
    empty array. *)
Definition mean (v : vec) : scalar := sdiv (vsum v) (Fin (INR (length v))).

Definition col (j : nat) (m : matrix) : vec := (λ row, row !!! j) <$> m.

(** [jnp.amax v]: a reduction over an axis of size zero raises. *)
Definition amax (v : vec) : result scalar :=
  match v with
  | [] => Raise ValueError
  | x :: xs => Ok (foldl smax x xs)
  end.

(** [jnp.amax(x, -1, keepdims=True)]: one maximum per row. *)
Definition amax_last (x : matrix) : result vec := mapM amax x.

(** [jnp.amax(y, -2, keepdims=True)]: one maximum per column. *)
Definition amax_rows (y : matrix) : result vec :=
  match y with
  | [] => Raise ValueError
  | _ => mapM (λ j, amax (col j y)) (seq 0 (ncols y))
  end.

(** [jnp.matmul] of two 2-d arrays: the contracted dimensions must agree. *)
Definition matmul (x y : matrix) : result matrix :=
  if forallb (λ row, Nat.eqb (length row) (nrows y)) x
  then Ok ((λ row, (λ j, dot row (col j y)) <$> seq 0 (ncols y)) <$> x)
  else Raise TypeError.

(** [W @ x] for a 2-d [W] and a 1-d [x]. *)
Definition matvec (w : matrix) (x : vec) : result vec :=
  if forallb (λ row, Nat.eqb (length row) (length x)) w
  then Ok ((λ row, dot row x) <$> w)
  else Raise TypeError.

(** Consecutive pieces of length [k]: the rows of a row-major reshape. *)
Fixpoint chunks {A : Type} (count k : nat) (l : list A) : list (list A) :=
  match count with
  | O => []
  | S count' => take k l :: chunks count' k (drop k l)
  end.

(** [v.reshape(n, d)] *)
Definition reshape2 (n d : nat) (v : vec) : result matrix :=
  if Nat.eqb (length v) (n * d) then Ok (chunks n d v) else Raise TypeError.

(** [v.reshape(n, r, c)] *)
Definition reshape3 (n r c : nat) (v : vec) : result tensor3 :=
  if Nat.eqb (length v) (n * r * c)
  then Ok (chunks r c <$> chunks n (r * c) v)
  else Raise TypeError.

(** [m.at[r0:, c0:c1].set(v)] *)
Definition set_block (r0 c0 c1 : nat) (v : scalar) (m : matrix) : matrix :=
  imap (λ i row,
    if (r0 <=? i)%nat
    then imap (λ j x, if ((c0 <=? j) && (j <? c1))%nat then v else x) row
    else row) m.

(** [jax.scipy.linalg.block_diag]: the blocks down the diagonal, zero
    elsewhere. *)
Fixpoint block_diag (blocks : list matrix) : matrix :=
  match blocks with
  | [] => []
  | b :: bs =>
      let rest := block_diag bs in
      ((λ row, row ++ full (ncols rest) (Fin 0)) <$> b)
      ++ ((λ row, full (ncols b) (Fin 0) ++ row) <$> rest)
  end.

(** [jnp.where(mask)]: the positions of the non-zero entries, row by row. *)
Definition jnp_where (mask : matrix) : list (nat * nat) :=
  concat (imap (λ i row,
    omap (λ '(j, x), if nonzero x then Some (i, j) else None)
         (imap (λ j x, (j, x)) row)) mask).

(** [w[idxs]]: the entries at the listed positions. *)
Definition gather (w : matrix) (idxs : list (nat * nat)) : vec :=
  (λ '(i, j), (w !!! i) !!! j) <$> idxs.

(** Arrays given entry by entry, the entry of a 2-d array, and its shape. *)
Definition vtab (n : nat) (f : nat → scalar) : vec := f <$> seq 0 n.
Definition mtab (r c : nat) (f : nat → nat → scalar) : matrix :=
  (λ i, vtab c (f i)) <$> seq 0 r.
Definition ttab (n r c : nat) (f : nat → nat → nat → scalar) : tensor3 :=
  (λ b, mtab r c (f b)) <$> seq 0 n.
Definition entry (m : matrix) (i j : nat) : scalar := (m !!! i) !!! j.
Definition has_shape (m : matrix) (r c : nat) : Prop :=
  length m = r ∧ Forall (λ row, length row = c) m.

(** Sums of reals, and the real held by a finite scalar. *)
Definition rsum (l : list R) : R := foldr Rplus 0%R l.
Definition real_of (x : scalar) : R := match x with Fin r => r | _ => 0%R end.



Definition from_result (m : result scalar) : scalar :=
  match m with Ok s => s | Raise _ => NaN end.

(** [jnp.linalg.norm(w, axis=-1, keepdims=True)]: the Euclidean norm of
    each row. *)
Definition norm_last (w : matrix) : vec :=
  (λ row, ssqrt (vsum (vmap (λ x, smul x x) row))) <$> w.

(** Broadcasts of a column array against a 2-d array, and of a row array
    against a 2-d array. *)
Definition col_op (f : scalar → scalar → scalar) (m : matrix) (c : vec) : matrix :=
  zip_with (λ row s, vmap (λ x, f x s) row) m c.
Definition row_op (f : scalar → scalar → scalar) (m : matrix) (r : vec) : matrix :=
  (λ row, vzip f row r) <$> m.

(** [l[-1]] *)
Definition last_item {A : Type} (l : list A) : result A :=
  match last l with
  | Some a => Ok a
  | None => Raise IndexError
  end.

(** [l[0]] *)
Definition first_item {A : Type} (l : list A) : result A :=
  match l with
  | a :: _ => Ok a
  | [] => Raise IndexError
  end.

(** [a // b] on non-negative integers *)
Definition floordiv (a b : nat) : result nat :=
  match b with
  | O => Raise ZeroDivisionError
  | _ => Ok (a / b)%nat
  end.

(** ** The random capability

    [jax.random] and the weight initialiser are consumed through their
    interface: a key splits into the requested number of keys, and a draw
    has the requested shape. *)

Class Random : Type := {
  prng_key : Type;
  (** [random.split(key, num)] *)
  split : prng_key → nat → list prng_key;
  (** [init(key, (rows, cols))], by default [glorot_uniform()] *)
  init : prng_key → nat → nat → matrix;
  (** [random.uniform(key, (n,))], and [(n, 1)] held as a column *)
  uniform : prng_key → nat → vec;
  split_length : ∀ k n, length (split k n) = n;
  init_rows : ∀ k r c, length (init k r c) = r;
  init_cols : ∀ k r c, Forall (λ row, length row = c) (init k r c);
  uniform_length : ∀ k n, length (uniform k n) = n;
}.

(** * flowjax/bijections/bnaf.py *)

Module bnaf.

(** Block diagonal mask. *)
Definition b_diag_mask (block_shape : nat * nat) (n_blocks : nat) : matrix :=
  block_diag (replicate n_blocks (full2 block_shape.1 block_shape.2 (Fin 1))).

(** Block mask below the diagonal blocks, excluding them. *)
Definition b_tril_mask (block_shape : nat * nat) (n_blocks : nat) : matrix :=
  foldl (λ mask i,
           set_block ((i + 1) * block_shape.1)
                     (i * block_shape.2) ((i + 1) * block_shape.2) (Fin 1) mask)
        (full2 (block_shape.1 * n_blocks) (block_shape.2 * n_blocks) (Fin 0))
        (seq 0 n_blocks).

Module BlockAutoregressiveLinear.

Record t : Type := {
  n_blocks : nat;
  block_shape : nat * nat;
  W : matrix;
  bias : vec;
  W_log_scale : vec;
  in_features : nat;
  out_features : nat;
  _b_diag_mask : matrix;
  _b_diag_mask_idxs : list (nat * nat);
  _b_tril_mask : matrix;
}.

(** The three properties apply [jax.lax.stop_gradient], the identity on
    values. *)
Definition b_diag_mask (self : t) : matrix := _b_diag_mask self.
Definition b_diag_mask_idxs (self : t) : list (nat * nat) := _b_diag_mask_idxs self.
Definition b_tril_mask (self : t) : matrix := _b_tril_mask self.

(** [*w_key, bias_key, scale_key = keys] *)
Definition unpack_keys {K : Type} (keys : list K) : result (list K * K * K) :=
  match reverse keys with
  | scale_key :: bias_key :: w_key => Ok (reverse w_key, bias_key, scale_key)
  | _ => Raise ValueError
  end.

Definition __init__ `{Random} (key : prng_key) (n_blocks : nat)
    (block_shape : nat * nat) : result t :=
  let diag := bnaf.b_diag_mask block_shape n_blocks in
  let idxs := jnp_where diag in
  let tril := bnaf.b_tril_mask block_shape n_blocks in
  let in_features := (block_shape.2 * n_blocks)%nat in
  let out_features := (block_shape.1 * n_blocks)%nat in
  '(w_key, bias_key, scale_key) ← unpack_keys (split key (n_blocks + 2));
  w_key0 ← first_item w_key;
  let W := mzip smul (init w_key0 out_features in_features) (mzip sadd tril diag) in
  let bias :=
    vmap (λ u, smul (ssub u (Fin (1 / 2)))
                    (sdiv (Fin 2) (ssqrt (Fin (INR out_features)))))
         (uniform bias_key out_features) in
  let W_log_scale := vmap slog (uniform scale_key out_features) in
  Ok {| n_blocks := n_blocks; block_shape := block_shape;
        W := W; bias := bias; W_log_scale := W_log_scale;
        in_features := in_features; out_features := out_features;
        _b_diag_mask := diag; _b_diag_mask_idxs := idxs;
        _b_tril_mask := tril |}.

(** Carries out weight normalisation. *)
Definition get_normalised_weights (self : t) : matrix :=
  let W := mzip sadd (mzip smul (mmap sexp (W self)) (b_diag_mask self))
                     (mzip smul (W self) (b_tril_mask self)) in
  let W_norms := norm_last W in
  col_op sdiv (col_op (λ w s, smul s w) W (vmap sexp (W_log_scale self))) W_norms.

(** Returns the output and the diagonal blocks of the weight matrix, in
    logs, as an array of shape [(n_blocks, block_shape[0], block_shape[1])]. *)
Definition __call__ (self : t) (x : vec) : result (vec * tensor3) :=
  let W := get_normalised_weights self in
  Wx ← matvec W x;
  let y := vzip sadd Wx (bias self) in
  jac_3d ← reshape3 (n_blocks self) (block_shape self).1 (block_shape self).2
                    (gather W (b_diag_mask_idxs self));
  Ok (y, tmap slog jac_3d).

End BlockAutoregressiveLinear.

(** [logmatmulexp] on 2-d arrays. *)
Definition logmatmulexp (x y : matrix) : result matrix :=
  x_shift ← amax_last x;
  y_shift ← amax_rows y;
  prod ← matmul (mmap sexp (col_op ssub x x_shift)) (mmap sexp (row_op ssub y y_shift));
  let xy := mmap slog prod in
  Ok (row_op sadd (col_op sadd xy x_shift) y_shift).

(** Leading (batch) axes of the two operands broadcast: equal sizes, or
    one of them of size one. *)
Definition broadcast_batch (x y : tensor3) : result (tensor3 * tensor3) :=
  if Nat.eqb (length x) (length y) then Ok (x, y)
  else match x, y with
       | [bx], _ => Ok (replicate (length y) bx, y)
       | _, [by_] => Ok (x, replicate (length x) by_)
       | _, _ => Raise ValueError
       end.

(** [logmatmulexp] on 3-d arrays: the reductions are over the last two
    axes and [jnp.matmul] multiplies block by block. *)
Definition logmatmulexp_3d (x y : tensor3) : result tensor3 :=
  '(x', y') ← broadcast_batch x y;
  mapM (λ '(bx, by_), logmatmulexp bx by_) (zip x' y').

Module _TanhBNAF.

Record t : Type := { n_blocks : nat }.

Definition __init__ (n_blocks : nat) : t := {| n_blocks := n_blocks |}.

(** [log_det.at[:, jnp.arange(d), jnp.arange(d)].set(vals)] *)
Definition set_diagonals (log_det : tensor3) (vals : matrix) : tensor3 :=
  zip_with (λ block vrow,
              imap (λ k row, match vrow !! k with
                             | Some v => <[k := v]> row
                             | None => row
                             end) block)
           log_det vals.

(** The condition is accepted and ignored. *)
Definition __call__ (self : t) (x : vec) (condition : option vec)
    : result (vec * tensor3) :=
  d ← floordiv (length x) (n_blocks self);
  let log_det_vals :=
    vmap (λ xi, smul (Fin (-2))
                     (ssub (sadd xi (softplus (smul (Fin (-2)) xi)))
                           (slog (Fin 2)))) x in
  let log_det := full3 (n_blocks self) d d NInf in
  vals ← reshape2 (n_blocks self) d log_det_vals;
  let log_det := set_diagonals log_det vals in
  Ok (vmap stanh x, log_det).

End _TanhBNAF.

Module BlockAutoregressiveNetwork.

(** An entry of [layers]: a linear layer or an activation.  The
    activation is the default of the constructor, [_TanhBNAF]. *)
Inductive layer : Type :=
  | Linear (l : BlockAutoregressiveLinear.t)
  | Activation (a : _TanhBNAF.t).

(** [layer(y)] *)
Definition call (l : layer) (y : vec) : result (vec * tensor3) :=
  match l with
  | Linear l => BlockAutoregressiveLinear.__call__ l y
  | Activation a => _TanhBNAF.__call__ a y None
  end.

Record t : Type := {
  n_layers : Z;
  layers : list layer;
  activation : nat → _TanhBNAF.t;
}.

(** Values a call can hand back to an arbitrary caller. *)
Inductive value : Type :=
  | VNone
  | VArray (a : vec)
  | VException (e : exn).

Definition block_sizes (n_layers : Z) (block_size : nat * nat) : list (nat * nat) :=
  [(block_size.1, 1%nat)]
    ++ replicate (Z.to_nat (n_layers - 2)) block_size
    ++ [(1%nat, block_size.2)].

(** [key, subkey = random.split(key)] *)
Definition split2 `{Random} (key : prng_key) : result (prng_key * prng_key) :=
  match split key 2 with
  | [k; subkey] => Ok (k, subkey)
  | _ => Raise ValueError
  end.

(** The loop over [block_sizes], extending [layers]. *)
Fixpoint init_loop `{Random} (key : prng_key) (dim : nat)
    (sizes : list (nat * nat)) (layers : list layer) : result (list layer) :=
  match sizes with
  | [] => Ok layers
  | size :: sizes' =>
      '(key', subkey) ← split2 key;
      lin ← BlockAutoregressiveLinear.__init__ subkey dim size;
      init_loop key' dim sizes' (layers ++ [Linear lin; Activation (_TanhBNAF.__init__ dim)])
  end.

Definition __init__ `{Random} (key : prng_key) (dim : nat) (n_layers : Z)
    (block_size : nat * nat) : result t :=
  layers ← init_loop key dim (block_sizes n_layers block_size) [];
  Ok {| n_layers := n_layers; layers := removelast layers;
        activation := _TanhBNAF.__init__ |}.

Fixpoint transform_loop (ls : list layer) (y : vec) : result vec :=
  match ls with
  | [] => Ok y
  | l :: ls' => '(y', _) ← call l y; transform_loop ls' y'
  end.

Definition transform (self : t) (x : vec) (condition : option vec) : result vec :=
  transform_loop (layers self) x.

Fixpoint forward_loop (ls : list layer) (y : vec) (log_det_3ds : list tensor3)
    : result (vec * list tensor3) :=
  match ls with
  | [] => Ok (y, log_det_3ds)
  | l :: ls' =>
      '(y', log_det_3d) ← call l y;
      forward_loop ls' y' (log_det_3ds ++ [log_det_3d])
  end.

Fixpoint logdet_loop (lds : list tensor3) (logdet : tensor3) : result tensor3 :=
  match lds with
  | [] => Ok logdet
  | ld :: lds' => logdet' ← logmatmulexp_3d logdet ld; logdet_loop lds' logdet'
  end.

Definition transform_and_log_abs_det_jacobian (self : t) (x : vec)
    (condition : option vec) : result (vec * scalar) :=
  '(y, log_det_3ds) ← forward_loop (layers self) x [];
  logdet ← last_item log_det_3ds;
  logdet ← logdet_loop (reverse (removelast log_det_3ds)) logdet;
  Ok (y, tsum logdet).

(** [inverse] takes any positional and keyword arguments; its body is
    [return NotImplementedError(...)]. *)
Definition inverse (args : list value) (kwargs : list (string * value))
    : result value :=
  Ok (VException (NotImplementedError
    "This transform would require numerical methods for inversion..")).

End BlockAutoregressiveNetwork.

End bnaf.

(** ** Blocks of a masked weight matrix

    With blocks of shape [(r, c)], entry [(i, j)] lies in block-row
    [i / r] and block-column [j / c]. *)

Definition diag_fn (r c : nat) (i j : nat) : scalar :=
  if (i / r =? j / c)%nat then Fin 1 else Fin 0.
Definition tril_fn (r c : nat) (i j : nat) : scalar :=
  if (j / c <? i / r)%nat then Fin 1 else Fin 0.

(** The weight before normalisation and the normalised weight, entry by
    entry, from the entries [w] of the raw weight and [s] of the log-scale. *)
Definition masked_entry (r c : nat) (w : nat → nat → scalar) (i j : nat) : scalar :=
  sadd (smul (sexp (w i j)) (diag_fn r c i j)) (smul (w i j) (tril_fn r c i j)).

Definition normalised_entry (r c n : nat) (w : nat → nat → scalar) (s : nat → scalar)
    (i j : nat) : scalar :=
  sdiv (smul (sexp (s i)) (masked_entry r c w i j))
       (ssqrt (vsum (vtab (c * n)
          (λ j', smul (masked_entry r c w i j') (masked_entry r c w i j'))))).


(** What [__init__] fixes for the lifetime of a layer: the shapes of its
    arrays, and its masks.  Training replaces [W], [bias] and [W_log_scale]
    by arrays of the same shapes. *)
Record linear_wf (l : bnaf.BlockAutoregressiveLinear.t) : Prop := {
  wf_W : has_shape (bnaf.BlockAutoregressiveLinear.W l)
           ((bnaf.BlockAutoregressiveLinear.block_shape l).1
              * bnaf.BlockAutoregressiveLinear.n_blocks l)
           ((bnaf.BlockAutoregressiveLinear.block_shape l).2
              * bnaf.BlockAutoregressiveLinear.n_blocks l);
  wf_bias : length (bnaf.BlockAutoregressiveLinear.bias l)
            = ((bnaf.BlockAutoregressiveLinear.block_shape l).1
                 * bnaf.BlockAutoregressiveLinear.n_blocks l)%nat;
  wf_W_log_scale : length (bnaf.BlockAutoregressiveLinear.W_log_scale l)
            = ((bnaf.BlockAutoregressiveLinear.block_shape l).1
                 * bnaf.BlockAutoregressiveLinear.n_blocks l)%nat;
  wf_diag : bnaf.BlockAutoregressiveLinear._b_diag_mask l
            = bnaf.b_diag_mask (bnaf.BlockAutoregressiveLinear.block_shape l)
                               (bnaf.BlockAutoregressiveLinear.n_blocks l);
  wf_idxs : bnaf.BlockAutoregressiveLinear._b_diag_mask_idxs l
            = jnp_where (bnaf.BlockAutoregressiveLinear._b_diag_mask l);
  wf_tril : bnaf.BlockAutoregressiveLinear._b_tril_mask l
            = bnaf.b_tril_mask (bnaf.BlockAutoregressiveLinear.block_shape l)
                               (bnaf.BlockAutoregressiveLinear.n_blocks l);
}.

(** * [get_normalised_weights] in rounded arithmetic

    [BlockAutoregressiveLinear.get_normalised_weights] once more, with
    the result of every operation rounded to the format of the arrays. *)

Module floating.

Definition fadd `{Rounding} (x y : scalar) : scalar := rounded (sadd x y).
Definition fmul `{Rounding} (x y : scalar) : scalar := rounded (smul x y).
Definition fdiv `{Rounding} (x y : scalar) : scalar := rounded (sdiv x y).
Definition fexp `{Rounding} (x : scalar) : scalar := rounded (sexp x).
Definition fsqrt `{Rounding} (x : scalar) : scalar := rounded (ssqrt x).

(** [jnp.linalg.norm(w, axis=-1, keepdims=True)]: the square root of the
    sum of the squares of each row; the sum is taken from the last square
    to the first. *)
Definition norm_last `{Rounding} (w : matrix) : vec :=
  (λ row, fsqrt (foldr fadd (Fin 0) (vmap (λ x, fmul x x) row))) <$> w.

Module BlockAutoregressiveLinear.

(** Carries out weight normalisation. *)
Definition get_normalised_weights `{Rounding} (self : bnaf.BlockAutoregressiveLinear.t)
    : matrix :=
  let W := mzip fadd
             (mzip fmul (mmap fexp (bnaf.BlockAutoregressiveLinear.W self))
                        (bnaf.BlockAutoregressiveLinear.b_diag_mask self))
             (mzip fmul (bnaf.BlockAutoregressiveLinear.W self)
                        (bnaf.BlockAutoregressiveLinear.b_tril_mask self)) in
  let W_norms := norm_last W in
  col_op fdiv
    (col_op (λ w s, fmul s w) W
            (vmap fexp (bnaf.BlockAutoregressiveLinear.W_log_scale self)))
    W_norms.

(** The local [W_norms] of [get_normalised_weights]: the norms of the
    rows of the masked weight, in rounded arithmetic. *)
Definition W_norms `{Rounding} (self : bnaf.BlockAutoregressiveLinear.t) : vec :=
  let W := mzip fadd
             (mzip fmul (mmap fexp (bnaf.BlockAutoregressiveLinear.W self))
                        (bnaf.BlockAutoregressiveLinear.b_diag_mask self))
             (mzip fmul (bnaf.BlockAutoregressiveLinear.W self)
                        (bnaf.BlockAutoregressiveLinear.b_tril_mask self)) in
  norm_last W.

End BlockAutoregressiveLinear.

End floating.

(** The weight before normalisation in rounded arithmetic, entry by entry,
    from the entries [w] of the raw weight. *)
Definition rounded_masked_entry `{Rounding} (r c : nat) (w : nat → nat → scalar)
    (i j : nat) : scalar :=
  floating.fadd (floating.fmul (floating.fexp (w i j)) (diag_fn r c i j))
                (floating.fmul (w i j) (tril_fn r c i j)).

(** * flowjax/distributions.py *)

Module distributions.

(** An array with its shape; [data] is in row-major order. *)
Record array : Type := { shape_of : list nat; data : list scalar }.

(** [math.prod] *)
Definition prod (s : list nat) : nat := foldr Nat.mul 1%nat s.

Definition shape_eqb (a b : list nat) : bool := bool_decide (a = b).

(** [arraylike_to_array] of [flowjax.utils], on a value that is an array
    already or is [None]: [None] is not array-like. *)
Definition arraylike_to_array (a : option array) : result array :=
  match a with
  | Some a => Ok a
  | None => Raise TypeError
  end.

(** Modelled from the spec: [merge_cond_shapes] of [flowjax.utils], which
    is used by [cond_shape] below and whose source is not embedded here.
    Conditioning shapes that are not [None] must be identical, so the
    merged shape is the first one that is not [None], and [None] when there
    is none. *)
Fixpoint merge_cond_shapes (shapes : list (option (list nat))) : option (list nat) :=
  match shapes with
  | [] => None
  | Some s :: _ => Some s
  | None :: shapes' => merge_cond_shapes shapes'
  end.

(** ** Vectorisation ([jnp.vectorize]) *)

(** Broadcasting of two shapes, read from their last dimension. *)
Fixpoint broadcast_rev (a b : list nat) : result (list nat) :=
  match a, b with
  | [], s | s, [] => Ok s
  | m :: a', n :: b' =>
      rest ← broadcast_rev a' b';
      if Nat.eqb m n then Ok (m :: rest)
      else if Nat.eqb m 1 then Ok (n :: rest)
      else if Nat.eqb n 1 then Ok (m :: rest)
      else Raise ValueError
  end.

Definition broadcast_shapes (a b : list nat) : result (list nat) :=
  s ← broadcast_rev (reverse a) (reverse b); Ok (reverse s).

(** The multi-indices of a shape, in row-major order. *)
Fixpoint ndindex (s : list nat) : list (list nat) :=
  match s with
  | [] => [[]]
  | n :: s' => i ← seq 0 n; (λ idx, i :: idx) <$> ndindex s'
  end.

(** The flat position, in an operand of shape [s], of the element that
    is broadcast to the multi-index [idx] of the result. *)
Definition ravel (s idx : list nat) : nat :=
  foldl (λ acc '(n, i), acc * n + (if Nat.eqb n 1 then 0 else i))%nat 0%nat
        (zip s (drop (length idx - length s) idx)).

Definition item {A : Type} (l : list A) (i : nat) : result A :=
  match l !! i with
  | Some a => Ok a
  | None => Raise IndexError
  end.

(** The leading (batch) shape of an array whose trailing dimensions are
    [core], and its elements of shape [core]; any other trailing
    dimensions are a shape mismatch. *)
Definition unbatch (core : list nat) (a : array) : result (list nat * list array) :=
  let lead := (length (shape_of a) - length core)%nat in
  if shape_eqb (drop lead (shape_of a)) core
  then Ok (take lead (shape_of a),
           (λ d, {| shape_of := core; data := d |})
             <$> chunks (prod (take lead (shape_of a))) (prod core) (data a))
  else Raise ValueError.

(** ** Bijections

    [flowjax.bijections] is consumed through the capability set of a
    bijection. *)

Record leaf_bijection : Type := {
  leaf_shape : list nat;
  leaf_cond_shape : option (list nat);
  leaf_transform : array → option array → result array;
  leaf_inverse : array → option array → result array;
  leaf_transform_and_log_det : array → option array → result (array * scalar);
  leaf_inverse_and_log_det : array → option array → result (array * scalar);
}.

#[warnings="-register-all"]
Inductive bijection : Type :=
  | Leaf (b : leaf_bijection)
  | Chain (bijections : list bijection).

Section chain.

Context (condition : option array).

(** Modelled from the spec: [Chain] of [flowjax.bijections], which
    [merge_transforms] builds and whose source is not embedded here.
    [transform] applies each bijection in sequence. *)
Fixpoint transform (b : bijection) (x : array) : result array :=
  match b with
  | Leaf l => leaf_transform l x condition
  | Chain bs =>
      (fix loop (bs : list bijection) (x : array) : result array :=
         match bs with
         | [] => Ok x
         | b' :: bs' => y ← transform b' x; loop bs' y
         end) bs x
  end.

(** Modelled from the spec: [Chain.transform_and_log_det] applies each
    bijection in sequence and sums the log-determinants. *)
Fixpoint transform_and_log_det (b : bijection) (x : array) : result (array * scalar) :=
  match b with
  | Leaf l => leaf_transform_and_log_det l x condition
  | Chain bs =>
      (fix loop (bs : list bijection) (x : array) (log_det : scalar)
         : result (array * scalar) :=
         match bs with
         | [] => Ok (x, log_det)
         | b' :: bs' =>
             '(y, log_det_i) ← transform_and_log_det b' x;
             loop bs' y (sadd log_det log_det_i)
         end) bs x (Fin 0)
  end.

(** Modelled from the spec: [Chain.inverse] applies the sequence in
    reverse, using each bijection's inverse.  The recursion reaches the
    end of the list first, so the last bijection is inverted first. *)
Fixpoint inverse (b : bijection) (y : array) : result array :=
  match b with
  | Leaf l => leaf_inverse l y condition
  | Chain bs =>
      (fix loop (bs : list bijection) (y : array) : result array :=
         match bs with
         | [] => Ok y
         | b' :: bs' => x ← loop bs' y; inverse b' x
         end) bs y
  end.

(** Modelled from the spec: [Chain.inverse_and_log_det] applies the
    sequence in reverse and sums the log-determinants. *)
Fixpoint inverse_and_log_det (b : bijection) (y : array) : result (array * scalar) :=
  match b with
  | Leaf l => leaf_inverse_and_log_det l y condition
  | Chain bs =>
      (fix loop (bs : list bijection) (y : array) : result (array * scalar) :=
         match bs with
         | [] => Ok (y, Fin 0)
         | b' :: bs' =>
             '(x, log_det) ← loop bs' y;
             '(x', log_det_i) ← inverse_and_log_det b' x;
             Ok (x', sadd log_det log_det_i)
         end) bs y
  end.

End chain.

(** Modelled from the spec: [Chain.merge_chains] splices nested chains
    into one flat sequence. *)
Fixpoint flatten (b : bijection) : list bijection :=
  match b with
  | Leaf l => [Leaf l]
  | Chain bs =>
      (fix loop (bs : list bijection) : list bijection :=
         match bs with
         | [] => []
         | b' :: bs' => flatten b' ++ loop bs'
         end) bs
  end.

Definition merge_chains (b : bijection) : bijection := Chain (flatten b).

(** Modelled from the spec: the conditioning shape of a [Chain] merges
    those of its bijections. *)
Fixpoint bijection_cond_shape (b : bijection) : option (list nat) :=
  match b with
  | Leaf l => leaf_cond_shape l
  | Chain bs =>
      (fix loop (bs : list bijection) : option (list nat) :=
         match bs with
         | [] => None
         | b' :: bs' =>
             match bijection_cond_shape b' with
             | Some s => Some s
             | None => loop bs'
             end
         end) bs
  end.


(** ** Distributions *)

Section distributions.

Context `{Random}.

(** A concrete subclass of [AbstractDistribution]: it declares [shape]
    and [cond_shape] and defines [_log_prob] and [_sample]. *)
Record concrete : Type := {
  c_shape : list nat;
  c_cond_shape : option (list nat);
  c_log_prob : array → option array → result scalar;
  c_sample : prng_key → option array → result array;
}.

Inductive distribution : Type :=
  | Concrete (d : concrete)
  | Transformed (base_dist : distribution) (bijection : bijection).

(** [isinstance(d, AbstractTransformed)] *)
Definition is_transformed (d : distribution) : bool :=
  match d with
  | Transformed _ _ => true
  | Concrete _ => false
  end.

Fixpoint shape (d : distribution) : list nat :=
  match d with
  | Concrete c => c_shape c
  | Transformed base_dist _ => shape base_dist
  end.

Fixpoint _log_prob (d : distribution) (x : array) (condition : option array)
    : result scalar :=
  match d with
  | Concrete c => c_log_prob c x condition
  | Transformed base_dist bijection =>
      '(z, log_abs_det) ← inverse_and_log_det condition bijection x;
      p_z ← _log_prob base_dist z condition;
      Ok (sadd p_z log_abs_det)
  end.

Fixpoint _sample (d : distribution) (key : prng_key) (condition : option array)
    : result array :=
  match d with
  | Concrete c => c_sample c key condition
  | Transformed base_dist bijection =>
      base_sample ← _sample base_dist key condition;
      transform condition bijection base_sample
  end.

Fixpoint _sample_and_log_prob (d : distribution) (key : prng_key)
    (condition : option array) : result (array * scalar) :=
  match d with
  | Concrete c =>
      x ← c_sample c key condition;
      lp ← c_log_prob c x condition;
      Ok (x, lp)
  | Transformed base_dist bijection =>
      '(base_sample, log_prob_base) ← _sample_and_log_prob base_dist key condition;
      '(sample, forward_log_dets) ←
        transform_and_log_det condition bijection base_sample;
      Ok (sample, ssub log_prob_base forward_log_dets)
  end.

Fixpoint cond_shape (d : distribution) : option (list nat) :=
  match d with
  | Concrete c => c_cond_shape c
  | Transformed base_dist bijection =>
      merge_cond_shapes [bijection_cond_shape bijection; cond_shape base_dist]
  end.

Definition ndim (d : distribution) : nat := length (shape d).

(** Checks cond_shape is compatible in both bijection and distribution. *)
Definition __check_init__ (base_dist : distribution) (bijection : bijection)
    : result unit :=
  match cond_shape base_dist, bijection_cond_shape bijection with
  | Some s, Some s' => if shape_eqb s s' then Ok () else Raise ValueError
  | _, _ => Ok ()
  end.

(** [Transformed(base_dist, bijection)]: the fields are stored and the
    check runs. *)
Definition new_Transformed (base_dist : distribution) (bijection : bijection)
    : result distribution :=
  _ ← __check_init__ base_dist bijection;
  Ok (Transformed base_dist bijection).

(** The [while] loop of [merge_transforms]: [bijections] grows at its
    end while the base distribution is unwrapped. *)
Fixpoint unnest (base_dist : distribution) (bijections : list bijection)
    : distribution * list bijection :=
  match base_dist with
  | Transformed base_dist' bijection' => unnest base_dist' (bijections ++ [bijection'])
  | Concrete _ => (base_dist, bijections)
  end.

(** [merge_transforms] of the transformed distribution with fields
    [base_dist] and [bijection]. *)
Definition merge_transforms (base_dist : distribution) (bijection : bijection)
    : result distribution :=
  if negb (is_transformed base_dist) then Ok (Transformed base_dist bijection)
  else
    let '(base_dist, bijections) := unnest base_dist [bijection] in
    let bijection := merge_chains (Chain (reverse bijections)) in
    new_Transformed base_dist bijection.

(** The nesting of a distribution: its bijections from the innermost to
    the outermost, and the distribution they are applied to. *)
Fixpoint bijections_of (d : distribution) : list bijection :=
  match d with
  | Concrete _ => []
  | Transformed base_dist bijection => bijections_of base_dist ++ [bijection]
  end.

Fixpoint innermost (d : distribution) : distribution :=
  match d with
  | Concrete _ => d
  | Transformed base_dist _ => innermost base_dist
  end.

(** A distribution all of whose transformed layers have passed the check
    run at construction. *)
Fixpoint valid (d : distribution) : Prop :=
  match d with
  | Concrete _ => True
  | Transformed base_dist bijection =>
      valid base_dist ∧ __check_init__ base_dist bijection = Ok ()
  end.

(** ** The public entry points *)

(** [self._vectorize(method)(items, condition)], for [items] of leading
    shape [lead].  An unconditional distribution hands [condition] to
    the method as it is; a conditional one broadcasts it against the
    first argument. *)
Definition _vectorize {A B : Type} (self : distribution)
    (method : A → option array → result B)
    (lead : list nat) (items : list A) (condition : option array)
    : result (list nat * list B) :=
  match cond_shape self with
  | None =>
      outs ← mapM (λ a, method a condition) items;
      Ok (lead, outs)
  | Some cs =>
      c ← arraylike_to_array condition;
      '(lead_c, conds) ← unbatch cs c;
      out ← broadcast_shapes lead lead_c;
      outs ← mapM (λ idx,
                     a ← item items (ravel lead idx);
                     ci ← item conds (ravel lead_c idx);
                     method a (Some ci))
                  (ndindex out);
      Ok (out, outs)
  end.

(** The conversion of [condition] at the head of each entry point. *)
Definition convert_condition (self : distribution) (condition : option array)
    : result (option array) :=
  match cond_shape self with
  | Some _ => c ← arraylike_to_array condition; Ok (Some c)
  | None => Ok condition
  end.

Definition _get_sample_keys (self : distribution) (key : prng_key)
    (sample_shape : list nat) (condition : option array)
    : result (list nat * list prng_key) :=
  leading_cond_shape ←
    match cond_shape self with
    | Some cs =>
        c ← arraylike_to_array condition;
        Ok (take (length (shape_of c) - length cs) (shape_of c))
    | None => Ok []
    end;
  let key_shape := sample_shape ++ leading_cond_shape in
  let key_size := Nat.max 1 (prod key_shape) in
  if Nat.eqb key_size (prod key_shape)
  then Ok (key_shape, split key key_size)
  else Raise TypeError.

(** Evaluate the log probability. *)
Definition log_prob (self : distribution) (x : array) (condition : option array)
    : result array :=
  condition ← convert_condition self condition;
  '(lead, xs) ← unbatch (shape self) x;
  '(out, lps) ← _vectorize self (_log_prob self) lead xs condition;
  Ok {| shape_of := out;
        data := (λ lp, if isnan lp then NInf else lp) <$> lps |}.

(** Sample from the distribution. *)
Definition sample (self : distribution) (key : prng_key)
    (sample_shape : list nat) (condition : option array) : result array :=
  condition ← convert_condition self condition;
  '(key_shape, keys) ← _get_sample_keys self key sample_shape condition;
  '(out, xs) ← _vectorize self (_sample self) key_shape keys condition;
  Ok {| shape_of := out ++ shape self; data := concat (data <$> xs) |}.

(** Sample the distribution and return the samples with their log
    probabilities. *)
Definition sample_and_log_prob (self : distribution) (key : prng_key)
    (sample_shape : list nat) (condition : option array)
    : result (array * array) :=
  condition ← convert_condition self condition;
  '(key_shape, keys) ← _get_sample_keys self key sample_shape condition;
  '(out, rs) ← _vectorize self (_sample_and_log_prob self) key_shape keys condition;
  Ok ({| shape_of := out ++ shape self; data := concat ((data ∘ fst) <$> rs) |},
      {| shape_of := out; data := snd <$> rs |}).

(** ** [SpecializeCondition] *)

(** The values held by the attributes of an instance. *)
Inductive pyvalue : Type :=
  | PNone
  | PBool (b : bool)
  | PArray (a : array)
  | PShape (s : list nat)
  | PDist (d : distribution)
  | PMethod (name : string).

(** What the class [SpecializeCondition] and its base
    [AbstractDistribution] define: the class variable [cond_shape], the
    methods and the properties.  The field [shape] is declared without a
    value, so the class holds nothing under that name. *)
Definition SpecializeCondition_class : gmap string pyvalue :=
  list_to_map
    (("cond_shape", PNone)
     :: ((λ name, (name, PMethod name))
           <$> ["__init__"; "_log_prob"; "_sample"; "_sample_and_log_prob";
                "condition"; "log_prob"; "sample"; "sample_and_log_prob";
                "ndim"; "cond_ndim"; "_vectorize"; "_get_sample_keys"])).

(** [self.name]: the instance's own attributes, then the class. *)
Definition getattr (self : gmap string pyvalue) (name : string) : result pyvalue :=
  match self !! name with
  | Some v => Ok v
  | None =>
      match SpecializeCondition_class !! name with
      | Some v => Ok v
      | None => Raise (AttributeError name)
      end
  end.

(** [SpecializeCondition.__init__], on the instance [self] being
    initialised. *)
Definition SpecializeCondition__init__ (self : gmap string pyvalue)
    (dist : distribution) (condition : option array) (stop_gradient : bool)
    : result (gmap string pyvalue) :=
  condition ← arraylike_to_array condition;
  self_dist ← getattr self "dist";
  dist_cond_shape ←
    match self_dist with
    | PDist d => Ok (cond_shape d)
    | _ => Raise (AttributeError "cond_shape")
    end;
  if negb (bool_decide (dist_cond_shape = Some (shape_of condition)))
  then Raise ValueError
  else
    let self := <["dist" := PDist dist]> self in
    let self := <["_condition" := PArray condition]> self in
    let self := <["shape" := PShape (shape dist)]> self in
    let self := <["stop_gradient" := PBool stop_gradient]> self in
    Ok self.

(** [SpecializeCondition(dist, condition, stop_gradient=...)]: a fresh
    instance, with no attribute of its own, is initialised. *)
Definition SpecializeCondition (dist : distribution) (condition : option array)
    (stop_gradient : bool) : result (gmap string pyvalue) :=
  SpecializeCondition__init__ ∅ dist condition stop_gradient.

End distributions.

(** ** Standard distributions *)

(** Standard gumbel distribution. *)
Module _StandardGumbel.

(** [-(x + jnp.exp(-x)).sum()] *)
Definition _log_prob (x : array) (condition : option array) : result scalar :=
  Ok (sneg (vsum (vmap (λ xi, sadd xi (sexp (sneg xi))) (data x)))).

(** [jr.gumbel(key, shape=self.shape)]; the sampler of [jax.random] is
    [gumbel]. *)
Definition _sample `{Random} (gumbel : prng_key → list nat → array)
    (shape : list nat) (key : prng_key) (condition : option array) : result array :=
  Ok (gumbel key shape).

(** [_StandardGumbel(shape)]; [cond_shape] is the class variable [None]. *)
Definition new `{Random} (gumbel : prng_key → list nat → array)
    (shape : list nat) : concrete :=
  {| c_shape := shape;
     c_cond_shape := None;
     c_log_prob := _log_prob;
     c_sample := _sample gumbel shape |}.

End _StandardGumbel.

(** Student T distribution with specified degrees of freedom: its
    constructor and the property [df]. *)
Module _StandardStudentT.

Record t : Type := {
  shape : list nat;
  log_df : array;
}.

Definition __init__ (df : array) : result t :=
  if existsb (λ v, sle v (Fin 0)) (data df) then Raise ValueError
  else Ok {| shape := shape_of df;
             log_df := {| shape_of := shape_of df; data := vmap slog (data df) |} |}.

(** The degrees of freedom of the distribution. *)
Definition df (self : t) : array :=
  {| shape_of := shape_of (log_df self); data := vmap sexp (data (log_df self)) |}.

End _StandardStudentT.

End distributions.

(** ** Chains as lists of bijections *)

(** The loops of a chain, and its conditioning shape, on the list of its
    bijections. *)
Definition chain_transform (condition : option distributions.array)
    (bs : list distributions.bijection) (x : distributions.array)
    : result distributions.array :=
  distributions.transform condition (distributions.Chain bs) x.
Definition chain_inverse_and_log_det (condition : option distributions.array)
    (bs : list distributions.bijection) (y : distributions.array)
    : result (distributions.array * scalar) :=
  distributions.inverse_and_log_det condition (distributions.Chain bs) y.
Definition chain_cond_shape (bs : list distributions.bijection) : option (list nat) :=
  distributions.bijection_cond_shape (distributions.Chain bs).

(** The forward loop of a chain with its running sum of log-determinants. *)
Fixpoint chain_forward (condition : option distributions.array)
    (bs : list distributions.bijection) (x : distributions.array) (log_det : scalar)
    : result (distributions.array * scalar) :=
  match bs with
  | [] => Ok (x, log_det)
  | b :: bs' =>
      '(y, log_det_i) ← distributions.transform_and_log_det condition b x;
      chain_forward condition bs' y (sadd log_det log_det_i)
  end.

(** ** The forward pass, in the words of the specification *)

Definition tensor_shape (t : tensor3) (n r c : nat) : Prop :=
  length t = n ∧ Forall (λ m, has_shape m r c) t.

(** [x] is passed through every layer in order, and the block
    log-Jacobian tensor of each layer is collected in forward order. *)
Fixpoint collect (ls : list bnaf.BlockAutoregressiveNetwork.layer) (x : vec)
    : result (vec * list tensor3) :=
  match ls with
  | [] => Ok (x, [])
  | l :: ls' =>
      '(y, log_det_3d) ← bnaf.BlockAutoregressiveNetwork.call l x;
      '(z, log_det_3ds) ← collect ls' y;
      Ok (z, log_det_3d :: log_det_3ds)
  end.

(** The collected tensors are folded right-to-left with the log-domain
    matrix product, starting from the last one. *)
Definition fold_from_last (log_det_3ds : list tensor3) : result tensor3 :=
  last_tensor ← last_item log_det_3ds;
  foldr (λ ld acc, logdet ← acc; bnaf.logmatmulexp_3d logdet ld)
        (Ok last_tensor) (removelast log_det_3ds).

(** A linear layer as [__init__] builds it for [dim] blocks of shape
    [size]. *)
Definition layer_for (dim : nat) (size : nat * nat)
    (l : bnaf.BlockAutoregressiveLinear.t) : Prop :=
  bnaf.BlockAutoregressiveLinear.block_shape l = size
  ∧ bnaf.BlockAutoregressiveLinear.n_blocks l = dim
  ∧ linear_wf l.

(** The layers of a network of dimension [dim] with square blocks of size
    [b]: a linear layer with blocks [(b, 1)], then activation and linear
    layer in turn, with blocks [(b, b)] and, for the last, [(1, b)]. *)
Definition network_wf (dim b : nat) (net : bnaf.BlockAutoregressiveNetwork.t) : Prop :=
  ∃ (first : bnaf.BlockAutoregressiveLinear.t)
    (others : list bnaf.BlockAutoregressiveLinear.t) (middle : nat),
    bnaf.BlockAutoregressiveNetwork.layers net
    = bnaf.BlockAutoregressiveNetwork.Linear first
      :: (others ≫= λ l,
            [bnaf.BlockAutoregressiveNetwork.Activation (bnaf._TanhBNAF.__init__ dim);
             bnaf.BlockAutoregressiveNetwork.Linear l])
    ∧ layer_for dim (b, 1%nat) first
    ∧ Forall2 (layer_for dim) (replicate middle (b, b) ++ [(1%nat, b)]) others.

(** Tensors that can be multiplied block by block, the last one leftmost:
    each has as many columns as its predecessor has rows. *)
Inductive chain (dim : nat) : list tensor3 → nat → nat → Prop :=
  | chain_one t r c :
      tensor_shape t dim r c → chain dim [t] r c
  | chain_snoc lds t r k c :
      chain dim lds k c → (0 < k)%nat → tensor_shape t dim r k →
      chain dim (lds ++ [t]) r c.

(** The number of non-zero entries of a 2-d array. *)
Definition count_nonzero (m : matrix) : nat :=
  sum_list_with (λ row, length (filter (λ x, nonzero x = true) row)) m.

(** Block shapes that follow one another: each has as many columns as
    its predecessor has rows, [rprev] before the first and [rout] after the
    last, and no block is without rows. *)
Fixpoint sizes_chain (rprev : nat) (sizes : list (nat * nat)) (rout : nat) : Prop :=
  match sizes with
  | [] => rprev = rout
  | (r, c) :: sizes' => c = rprev ∧ (0 < r)%nat ∧ sizes_chain r sizes' rout
  end.

(** * Concrete inputs

    A random capability that is as simple as the interface allows: the key
    is a counter and every draw is one half. *)

Definition counter_split (k n : nat) : list nat := (λ i, k + i)%nat <$> seq 1 n.
Definition constant_init (k r c : nat) : matrix := full2 r c (Fin (1 / 2)).
Definition constant_uniform (k n : nat) : vec := full n (Fin (1 / 2)).

Lemma counter_split_length k n : length (counter_split k n) = n.
Proof. unfold counter_split. by rewrite length_fmap, length_seq. Qed.

Lemma constant_init_rows k r c : length (constant_init k r c) = r.
Proof. apply length_replicate. Qed.

Lemma constant_init_cols k r c :
  Forall (λ row, length row = c) (constant_init k r c).
Proof.
  apply Forall_forall. intros row Hrow.
  apply elem_of_replicate in Hrow as [-> _]. apply length_replicate.
Qed.

Lemma constant_uniform_length k n : length (constant_uniform k n) = n.
Proof. apply length_replicate. Qed.

#[export] Instance counter_random : Random := {|
  prng_key := nat;
  split := counter_split;
  init := constant_init;
  uniform := constant_uniform;
  split_length := counter_split_length;
  init_rows := constant_init_rows;
  init_cols := constant_init_cols;
  uniform_length := constant_uniform_length;
|}.

(** A layer of two blocks of one entry each, whose raw weight is not zero
    above the diagonal. *)
Definition two_block_layer : bnaf.BlockAutoregressiveLinear.t :=
  {| bnaf.BlockAutoregressiveLinear.n_blocks := 2;
     bnaf.BlockAutoregressiveLinear.block_shape := (1%nat, 1%nat);
     bnaf.BlockAutoregressiveLinear.W := [[Fin 0; Fin 5]; [Fin 1; Fin 0]];
     bnaf.BlockAutoregressiveLinear.bias := [Fin 0; Fin 0];
     bnaf.BlockAutoregressiveLinear.W_log_scale := [Fin 0; Fin 0];
     bnaf.BlockAutoregressiveLinear.in_features := 2;
     bnaf.BlockAutoregressiveLinear.out_features := 2;
     bnaf.BlockAutoregressiveLinear._b_diag_mask := bnaf.b_diag_mask (1%nat, 1%nat) 2;
     bnaf.BlockAutoregressiveLinear._b_diag_mask_idxs :=
       jnp_where (bnaf.b_diag_mask (1%nat, 1%nat) 2);
     bnaf.BlockAutoregressiveLinear._b_tril_mask := bnaf.b_tril_mask (1%nat, 1%nat) 2 |}.

(** Unbounded precision: no result is rounded. *)
Definition exact_rounding : Rounding :=
  {| rnd := Fin; rnd_0 := eq_refl; rnd_not_nan := λ _, eq_refl |}.

Definition exact_binary64 : Binary64 :=
  {| float64 := λ r, r;
     float64_monotone := λ _ _ Hxy, Hxy;
     float64_integer := λ _ _, eq_refl |}.

(** The exponent range of binary32 (the default float of jax) with
    unbounded precision: a result of magnitude below [2 ^ -150], half the
    least positive binary32 number, is rounded to zero; a result of
    magnitude [2 ^ 128] or more overflows; any other result is kept. *)
Definition binary32_range_rnd (r : R) : scalar :=
  if Rlt_dec (Rabs r) (/ 2 ^ 150) then Fin 0
  else if Rlt_dec (Rabs r) (2 ^ 128) then Fin r
  else if Rlt_dec 0 r then PInf else NInf.

Lemma binary32_range_rnd_0 : binary32_range_rnd 0 = Fin 0.
Proof.
  unfold binary32_range_rnd. destruct (Rlt_dec (Rabs 0) (/ 2 ^ 150)) as [|Hn]; [done |].
  exfalso. apply Hn. rewrite Rabs_R0. apply Rinv_0_lt_compat, pow_lt. lra.
Qed.

Lemma binary32_range_rnd_not_nan (r : R) : isnan (binary32_range_rnd r) = false.
Proof.
  unfold binary32_range_rnd.
  by destruct (Rlt_dec (Rabs r) (/ 2 ^ 150)), (Rlt_dec (Rabs r) (2 ^ 128)), (Rlt_dec 0 r).
Qed.

Definition binary32_range : Rounding :=
  {| rnd := binary32_range_rnd;
     rnd_0 := binary32_range_rnd_0;
     rnd_not_nan := binary32_range_rnd_not_nan |}.

(** A layer of two blocks of one entry each, with finite parameters,
    whose first row holds a raw weight of [-200] on the diagonal:
    [exp(-200)] is below the least positive binary32 number. *)
Definition underflowing_layer : bnaf.BlockAutoregressiveLinear.t :=
  {| bnaf.BlockAutoregressiveLinear.n_blocks := 2;
     bnaf.BlockAutoregressiveLinear.block_shape := (1%nat, 1%nat);
     bnaf.BlockAutoregressiveLinear.W := [[Fin (-200); Fin 0]; [Fin 1; Fin 0]];
     bnaf.BlockAutoregressiveLinear.bias := [Fin 0; Fin 0];
     bnaf.BlockAutoregressiveLinear.W_log_scale := [Fin 0; Fin 0];
     bnaf.BlockAutoregressiveLinear.in_features := 2;
     bnaf.BlockAutoregressiveLinear.out_features := 2;
     bnaf.BlockAutoregressiveLinear._b_diag_mask := bnaf.b_diag_mask (1%nat, 1%nat) 2;
     bnaf.BlockAutoregressiveLinear._b_diag_mask_idxs :=
       jnp_where (bnaf.b_diag_mask (1%nat, 1%nat) 2);
     bnaf.BlockAutoregressiveLinear._b_tril_mask := bnaf.b_tril_mask (1%nat, 1%nat) 2 |}.

(** A network of dimension two with three layers of blocks [(2, 2)],
    built by the constructor from the counter keys. *)
Definition example_network : bnaf.BlockAutoregressiveNetwork.t :=
  match @bnaf.BlockAutoregressiveNetwork.__init__ counter_random 0%nat 2%nat 3%Z
          (2%nat, 2%nat) with
  | Ok net => net
  | Raise _ =>
      {| bnaf.BlockAutoregressiveNetwork.n_layers := 3;
         bnaf.BlockAutoregressiveNetwork.layers := [];
         bnaf.BlockAutoregressiveNetwork.activation := bnaf._TanhBNAF.__init__ |}
  end.

(** A flow that has degenerated numerically: the base density has
    underflowed to zero at the point drawn (log-probability [-inf]) and
    the bijection has a zero derivative there (log-determinant [-inf]). *)
Definition underflowed_base : distributions.concrete :=
  {| distributions.c_shape := [];
     distributions.c_cond_shape := None;
     distributions.c_log_prob _ _ := Ok NInf;
     distributions.c_sample _ _ :=
       Ok {| distributions.shape_of := []; distributions.data := [Fin 0] |} |}.

Definition flat_bijection : distributions.leaf_bijection :=
  {| distributions.leaf_shape := [];
     distributions.leaf_cond_shape := None;
     distributions.leaf_transform x _ := Ok x;
     distributions.leaf_inverse y _ := Ok y;
     distributions.leaf_transform_and_log_det x _ := Ok (x, NInf);
     distributions.leaf_inverse_and_log_det y _ := Ok (y, PInf) |}.

Definition degenerate_flow : distributions.distribution :=
  distributions.Transformed (distributions.Concrete underflowed_base)
                            (distributions.Leaf flat_bijection).


(** * flowjax/train_utils.py *)

Module train_utils.

(** [random.permutation(key, jnp.arange(n))] is consumed through its
    interface: a rearrangement of [0, ..., n - 1]. *)
Class Permute `{Random} : Type := {
  permutation : prng_key → nat → list nat;
  permutation_Permutation : ∀ key n, permutation key n ≡ₚ seq 0 n;
}.

(** The outcome of a call that can also fail an [assert]. *)
Inductive outcome (A : Type) : Type :=
  | Returns (a : A)
  | Raises (e : exn)
  | AssertionError.
Arguments Returns {A} a.
Arguments Raises {A} e.
Arguments AssertionError {A}.

#[global] Instance outcome_bind : MBind outcome :=
  λ A B k m,
    match m with
    | Returns a => k a
    | Raises e => Raises e
    | AssertionError => AssertionError
    end.

Definition run {A : Type} (m : result A) : outcome A :=
  match m with
  | Ok a => Returns a
  | Raise e => Raises e
  end.

(** [jnp.argmin] of a 1-d array: the first not-a-number if there is one,
    otherwise the first occurrence of the minimum.  The scan carries the
    best entry so far with its position. *)
Fixpoint argmin_from (best : scalar) (best_idx idx : nat) (l : vec) : scalar * nat :=
  match l with
  | [] => (best, best_idx)
  | x :: l' =>
      if slt x best || (isnan x && negb (isnan best))
      then argmin_from x idx (S idx) l'
      else argmin_from best best_idx (S idx) l'
  end.

(** An empty array has no [argmin]. *)
Definition argmin (l : vec) : result nat :=
  match l with
  | [] => Raise ValueError
  | x :: l' => Ok (argmin_from x 0 1 l').2
  end.

(** Given a list of losses from each epoch, count the number of epochs
    since the minimum loss.  [jnp.array(losses)] converts the Python
    floats to the float format of the arrays before [argmin] compares
    them. *)
Definition count_fruitless {array_format : Rounding} (losses : list scalar)
    : result nat :=
  min_idx ← argmin (rounded <$> losses);
  Ok (length losses - min_idx - 1)%nat.

(** [a[shuffle]]: the rows at the listed positions; a position past the
    end is clamped to the last row. *)
Definition take_rows (a : matrix) (idx : list nat) : matrix :=
  (λ i, a !!! (i `min` (length a - 1))%nat) <$> idx.

(** Randomly permute multiple arrays on axis 0 (consistent between
    arrays). *)
Definition random_permutation_multiple `{Permute} (key : prng_key)
    (arrays : list matrix) : result (list matrix) :=
  a0 ← first_item arrays;
  let n := length a0 in
  let shuffle := permutation key n in
  Ok ((λ a, take_rows a shuffle) <$> arrays).

(** Python's [round] of a float: the nearest integer, a tie going to the
    even one. *)
Definition round_half_even (r : R) : Z :=
  let f := Int_part r in
  let d := frac_part r in
  if Rlt_dec d (1 / 2) then f
  else if Rlt_dec (1 / 2) d then (f + 1)%Z
  else if Z.even f then f else (f + 1)%Z.

(** [a[:-k]] and [a[-k:]] for [k >= 0]; [-0] is [0], so [a[:-0]] is empty
    and [a[-0:]] is all of [a]. *)
Definition until_last {A : Type} (k : nat) (a : list A) : list A :=
  match k with
  | O => []
  | _ => take (length a - k) a
  end.

Definition last_rows {A : Type} (k : nat) (a : list A) : list A :=
  match k with
  | O => a
  | _ => drop (length a - k) a
  end.

(** Returns ((train_x, train_y), (val_x, val_y), ...)). Split on axis 0.
    The assertion [0 <= val_prop <= 1] fails for a not-a-number and for an
    infinity.  [val_prop * arrays[0].shape[0]] is a product of Python
    floats: the number of rows is converted to binary64 and the product is
    rounded to binary64 before [round] takes the nearest integer. *)
Definition train_val_split `{Permute} {python_float : Binary64} (key : prng_key)
    (arrays : list matrix)
    (val_prop : scalar) : outcome (list matrix * list matrix) :=
  match val_prop with
  | Fin v =>
      if Rle_dec 0 v then
        if Rle_dec v 1 then
          run ('(key, subkey) ← bnaf.BlockAutoregressiveNetwork.split2 key;
               arrays ← random_permutation_multiple subkey arrays;
               a0 ← first_item arrays;
               let n_val :=
                 Z.to_nat (round_half_even
                             (float64 (v * float64 (INR (length a0))))) in
               let train := until_last n_val <$> arrays in
               let val := last_rows n_val <$> arrays in
               Ok (train, val))
        else AssertionError
      else AssertionError
  | _ => AssertionError
  end.

(** Python's [min] of a list of floats: the first entry that no later
    entry is less than. *)
Definition py_min (l : list scalar) : result scalar :=
  match l with
  | [] => Raise ValueError
  | x :: l' => Ok (foldl (λ best y, if slt y best then y else best) x l')
  end.

(** [range(0, stop, step)] for [stop >= 0] and [step >= 0]. *)
Definition range (stop step : nat) : result (list nat) :=
  match step with
  | O => Raise ValueError
  | _ => Ok ((λ k, k * step)%nat <$> seq 0 ((stop + step - 1) / step))
  end.

(** The two lists of [losses]. *)
Record losses_t : Type := {
  train : list scalar;
  val : list scalar;
}.

Section training.

Context `{Permute} {array_format : Rounding} {python_float : Binary64}.

(** The flow, the gradient of the loss, the optimiser and equinox's
    partition of a model into its arrays and the rest are consumed through
    their interfaces. *)
Context {Flow Params Static Grads Updates OptState : Type}.
Context (flow_log_prob : Flow → matrix → option matrix → result vec).
Context (grad : Flow → matrix → option matrix → Grads).
Context (apply_updates : Flow → Updates → Flow).
Context (partition : Flow → Params * Static).
Context (combine : Params → Static → Flow).

Record optimizer : Type := {
  opt_init : Params → OptState;
  opt_update : Grads → OptState → Updates * OptState;
}.

(** [optax.adam(learning_rate=...)] *)
Context (adam : scalar → optimizer).

Definition loss (flow : Flow) (x : matrix) (condition : option matrix)
    : result scalar :=
  lps ← flow_log_prob flow x condition;
  Ok (sneg (mean lps)).

(** [eqx.filter_value_and_grad(loss)] returns the loss with its gradient. *)
Definition step (flow : Flow) (optimizer : optimizer) (opt_state : OptState)
    (x : matrix) (condition : option matrix) : result (Flow * OptState * scalar) :=
  loss_val ← loss flow x condition;
  let grads := grad flow x condition in
  let '(updates, opt_state) := opt_update optimizer grads opt_state in
  let flow := apply_updates flow updates in
  Ok (flow, opt_state, loss_val).

(** The arguments [x, condition=None] bound from a tuple of one or two
    arrays. *)
Definition unpack (args : list matrix) : result (matrix * option matrix) :=
  match args with
  | [x] => Ok (x, None)
  | [x; condition] => Ok (x, Some condition)
  | _ => Raise TypeError
  end.

(** The loop over [batches]. *)
Fixpoint batches_loop (optimizer : optimizer) (batch_size : nat)
    (train_args : list matrix) (batches : list nat)
    (flow : Flow) (opt_state : OptState) (epoch_train_loss : scalar)
    : result (Flow * OptState * scalar) :=
  match batches with
  | [] => Ok (flow, opt_state, epoch_train_loss)
  | i :: batches' =>
      let batch := (λ a, take batch_size (drop i a)) <$> train_args in
      '(x, condition) ← unpack batch;
      '(flow, opt_state, loss_val) ← step flow optimizer opt_state x condition;
      batches_loop optimizer batch_size train_args batches'
                   flow opt_state (sadd epoch_train_loss loss_val)
  end.

(** What the loop over the epochs carries from one epoch to the next. *)
Record state : Type := {
  st_key : prng_key;
  st_flow : Flow;
  st_opt_state : OptState;
  st_train_args : list matrix;
}.

(** One pass of the loop over the epochs, up to the two losses it
    appends: the state it leaves, the mean training loss and the
    validation loss. *)
Definition epoch (optimizer : optimizer) (batch_size : nat)
    (val_args : list matrix) (st : state) : result (state * scalar * scalar) :=
  '(key, subkey) ← bnaf.BlockAutoregressiveNetwork.split2 (st_key st);
  train_args ← random_permutation_multiple subkey (st_train_args st);
  a0 ← first_item train_args;
  batches ← range (length a0 - batch_size) batch_size;
  '(flow, opt_state, epoch_train_loss) ←
    batches_loop optimizer batch_size train_args batches
                 (st_flow st) (st_opt_state st) (Fin 0);
  '(val_x, val_condition) ← unpack val_args;
  val_loss ← loss flow val_x val_condition;
  mean_train_loss ←
    match length batches with
    | O => Raise ZeroDivisionError
    | n => Ok (sdiv epoch_train_loss (Fin (INR n)))
    end;
  Ok ({| st_key := key; st_flow := flow; st_opt_state := opt_state;
         st_train_args := train_args |},
      mean_train_loss, val_loss).

(** The loop over the epochs, [epochs] of them being left.  [break]
    leaves the loop with the state reached. *)
Fixpoint epochs_loop (optimizer : optimizer) (max_patience batch_size : nat)
    (val_args : list matrix) (epochs : nat) (st : state)
    (best_params : Params) (losses : losses_t) : result (Params * losses_t) :=
  match epochs with
  | O => Ok (best_params, losses)
  | S epochs' =>
      '(st, mean_train_loss, val_loss) ← epoch optimizer batch_size val_args st;
      let losses := {| train := train losses ++ [mean_train_loss];
                       val := val losses ++ [val_loss] |} in
      least ← py_min (val losses);
      if seqb val_loss least
      then epochs_loop optimizer max_patience batch_size val_args epochs'
                       st (partition (st_flow st)).1 losses
      else
        fruitless ← count_fruitless (val losses);
        if (max_patience <? fruitless)%nat
        then Ok (best_params, losses)
        else epochs_loop optimizer max_patience batch_size val_args epochs'
                         st best_params losses
  end.

(** The state before the first epoch. *)
Definition initial_state (key : prng_key) (flow : Flow) (optimizer : optimizer)
    (train_args : list matrix) : state :=
  {| st_key := key; st_flow := flow;
     st_opt_state := opt_init optimizer (partition flow).1;
     st_train_args := train_args |}.

(** [show_progress] only drives the progress bar, and the message printed
    at the [break] is not part of the result. *)
Definition train_flow (key : prng_key) (flow : Flow) (x : matrix)
    (condition : option matrix) (max_epochs max_patience : nat)
    (learning_rate : scalar) (batch_size : nat) (val_prop : scalar)
    : outcome (Flow * losses_t) :=
  '(key, subkey) ← run (bnaf.BlockAutoregressiveNetwork.split2 key);
  let inputs := match condition with None => [x] | Some c => [x; c] end in
  '(train_args, val_args) ← train_val_split subkey inputs val_prop;
  let optimizer := adam learning_rate in
  let '(best_params, static) := partition flow in
  '(best_params, losses) ←
    run (epochs_loop optimizer max_patience batch_size val_args max_epochs
                     (initial_state key flow optimizer train_args) best_params
                     {| train := []; val := [] |});
  Returns (combine best_params static, losses).

(** The state after the first [n] epochs, when none of them raises. *)
Fixpoint epochs_run (optimizer : optimizer) (batch_size : nat)
    (val_args : list matrix) (n : nat) (st : state) : result state :=
  match n with
  | O => Ok st
  | S n' =>
      '(st, _, _) ← epoch optimizer batch_size val_args st;
      epochs_run optimizer batch_size val_args n' st
  end.

End training.

(** The loop over the epochs was left by [break] on the validation
    losses [val]: the last one is not their minimum, and more than
    [max_patience] epochs have passed since the minimum. *)
Definition stopped_early {array_format : Rounding} (max_patience : nat)
    (val : list scalar) : Prop :=
  ∃ fruitless least last_loss,
    count_fruitless val = Ok fruitless ∧ (max_patience < fruitless)%nat
    ∧ py_min val = Ok least ∧ last val = Some last_loss
    ∧ seqb last_loss least = false.

End train_utils.

(** * flowjax/train/variational_fit.py *)

Module variational_fit.

(** An elementwise operation on two arrays, with broadcasting. *)
Definition broadcast_binary (f : scalar → scalar → scalar)
    (a b : distributions.array) : result distributions.array :=
  out ← distributions.broadcast_shapes (distributions.shape_of a)
                                       (distributions.shape_of b);
  d ← mapM (λ idx,
              x ← distributions.item (distributions.data a)
                    (distributions.ravel (distributions.shape_of a) idx);
              y ← distributions.item (distributions.data b)
                    (distributions.ravel (distributions.shape_of b) idx);
              Ok (f x y))
           (distributions.ndindex out);
  Ok {| distributions.shape_of := out; distributions.data := d |}.

Definition elbo_loss `{Random} (key : prng_key) (dist : distributions.distribution)
    (target : distributions.array → result distributions.array)
    (num_samples : nat) : result scalar :=
  '(samples, approx_density) ←
    distributions.sample_and_log_prob dist key [num_samples] None;
  target_density ← target samples;
  losses ← broadcast_binary ssub approx_density target_density;
  Ok (mean (distributions.data losses)).

End variational_fit.

(** * Concrete inputs for training

    A permutation capability over the counter keys: every shuffle reverses
    the rows. *)

Lemma reverse_seq_Permutation (key n : nat) : reverse (seq 0 n) ≡ₚ seq 0 n.
Proof. apply reverse_Permutation. Qed.

#[export] Instance reversing_permute : @train_utils.Permute counter_random := {|
  train_utils.permutation := λ _ n, reverse (seq 0 n);
  train_utils.permutation_Permutation := reverse_seq_Permutation;
|}.

(** A flow that is a counter of the optimiser steps taken, with
    log-probability zero at every point; the optimiser has no state. *)
Definition counting_optimizer
    : train_utils.optimizer (Params := nat) (Grads := unit) (Updates := unit)
                            (OptState := unit) :=
  {| train_utils.opt_init := λ _, ();
     train_utils.opt_update := λ _ _, ((), ()) |}.

Definition zero_log_prob (flow : nat) (x : matrix) (condition : option matrix)
    : result vec :=
  Ok [Fin 0].

Definition train_counter (x : matrix) (max_epochs batch_size : nat)
    (val_prop : scalar) : train_utils.outcome (nat * train_utils.losses_t) :=
  train_utils.train_flow (H := counter_random) (H0 := reversing_permute)
    (array_format := binary32_range) (python_float := exact_binary64)
    zero_log_prob (λ _ _ _, ()) (λ flow _, S flow) (λ flow, (flow, ()))
    (λ params _, params) (λ _, counting_optimizer)
    0%nat 0%nat x None max_epochs 5%nat (Fin (1 / 1000)) batch_size val_prop.

(** A sampler for the Gumbel distribution that returns the mode. *)
Definition modal_gumbel (key : nat) (shape : list nat) : distributions.array :=
  {| distributions.shape_of := shape;
     distributions.data := full (distributions.prod shape) (Fin 0) |}.
(** * Properties *)

Local Open Scope nat_scope.

(** ** The error monad *)

Lemma bind_Ok {A B : Type} (m : result A) (k : A → result B) (b : B) :
  m ≫= k = Ok b ↔ ∃ a, m = Ok a ∧ k a = Ok b.
Proof.
  destruct m as [a|e]; simpl; split.
  - intros Hk. by exists a.
  - by intros (a' & [= <-] & Hk).
  - done.
  - by intros (a' & [=] & _).
Qed.

Lemma mapM_Ok {A B : Type} (f : A → result B) (l : list A) (bs : list B) :
  mapM f l = Ok bs ↔ Forall2 (λ a b, f a = Ok b) l bs.
Proof.
  revert bs. induction l as [|a l IH]; intros bs; simpl.
  - split.
    + intros [= <-]. constructor.
    + intros Hall. by inversion Hall.
  - rewrite bind_Ok. split.
    + intros (b & Hb & Hrest). apply bind_Ok in Hrest as (bs' & Hbs' & [= <-]).
      constructor; [done | by apply IH].
    + intros Hall. inversion Hall as [|? b ? bs' Hb Hbs']; subst.
      exists b. split; [done |]. apply bind_Ok. exists bs'.
      split; [by apply IH | done].
Qed.

(** ** [BlockAutoregressiveNetwork.inverse] *)

(** C2.  Whatever the arguments, [inverse] hands back a
    [NotImplementedError] instance as its ordinary return value: the call
    completes normally and raises nothing. *)
Theorem inverse_returns_the_exception args kwargs :
  bnaf.BlockAutoregressiveNetwork.inverse args kwargs
  = Ok (bnaf.BlockAutoregressiveNetwork.VException
          (NotImplementedError
             "This transform would require numerical methods for inversion.."))
  ∧ ∀ e, bnaf.BlockAutoregressiveNetwork.inverse args kwargs ≠ Raise e.
Proof. split; [reflexivity | intros e; discriminate]. Qed.

(** ** [SpecializeCondition] *)

Lemma getattr_dist_fresh `{Random} :
  distributions.getattr ∅ "dist" = Raise (AttributeError "dist").
Proof. reflexivity. Qed.

(** C10.  Constructing a [SpecializeCondition] raises for every
    distribution, every condition and either value of [stop_gradient]: with
    a condition that is an array the exception is the [AttributeError] of
    reading [self.dist] on the fresh instance, and with [None] the
    conversion of the condition has raised before.  No instance is
    returned. *)
Theorem SpecializeCondition_never_constructs `{Random}
    (dist : distributions.distribution) (condition : option distributions.array)
    (stop_gradient : bool) :
  distributions.SpecializeCondition dist condition stop_gradient
  = Raise (match condition with
           | Some _ => AttributeError "dist"
           | None => TypeError
           end)
  ∧ ∀ self, distributions.SpecializeCondition dist condition stop_gradient ≠ Ok self.
Proof.
  assert (distributions.SpecializeCondition dist condition stop_gradient
          = Raise (match condition with
                   | Some _ => AttributeError "dist"
                   | None => TypeError
                   end)) as Heq.
  { unfold distributions.SpecializeCondition, distributions.SpecializeCondition__init__.
    destruct condition as [c|]; simpl; [|done].
    by rewrite getattr_dist_fresh. }
  split; [done |]. intros self. rewrite Heq. discriminate.
Qed.

(** ** Bijections *)

Lemma bijection_ind' (P : distributions.bijection → Prop) :
  (∀ l, P (distributions.Leaf l)) →
  (∀ bs, Forall P bs → P (distributions.Chain bs)) →
  ∀ b, P b.
Proof.
  intros Hleaf Hchain. fix IH 1. intros [l|bs]; [apply Hleaf |].
  apply Hchain. induction bs as [|b bs IHbs]; constructor; [apply IH | exact IHbs].
Qed.


(** ** Transformed distributions *)


(** ** Not-a-number log-probabilities *)

(** [log_prob] maps every not-a-number log-probability to minus
    infinity: whatever the distribution, the point and the condition, no
    entry of the array it returns is not-a-number. *)
Lemma log_prob_never_nan `{Random}
    (self : distributions.distribution) (x : distributions.array)
    (condition : option distributions.array) (lps : distributions.array) :
  distributions.log_prob self x condition = Ok lps →
  Forall (λ lp, isnan lp = false) (distributions.data lps).
Proof.
  unfold distributions.log_prob. intros Hlp.
  apply bind_Ok in Hlp as (c & _ & Hlp).
  apply bind_Ok in Hlp as ([lead xs] & _ & Hlp).
  apply bind_Ok in Hlp as ([out raw] & _ & [= <-]).
  simpl. apply Forall_fmap, Forall_forall. intros lp _. simpl.
  by destruct lp.
Qed.

(** C3.  The mapping of not-a-number to minus infinity is applied by
    [log_prob] and is missing from [sample_and_log_prob].  [log_prob]
    never returns not-a-number, whatever the random capability, the
    distribution, the point and the condition.  [sample_and_log_prob] on
    the degenerate flow returns a sample with the log-probability
    [-inf - -inf], not-a-number, and [log_prob] at that very sample
    returns minus infinity. *)
Theorem sample_and_log_prob_keeps_nan :
  (∀ (H : Random) (self : distributions.distribution) (x : distributions.array)
     (condition : option distributions.array) (lps : distributions.array),
     distributions.log_prob self x condition = Ok lps →
     Forall (λ lp, isnan lp = false) (distributions.data lps))
  ∧ distributions.sample_and_log_prob degenerate_flow 0 [] None
    = Ok ({| distributions.shape_of := []; distributions.data := [Fin 0] |},
          {| distributions.shape_of := []; distributions.data := [NaN] |})
  ∧ distributions.log_prob degenerate_flow
      {| distributions.shape_of := []; distributions.data := [Fin 0] |} None
    = Ok {| distributions.shape_of := []; distributions.data := [NInf] |}.
Proof.
  split; [| split; reflexivity].
  intros H self x condition lps. apply log_prob_never_nan.
Qed.

(** ** Arrays entry by entry *)

Lemma vtab_length n f : length (vtab n f) = n.
Proof. unfold vtab. by rewrite length_fmap, length_seq. Qed.

Lemma vtab_lookup n f i : i < n → vtab n f !! i = Some (f i).
Proof.
  intros Hi. unfold vtab. rewrite list_lookup_fmap, lookup_seq_lt by done. done.
Qed.

Lemma vtab_ext n f g : (∀ i, i < n → f i = g i) → vtab n f = vtab n g.
Proof.
  intros Hfg. unfold vtab. apply list_fmap_ext. intros i x Hx.
  apply lookup_seq in Hx as [-> Hlt]. by apply Hfg.
Qed.

Lemma vec_as_vtab (v : vec) : v = vtab (length v) (λ i, v !!! i).
Proof.
  apply list_eq. intros i. destruct (decide (i < length v)) as [Hi|Hi].
  - rewrite vtab_lookup by done. by apply list_lookup_lookup_total_lt.
  - rewrite !lookup_ge_None_2; [done | rewrite vtab_length; lia | lia].
Qed.

Lemma mtab_length r c f : length (mtab r c f) = r.
Proof. unfold mtab. by rewrite length_fmap, length_seq. Qed.

Lemma mtab_lookup r c f i : i < r → mtab r c f !! i = Some (vtab c (f i)).
Proof.
  intros Hi. unfold mtab. rewrite list_lookup_fmap, lookup_seq_lt by done. done.
Qed.

Lemma mtab_ext r c f g :
  (∀ i j, i < r → j < c → f i j = g i j) → mtab r c f = mtab r c g.
Proof.
  intros Hfg. unfold mtab. apply list_fmap_ext. intros i x Hx.
  apply lookup_seq in Hx as [-> Hlt]. apply vtab_ext. intros j Hj. by apply Hfg.
Qed.

Lemma has_shape_mtab r c f : has_shape (mtab r c f) r c.
Proof.
  split; [apply mtab_length |]. apply Forall_forall. intros row Hrow.
  unfold mtab in Hrow. apply list_elem_of_fmap in Hrow as (i & -> & _).
  apply vtab_length.
Qed.

Lemma mat_as_mtab (m : matrix) r c : has_shape m r c → m = mtab r c (entry m).
Proof.
  intros [Hr Hc]. apply list_eq. intros i.
  destruct (decide (i < r)) as [Hi|Hi].
  - rewrite mtab_lookup by done.
    destruct (m !! i) as [row|] eqn:Hrow.
    + f_equal. pose proof (Forall_lookup_1 _ _ _ _ Hc Hrow) as Hlen.
      transitivity (vtab (length row) (λ j, row !!! j)); [apply vec_as_vtab |].
      simpl in Hlen. rewrite Hlen. apply vtab_ext. intros j Hj. unfold entry.
      by rewrite (list_lookup_total_correct _ _ _ Hrow).
    + apply lookup_ge_None in Hrow. lia.
  - rewrite !lookup_ge_None_2; [done | rewrite mtab_length; lia | lia].
Qed.

Lemma vzip_vtab f n g h :
  vzip f (vtab n g) (vtab n h) = vtab n (λ i, f (g i) (h i)).
Proof.
  unfold vzip, vtab. by rewrite zip_with_fmap_l, zip_with_fmap_r, zip_with_diag.
Qed.

Lemma vmap_vtab f n g : vmap f (vtab n g) = vtab n (λ i, f (g i)).
Proof. unfold vmap, vtab. by rewrite <- list_fmap_compose. Qed.

Lemma mzip_mtab f r c g h :
  mzip f (mtab r c g) (mtab r c h) = mtab r c (λ i j, f (g i j) (h i j)).
Proof.
  unfold mzip, mtab. rewrite zip_with_fmap_l, zip_with_fmap_r, zip_with_diag.
  apply list_fmap_ext. intros i x _. simpl.
  apply vzip_vtab.
Qed.

Lemma mmap_mtab f r c g : mmap f (mtab r c g) = mtab r c (λ i j, f (g i j)).
Proof.
  unfold mmap, mtab. rewrite <- list_fmap_compose. apply list_fmap_ext.
  intros i x _. simpl. apply vmap_vtab.
Qed.

Lemma col_op_mtab f r c g h :
  col_op f (mtab r c g) (vtab r h) = mtab r c (λ i j, f (g i j) (h i)).
Proof.
  unfold col_op, mtab, vtab at 2.
  rewrite zip_with_fmap_l, zip_with_fmap_r, zip_with_diag.
  apply list_fmap_ext. intros i x _. simpl.
  apply vmap_vtab.
Qed.

Lemma norm_last_mtab r c g :
  norm_last (mtab r c g)
  = vtab r (λ i, ssqrt (vsum (vtab c (λ j, smul (g i j) (g i j))))).
Proof.
  unfold norm_last, mtab, vtab at 2. rewrite <- list_fmap_compose.
  apply list_fmap_ext. intros i x _. simpl. by rewrite vmap_vtab.
Qed.

Lemma imap_vtab {B} (f : nat → scalar → B) n g :
  imap f (vtab n g) = (λ i, f i (g i)) <$> seq 0 n.
Proof.
  apply list_eq. intros i. rewrite list_lookup_imap, list_lookup_fmap.
  destruct (decide (i < n)) as [Hi|Hi].
  - rewrite vtab_lookup, lookup_seq_lt by done. done.
  - rewrite !lookup_ge_None_2; [done | rewrite length_seq; lia | rewrite vtab_length; lia].
Qed.

Lemma set_block_mtab r0 c0 c1 v r c g :
  set_block r0 c0 c1 v (mtab r c g)
  = mtab r c (λ i j, if (r0 <=? i) && (c0 <=? j) && (j <? c1) then v else g i j).
Proof.
  unfold set_block, mtab at 1.
  apply list_eq. intros i. rewrite list_lookup_imap, list_lookup_fmap.
  destruct (decide (i < r)) as [Hi|Hi].
  - rewrite mtab_lookup, lookup_seq_lt by done. simpl. f_equal.
    destruct (r0 <=? i); simpl; [| done].
    rewrite imap_vtab. done.
  - rewrite !lookup_ge_None_2; [done | rewrite mtab_length; lia | rewrite length_seq; lia].
Qed.

Lemma Rsign_pos r : (0 < r)%R → Rsign r = Pos.
Proof.
  intros Hr. unfold Rsign. destruct (total_order_T r 0) as [[Hlt|Heq]|Hgt]; [lra | lra | done].
Qed.
Lemma Rsign_zero : Rsign 0 = Zero.
Proof.
  unfold Rsign. destruct (total_order_T 0 0) as [[Hlt|Heq]|Hgt]; [lra | done | lra].
Qed.

Lemma div_lt_iff j c k : 0 < c → j < k * c ↔ j / c < k.
Proof.
  intros Hc. split; intros Hlt.
  - apply Nat.Div0.div_lt_upper_bound; lia.
  - pose proof (Nat.mul_succ_div_gt j c). nia.
Qed.

Lemma div_le_iff j c k : 0 < c → k * c ≤ j ↔ k ≤ j / c.
Proof.
  intros Hc. split; intros Hle.
  - apply Nat.div_le_lower_bound; lia.
  - pose proof (Nat.Div0.mul_div_le j c). nia.
Qed.

Lemma b_tril_mask_tab r c n :
  bnaf.b_tril_mask (r, c) n = mtab (r * n) (c * n) (tril_fn r c).
Proof.
  unfold bnaf.b_tril_mask. simpl.
  assert (∀ k, k ≤ n →
    foldl (λ mask i, set_block ((i + 1) * r) (i * c) ((i + 1) * c) (Fin 1) mask)
          (full2 (r * n) (c * n) (Fin 0)) (seq 0 k)
    = mtab (r * n) (c * n)
        (λ i j, if (j <? k * c) && (j / c <? i / r) then Fin 1 else Fin 0)) as Hinv.
  { induction k as [|k IH]; intros Hk.
    - simpl. unfold full2, full, mtab, vtab.
      apply list_eq. intros i. rewrite list_lookup_fmap.
      destruct (decide (i < r * n)) as [Hi|Hi].
      + rewrite lookup_replicate_2, lookup_seq_lt by done. simpl. f_equal.
        apply list_eq. intros j. rewrite list_lookup_fmap.
        destruct (decide (j < c * n)) as [Hj|Hj].
        * by rewrite lookup_replicate_2, lookup_seq_lt by done.
        * rewrite !lookup_ge_None_2; [done | rewrite length_seq; lia | rewrite length_replicate; lia].
      + rewrite !lookup_ge_None_2; [done | rewrite length_seq; lia | rewrite length_replicate; lia].
    - rewrite seq_S, foldl_app. simpl. rewrite IH by lia.
      rewrite set_block_mtab. apply mtab_ext. intros i j Hi Hj.
      assert (0 < r) by nia. assert (0 < c) by nia.
      pose proof (div_lt_iff j c k). pose proof (div_le_iff j c k).
      pose proof (div_lt_iff j c (k + 1)). pose proof (div_le_iff i r (k + 1)).
      repeat match goal with
      | |- context [?a <=? ?b] => destruct (Nat.leb_spec a b)
      | |- context [?a <? ?b] => destruct (Nat.ltb_spec a b)
      end; simpl; try done; exfalso; lia. }
  rewrite Hinv by done. apply mtab_ext. intros i j Hi Hj. unfold tril_fn.
  replace (j <? n * c) with true; [done |]. symmetry. apply Nat.ltb_lt. lia.
Qed.

Lemma full_tab n v : full n v = vtab n (λ _, v).
Proof.
  unfold full, vtab. apply list_eq. intros i. rewrite list_lookup_fmap.
  destruct (decide (i < n)) as [Hi|Hi].
  - by rewrite lookup_replicate_2, lookup_seq_lt by done.
  - rewrite !lookup_ge_None_2; [done | rewrite length_seq; lia | rewrite length_replicate; lia].
Qed.

Lemma full2_tab r c v : full2 r c v = mtab r c (λ _ _, v).
Proof.
  unfold full2, mtab. rewrite full_tab. apply list_eq. intros i.
  rewrite list_lookup_fmap. destruct (decide (i < r)) as [Hi|Hi].
  - by rewrite lookup_replicate_2, lookup_seq_lt by done.
  - rewrite !lookup_ge_None_2; [done | rewrite length_seq; lia | rewrite length_replicate; lia].
Qed.

Lemma vtab_app a b f g :
  vtab a f ++ vtab b g = vtab (a + b) (λ j, if j <? a then f j else g (j - a)).
Proof.
  apply list_eq. intros j. destruct (decide (j < a)) as [Hj|Hj].
  - rewrite lookup_app_l by (rewrite vtab_length; lia).
    rewrite !vtab_lookup by lia. by destruct (Nat.ltb_spec j a); [| lia].
  - rewrite lookup_app_r by (rewrite vtab_length; lia). rewrite vtab_length.
    destruct (decide (j < a + b)) as [Hjb|Hjb].
    + rewrite !vtab_lookup by lia. by destruct (Nat.ltb_spec j a); [lia |].
    + rewrite !lookup_ge_None_2; [done | rewrite vtab_length; lia | rewrite vtab_length; lia].
Qed.

Lemma mtab_app a b c f g :
  mtab a c f ++ mtab b c g
  = mtab (a + b) c (λ i j, if i <? a then f i j else g (i - a) j).
Proof.
  apply list_eq. intros i. destruct (decide (i < a)) as [Hi|Hi].
  - rewrite lookup_app_l by (rewrite mtab_length; lia).
    rewrite !mtab_lookup by lia. by destruct (Nat.ltb_spec i a); [| lia].
  - rewrite lookup_app_r by (rewrite mtab_length; lia). rewrite mtab_length.
    destruct (decide (i < a + b)) as [Hib|Hib].
    + rewrite !mtab_lookup by lia. by destruct (Nat.ltb_spec i a); [lia |].
    + rewrite !lookup_ge_None_2; [done | rewrite mtab_length; lia | rewrite mtab_length; lia].
Qed.

Lemma fmap_mtab (h : vec → vec) r c c' f g :
  (∀ i, i < r → h (vtab c (f i)) = vtab c' (g i)) →
  h <$> mtab r c f = mtab r c' g.
Proof.
  intros Hh. unfold mtab. rewrite <- list_fmap_compose. apply list_fmap_ext.
  intros i x Hx. apply lookup_seq in Hx as [-> Hlt]. simpl. by apply Hh.
Qed.

Lemma ncols_mtab r c f : 0 < r → ncols (mtab r c f) = c.
Proof.
  intros Hr. destruct r as [|r]; [lia |]. unfold ncols. simpl. apply vtab_length.
Qed.

Lemma div_shift i r : 0 < r → r ≤ i → i / r = S ((i - r) / r).
Proof.
  intros Hr Hi. replace i with ((i - r) + 1 * r) at 1 by lia.
  rewrite Nat.div_add by lia. lia.
Qed.

Lemma b_diag_mask_tab r c n :
  bnaf.b_diag_mask (r, c) n = mtab (r * n) (c * n) (diag_fn r c).
Proof.
  unfold bnaf.b_diag_mask. simpl. induction n as [|n IH].
  - by rewrite Nat.mul_0_r.
  - simpl replicate. simpl block_diag. rewrite IH. clear IH.
    destruct (decide (r = 0)) as [->|Hr]; [done |].
    rewrite full2_tab, full_tab, full_tab.
    assert (ncols (mtab (r * n) (c * n) (diag_fn r c)) = c * n) as ->.
    { destruct n as [|n]; [by rewrite !Nat.mul_0_r |]. apply ncols_mtab. nia. }
    rewrite ncols_mtab by lia.
    rewrite (fmap_mtab _ r c (c + c * n) _
               (λ i j, if j <? c then Fin 1 else Fin 0))
      by (intros i _; apply vtab_app).
    rewrite (fmap_mtab _ (r * n) (c * n) (c + c * n) _
               (λ i j, if j <? c then Fin 0 else diag_fn r c i (j - c)))
      by (intros i _; apply vtab_app).
    rewrite mtab_app.
    replace (r * S n) with (r + r * n) by lia.
    replace (c * S n) with (c + c * n) by lia.
    apply mtab_ext. intros i j Hi Hj. unfold diag_fn.
    assert (0 < c) by nia.
    destruct (Nat.ltb_spec i r) as [Hir|Hir]; destruct (Nat.ltb_spec j c) as [Hjc|Hjc].
    + by rewrite !Nat.div_small by lia.
    + rewrite (Nat.div_small i r) by lia. rewrite (div_shift j c) by lia. done.
    + rewrite (Nat.div_small j c) by lia. rewrite (div_shift i r) by lia. done.
    + rewrite (div_shift j c), (div_shift i r) by lia. done.
Qed.

Lemma vsum_Fin (l : list R) : vsum (Fin <$> l) = Fin (rsum l).
Proof.
  unfold vsum. induction l as [|x l IH]; [done |].
  rewrite fmap_cons. simpl. by rewrite IH.
Qed.

Lemma vtab_Fin n (g : nat → R) : vtab n (λ i, Fin (g i)) = Fin <$> (g <$> seq 0 n).
Proof. unfold vtab. by rewrite <- list_fmap_compose. Qed.

Lemma rsum_nonneg (l : list R) : Forall (λ x, 0 <= x)%R l → (0 <= rsum l)%R.
Proof. induction 1; simpl; lra. Qed.

Lemma rsum_pos (l : list R) x :
  Forall (λ x, 0 <= x)%R l → x ∈ l → (0 < x)%R → (0 < rsum l)%R.
Proof.
  intros Hall Hin Hx. induction Hall as [|y l Hy Hl IH]; [by apply elem_of_nil in Hin |].
  simpl. apply elem_of_cons in Hin as [<-|Hin].
  - pose proof (rsum_nonneg l Hl). lra.
  - specialize (IH Hin). lra.
Qed.

Lemma is_finite_Fin x : is_finite x → ∃ r, x = Fin r.
Proof. destruct x; simpl; [eauto | done..]. Qed.

Lemma entry_finite (m : matrix) r c i j :
  has_shape m r c → Forall (Forall is_finite) m → i < r → j < c →
  ∃ x, entry m i j = Fin x.
Proof.
  intros [Hr Hc] Hfin Hi Hj. unfold entry.
  destruct (m !! i) as [row|] eqn:Hrow; [| apply lookup_ge_None in Hrow; lia].
  rewrite (list_lookup_total_correct _ _ _ Hrow).
  pose proof (Forall_lookup_1 _ _ _ _ Hc Hrow) as Hlen. simpl in Hlen.
  destruct (row !! j) as [x|] eqn:Hx; [| apply lookup_ge_None in Hx; lia].
  rewrite (list_lookup_total_correct _ _ _ Hx).
  apply is_finite_Fin.
  exact (Forall_lookup_1 _ _ _ _ (Forall_lookup_1 _ _ _ _ Hfin Hrow) Hx).
Qed.

Lemma get_normalised_weights_tab l :
  linear_wf l →
  bnaf.BlockAutoregressiveLinear.get_normalised_weights l
  = mtab ((bnaf.BlockAutoregressiveLinear.block_shape l).1 * bnaf.BlockAutoregressiveLinear.n_blocks l)
         ((bnaf.BlockAutoregressiveLinear.block_shape l).2 * bnaf.BlockAutoregressiveLinear.n_blocks l)
         (normalised_entry (bnaf.BlockAutoregressiveLinear.block_shape l).1
            (bnaf.BlockAutoregressiveLinear.block_shape l).2
            (bnaf.BlockAutoregressiveLinear.n_blocks l)
            (entry (bnaf.BlockAutoregressiveLinear.W l))
            (λ i, bnaf.BlockAutoregressiveLinear.W_log_scale l !!! i)).
Proof.
  intros Hwf.
  unfold bnaf.BlockAutoregressiveLinear.get_normalised_weights,
    bnaf.BlockAutoregressiveLinear.b_diag_mask, bnaf.BlockAutoregressiveLinear.b_tril_mask.
  cbv zeta. rewrite (wf_diag l Hwf), (wf_tril l Hwf).
  pose proof (wf_W l Hwf) as HW. pose proof (wf_W_log_scale l Hwf) as HS.
  destruct (bnaf.BlockAutoregressiveLinear.block_shape l) as [r c].
  simpl in *. rewrite b_diag_mask_tab, b_tril_mask_tab.
  apply mat_as_mtab in HW.
  set (w := entry (bnaf.BlockAutoregressiveLinear.W l)) in *.
  pose proof (vec_as_vtab (bnaf.BlockAutoregressiveLinear.W_log_scale l)) as HSt.
  rewrite HS in HSt.
  set (s := λ i, bnaf.BlockAutoregressiveLinear.W_log_scale l !!! i) in *.
  rewrite HW, HSt.
  rewrite mmap_mtab, !mzip_mtab, vmap_vtab, col_op_mtab, norm_last_mtab, col_op_mtab.
  done.
Qed.

Lemma masked_entry_Fin r c w i j x :
  w i j = Fin x →
  masked_entry r c w i j
  = Fin (exp x * (if i / r =? j / c then 1 else 0)
         + x * (if j / c <? i / r then 1 else 0))%R.
Proof.
  intros Hx. unfold masked_entry, diag_fn, tril_fn. rewrite Hx.
  by destruct (i / r =? j / c), (j / c <? i / r).
Qed.

Lemma row_norm_positive r c n w i :
  i < r * n → 0 < c →
  (∀ j, j < c * n → ∃ x, w i j = Fin x) →
  ∃ nrm, (0 < nrm)%R ∧
    ssqrt (vsum (vtab (c * n)
      (λ j', smul (masked_entry r c w i j') (masked_entry r c w i j')))) = Fin nrm.
Proof.
  intros Hi Hc Hfin.
  set (μ := λ j', real_of (masked_entry r c w i j')).
  rewrite (vtab_ext _ _ (λ j', Fin (μ j' * μ j')%R)); last first.
  { intros j' Hj'. destruct (Hfin j' Hj') as [x Hx]. unfold μ.
    by rewrite (masked_entry_Fin _ _ _ _ _ _ Hx). }
  rewrite vtab_Fin, vsum_Fin.
  assert (0 < r) as Hr by nia.
  assert (i / r < n) as Hq by (apply Nat.Div0.div_lt_upper_bound; lia).
  assert (i / r * c < c * n) as Hj0 by nia.
  assert (0 < rsum ((λ j', μ j' * μ j') <$> seq 0 (c * n)))%R as Hpos.
  { apply (rsum_pos _ (μ (i / r * c)%nat * μ (i / r * c)%nat)%R).
    - apply Forall_fmap, Forall_forall. intros j' _. simpl. nra.
    - apply list_elem_of_fmap. exists (i / r * c). split; [done |].
      apply elem_of_seq. lia.
    - destruct (Hfin _ Hj0) as [x Hx]. unfold μ.
      rewrite (masked_entry_Fin _ _ _ _ _ _ Hx). simpl.
      rewrite Nat.div_mul by lia. rewrite Nat.eqb_refl, Nat.ltb_irrefl.
      pose proof (exp_pos x). nra. }
  eexists. split; [| simpl; by rewrite (Rsign_pos _ Hpos)].
  by apply sqrt_lt_R0.
Qed.

(** In exact arithmetic: for a layer as [__init__] shapes it, with finite
    raw weights and log-scales, the matrix returned by
    [get_normalised_weights] is exactly zero at every entry that is
    neither in a diagonal block (block-row equal to block-column) nor in a
    strictly-lower block (block-row greater than block-column). *)
Lemma normalised_weights_masked (l : bnaf.BlockAutoregressiveLinear.t) (i j : nat) :
  linear_wf l →
  Forall (Forall is_finite) (bnaf.BlockAutoregressiveLinear.W l) →
  Forall is_finite (bnaf.BlockAutoregressiveLinear.W_log_scale l) →
  i < (bnaf.BlockAutoregressiveLinear.block_shape l).1 * bnaf.BlockAutoregressiveLinear.n_blocks l →
  j < (bnaf.BlockAutoregressiveLinear.block_shape l).2 * bnaf.BlockAutoregressiveLinear.n_blocks l →
  i / (bnaf.BlockAutoregressiveLinear.block_shape l).1
    ≠ j / (bnaf.BlockAutoregressiveLinear.block_shape l).2 →
  ¬ (j / (bnaf.BlockAutoregressiveLinear.block_shape l).2
       < i / (bnaf.BlockAutoregressiveLinear.block_shape l).1) →
  bnaf.BlockAutoregressiveLinear.get_normalised_weights l !! i ≫= (.!! j) = Some (Fin 0).
Proof.
  intros Hwf HWfin HSfin Hi Hj Hdiag Htril.
  rewrite (get_normalised_weights_tab l Hwf).
  pose proof (wf_W l Hwf) as HW. pose proof (wf_W_log_scale l Hwf) as HS.
  destruct (bnaf.BlockAutoregressiveLinear.block_shape l) as [r c]. simpl in *.
  rewrite mtab_lookup by done. simpl. rewrite vtab_lookup by done. f_equal.
  unfold normalised_entry.
  assert (0 < c) as Hc by nia.
  destruct (row_norm_positive r c (bnaf.BlockAutoregressiveLinear.n_blocks l)
              (entry (bnaf.BlockAutoregressiveLinear.W l)) i Hi Hc) as (nrm & Hnrm & ->).
  { intros j' Hj'. by apply (entry_finite _ _ _ _ _ HW). }
  destruct (entry_finite _ _ _ i j HW HWfin Hi Hj) as [x Hx].
  rewrite (masked_entry_Fin _ _ _ _ _ _ Hx).
  destruct (Nat.eqb_spec (i / r) (j / c)); [done |].
  destruct (Nat.ltb_spec (j / c) (i / r)); [done |].
  destruct (bnaf.BlockAutoregressiveLinear.W_log_scale l !! i) as [s|] eqn:Hs;
    [| apply lookup_ge_None in Hs; lia].
  rewrite (list_lookup_total_correct _ _ _ Hs).
  destruct (is_finite_Fin s (Forall_lookup_1 _ _ _ _ HSfin Hs)) as [sv ->].
  simpl. rewrite (Rsign_pos _ Hnrm). f_equal. unfold Rdiv. ring.
Qed.

Lemma two_block_layer_wf : linear_wf two_block_layer.
Proof.
  split; try reflexivity.
  split; [reflexivity | by repeat constructor].
Qed.

(** ** [get_normalised_weights] in rounded arithmetic *)

Lemma rnd_zero `{Rounding} (r : R) : r = 0%R → rnd r = Fin 0.
Proof. intros ->. apply rnd_0. Qed.

Lemma isnan_rounded `{Rounding} (x : scalar) : isnan (rounded x) = isnan x.
Proof. destruct x; simpl; [apply rnd_not_nan | done..]. Qed.

Lemma fmul_zero_r `{Rounding} (x : scalar) :
  is_finite x → floating.fmul x (Fin 0) = Fin 0.
Proof.
  destruct x as [r| | |]; [| done..]. intros _.
  unfold floating.fmul. simpl. apply rnd_zero. lra.
Qed.

Lemma fadd_zero_zero `{Rounding} : floating.fadd (Fin 0) (Fin 0) = Fin 0.
Proof. unfold floating.fadd. simpl. apply rnd_zero. lra. Qed.

Lemma fdiv_zero_l `{Rounding} (x : scalar) :
  nonzero x = true → isnan x = false → floating.fdiv (Fin 0) x = Fin 0.
Proof.
  destruct x as [r| | |]; simpl; intros Hnz Hnan; try done.
  - unfold floating.fdiv. simpl. destruct (Rsign r); [| done |];
      simpl; apply rnd_zero; unfold Rdiv; lra.
  - unfold floating.fdiv. simpl. apply rnd_0.
  - unfold floating.fdiv. simpl. apply rnd_0.
Qed.

Lemma floating_norm_last_length `{Rounding} (w : matrix) :
  length (floating.norm_last w) = length w.
Proof. unfold floating.norm_last. apply length_fmap. Qed.

Lemma floating_norm_last_mtab `{Rounding} r c g :
  floating.norm_last (mtab r c g)
  = vtab r (λ i, floating.fsqrt
                   (foldr floating.fadd (Fin 0)
                      (vtab c (λ j, floating.fmul (g i j) (g i j))))).
Proof.
  unfold floating.norm_last, mtab, vtab at 2. rewrite <- list_fmap_compose.
  apply list_fmap_ext. intros i x _. simpl. by rewrite vmap_vtab.
Qed.

Lemma floating_masked_tab `{Rounding} (l : bnaf.BlockAutoregressiveLinear.t) :
  linear_wf l →
  mzip floating.fadd
    (mzip floating.fmul (mmap floating.fexp (bnaf.BlockAutoregressiveLinear.W l))
                        (bnaf.BlockAutoregressiveLinear.b_diag_mask l))
    (mzip floating.fmul (bnaf.BlockAutoregressiveLinear.W l)
                        (bnaf.BlockAutoregressiveLinear.b_tril_mask l))
  = mtab ((bnaf.BlockAutoregressiveLinear.block_shape l).1
            * bnaf.BlockAutoregressiveLinear.n_blocks l)
         ((bnaf.BlockAutoregressiveLinear.block_shape l).2
            * bnaf.BlockAutoregressiveLinear.n_blocks l)
         (rounded_masked_entry (bnaf.BlockAutoregressiveLinear.block_shape l).1
            (bnaf.BlockAutoregressiveLinear.block_shape l).2
            (entry (bnaf.BlockAutoregressiveLinear.W l))).
Proof.
  intros Hwf.
  unfold bnaf.BlockAutoregressiveLinear.b_diag_mask,
    bnaf.BlockAutoregressiveLinear.b_tril_mask.
  rewrite (wf_diag l Hwf), (wf_tril l Hwf).
  pose proof (wf_W l Hwf) as HW.
  destruct (bnaf.BlockAutoregressiveLinear.block_shape l) as [r c].
  simpl in *. rewrite b_diag_mask_tab, b_tril_mask_tab.
  apply mat_as_mtab in HW.
  set (w := entry (bnaf.BlockAutoregressiveLinear.W l)) in *.
  rewrite HW. by rewrite mmap_mtab, !mzip_mtab.
Qed.

Lemma floating_W_norms_tab `{Rounding} (l : bnaf.BlockAutoregressiveLinear.t) :
  linear_wf l →
  floating.BlockAutoregressiveLinear.W_norms l
  = vtab ((bnaf.BlockAutoregressiveLinear.block_shape l).1
            * bnaf.BlockAutoregressiveLinear.n_blocks l)
      (λ i, floating.fsqrt
              (foldr floating.fadd (Fin 0)
                 (vtab ((bnaf.BlockAutoregressiveLinear.block_shape l).2
                          * bnaf.BlockAutoregressiveLinear.n_blocks l)
                    (λ j, floating.fmul
                            (rounded_masked_entry
                               (bnaf.BlockAutoregressiveLinear.block_shape l).1
                               (bnaf.BlockAutoregressiveLinear.block_shape l).2
                               (entry (bnaf.BlockAutoregressiveLinear.W l)) i j)
                            (rounded_masked_entry
                               (bnaf.BlockAutoregressiveLinear.block_shape l).1
                               (bnaf.BlockAutoregressiveLinear.block_shape l).2
                               (entry (bnaf.BlockAutoregressiveLinear.W l)) i j))))).
Proof.
  intros Hwf. unfold floating.BlockAutoregressiveLinear.W_norms. cbv zeta.
  by rewrite (floating_masked_tab l Hwf), floating_norm_last_mtab.
Qed.

Lemma floating_get_normalised_weights_tab `{Rounding}
    (l : bnaf.BlockAutoregressiveLinear.t) :
  linear_wf l →
  floating.BlockAutoregressiveLinear.get_normalised_weights l
  = mtab ((bnaf.BlockAutoregressiveLinear.block_shape l).1
            * bnaf.BlockAutoregressiveLinear.n_blocks l)
         ((bnaf.BlockAutoregressiveLinear.block_shape l).2
            * bnaf.BlockAutoregressiveLinear.n_blocks l)
         (λ i j,
            floating.fdiv
              (floating.fmul
                 (floating.fexp (bnaf.BlockAutoregressiveLinear.W_log_scale l !!! i))
                 (rounded_masked_entry (bnaf.BlockAutoregressiveLinear.block_shape l).1
                    (bnaf.BlockAutoregressiveLinear.block_shape l).2
                    (entry (bnaf.BlockAutoregressiveLinear.W l)) i j))
              (floating.BlockAutoregressiveLinear.W_norms l !!! i)).
Proof.
  intros Hwf.
  change (floating.BlockAutoregressiveLinear.get_normalised_weights l)
    with (col_op floating.fdiv
            (col_op (λ w s, floating.fmul s w)
               (mzip floating.fadd
                  (mzip floating.fmul
                     (mmap floating.fexp (bnaf.BlockAutoregressiveLinear.W l))
                     (bnaf.BlockAutoregressiveLinear.b_diag_mask l))
                  (mzip floating.fmul (bnaf.BlockAutoregressiveLinear.W l)
                     (bnaf.BlockAutoregressiveLinear.b_tril_mask l)))
               (vmap floating.fexp (bnaf.BlockAutoregressiveLinear.W_log_scale l)))
            (floating.BlockAutoregressiveLinear.W_norms l)).
  rewrite (floating_masked_tab l Hwf).
  assert (length (floating.BlockAutoregressiveLinear.W_norms l)
          = (bnaf.BlockAutoregressiveLinear.block_shape l).1
              * bnaf.BlockAutoregressiveLinear.n_blocks l) as Hlen.
  { by rewrite (floating_W_norms_tab l Hwf), vtab_length. }
  pose proof (vec_as_vtab (floating.BlockAutoregressiveLinear.W_norms l)) as Hn.
  rewrite Hlen in Hn.
  pose proof (vec_as_vtab (bnaf.BlockAutoregressiveLinear.W_log_scale l)) as HS.
  rewrite (wf_W_log_scale l Hwf) in HS.
  rewrite Hn at 1. rewrite HS at 1.
  by rewrite vmap_vtab, !col_op_mtab.
Qed.

(** C4.  In floating-point arithmetic of any format, for a layer as
    [__init__] shapes it, the matrix returned by [get_normalised_weights]
    is exactly zero at an entry that is neither in a diagonal block nor in
    a strictly-lower block whenever the raw weight there is finite, the
    exponential of that weight and the exponential of the row's
    [W_log_scale] are finite (they have not overflowed), and the computed
    norm of the row is neither zero nor not-a-number.  The matrix is a
    function of the layer alone: a forward pass changes nothing in the
    layer, whatever its input. *)
Theorem normalised_weights_masked_rounded `{Rounding}
    (l : bnaf.BlockAutoregressiveLinear.t) (i j : nat) :
  linear_wf l →
  i < (bnaf.BlockAutoregressiveLinear.block_shape l).1 * bnaf.BlockAutoregressiveLinear.n_blocks l →
  j < (bnaf.BlockAutoregressiveLinear.block_shape l).2 * bnaf.BlockAutoregressiveLinear.n_blocks l →
  i / (bnaf.BlockAutoregressiveLinear.block_shape l).1
    ≠ j / (bnaf.BlockAutoregressiveLinear.block_shape l).2 →
  ¬ (j / (bnaf.BlockAutoregressiveLinear.block_shape l).2
       < i / (bnaf.BlockAutoregressiveLinear.block_shape l).1) →
  is_finite (entry (bnaf.BlockAutoregressiveLinear.W l) i j) →
  is_finite (floating.fexp (entry (bnaf.BlockAutoregressiveLinear.W l) i j)) →
  is_finite (floating.fexp (bnaf.BlockAutoregressiveLinear.W_log_scale l !!! i)) →
  nonzero (floating.BlockAutoregressiveLinear.W_norms l !!! i) = true →
  isnan (floating.BlockAutoregressiveLinear.W_norms l !!! i) = false →
  floating.BlockAutoregressiveLinear.get_normalised_weights l !! i ≫= (.!! j)
  = Some (Fin 0).
Proof.
  intros Hwf Hi Hj Hdiag Htril Hw Hexp Hscale Hnz Hnan.
  rewrite (floating_get_normalised_weights_tab l Hwf).
  rewrite mtab_lookup by done. simpl. rewrite vtab_lookup by done. f_equal.
  unfold rounded_masked_entry, diag_fn, tril_fn.
  destruct (Nat.eqb_spec (i / (bnaf.BlockAutoregressiveLinear.block_shape l).1)
              (j / (bnaf.BlockAutoregressiveLinear.block_shape l).2)); [done |].
  destruct (Nat.ltb_spec (j / (bnaf.BlockAutoregressiveLinear.block_shape l).2)
              (i / (bnaf.BlockAutoregressiveLinear.block_shape l).1)); [done |].
  rewrite !fmul_zero_r by done. rewrite fadd_zero_zero.
  rewrite fmul_zero_r by done. by apply fdiv_zero_l.
Qed.

(** With unbounded precision the rounded computation is the exact one. *)
Lemma rounded_exact (x : scalar) : rounded (H := exact_rounding) x = x.
Proof. by destruct x. Qed.

Lemma exact_rounding_get_normalised_weights (l : bnaf.BlockAutoregressiveLinear.t) :
  floating.BlockAutoregressiveLinear.get_normalised_weights (H := exact_rounding) l
  = bnaf.BlockAutoregressiveLinear.get_normalised_weights l.
Proof.
  assert (floating.fadd (H := exact_rounding) = sadd) as Hadd
    by (extensionality x; extensionality y; apply rounded_exact).
  assert (floating.fmul (H := exact_rounding) = smul) as Hmul
    by (extensionality x; extensionality y; apply rounded_exact).
  assert (floating.fdiv (H := exact_rounding) = sdiv) as Hdiv
    by (extensionality x; extensionality y; apply rounded_exact).
  assert (floating.fexp (H := exact_rounding) = sexp) as Hexp
    by (extensionality x; apply rounded_exact).
  assert (floating.fsqrt (H := exact_rounding) = ssqrt) as Hsqrt
    by (extensionality x; apply rounded_exact).
  unfold floating.BlockAutoregressiveLinear.get_normalised_weights,
    bnaf.BlockAutoregressiveLinear.get_normalised_weights, floating.norm_last, norm_last.
  by rewrite Hadd, Hmul, Hdiv, Hexp, Hsqrt.
Qed.

Lemma fmul_zero_l `{Rounding} (x : scalar) :
  is_finite x → floating.fmul (Fin 0) x = Fin 0.
Proof.
  destruct x as [r| | |]; [| done..]. intros _.
  unfold floating.fmul. simpl. apply rnd_zero. lra.
Qed.

(** ** The binary32 range *)

Lemma binary32_range_keep (r v : R) :
  r = v → (/ 2 ^ 150 <= Rabs v)%R → (Rabs v < 2 ^ 128)%R →
  rnd (Rounding := binary32_range) r = Fin v.
Proof.
  intros -> Hlo Hhi. simpl. unfold binary32_range_rnd.
  destruct (Rlt_dec (Rabs v) (/ 2 ^ 150)); [lra |].
  by destruct (Rlt_dec (Rabs v) (2 ^ 128)).
Qed.

Lemma binary32_range_underflow (r : R) :
  (Rabs r < / 2 ^ 150)%R → rnd (Rounding := binary32_range) r = Fin 0.
Proof.
  intros Hr. simpl. unfold binary32_range_rnd.
  by destruct (Rlt_dec (Rabs r) (/ 2 ^ 150)).
Qed.

Lemma one_in_binary32_range : (/ 2 ^ 150 <= Rabs 1)%R ∧ (Rabs 1 < 2 ^ 128)%R.
Proof.
  rewrite Rabs_R1. split.
  - pose proof (Rinv_le_contravar 1 (2 ^ 150) ltac:(lra)
                  (pow_R1_Rle 2 150 ltac:(lra))) as Hle.
    by rewrite Rinv_1 in Hle.
  - apply (Rlt_le_trans _ (2 ^ 1)); [lra |]. apply Rle_pow; [lra | lia].
Qed.

Lemma binary32_range_one (r : R) : r = 1%R → rnd (Rounding := binary32_range) r = Fin 1.
Proof.
  intros Hr. apply binary32_range_keep; [done | apply one_in_binary32_range..].
Qed.

Lemma pow_2_le_exp (n : nat) : (2 ^ n <= exp (INR n))%R.
Proof.
  induction n as [|n IH]; [simpl; rewrite exp_0; lra |].
  rewrite S_INR, exp_plus. simpl.
  pose proof (exp_ineq1 1 ltac:(lra)) as H1.
  pose proof (pow_lt 2 n ltac:(lra)) as Hpos.
  nra.
Qed.

Lemma exp_le_pow_3 (n : nat) : (exp (INR n) <= 3 ^ n)%R.
Proof.
  induction n as [|n IH]; [simpl; rewrite exp_0; lra |].
  rewrite S_INR, exp_plus. simpl. pose proof exp_le_3.
  pose proof (exp_pos (INR n)). pose proof (exp_pos 1). nra.
Qed.

Lemma exp_minus_200_underflows : (Rabs (exp (- 200)) < / 2 ^ 150)%R.
Proof.
  rewrite Rabs_pos_eq by (left; apply exp_pos).
  replace (-200)%R with (Ropp 200) by lra.
  rewrite exp_Ropp. apply Rinv_lt_contravar.
  - apply Rmult_lt_0_compat; [apply pow_lt; lra | apply exp_pos].
  - apply (Rlt_le_trans _ (2 ^ 200)).
    + apply Rlt_pow; [lra | lia].
    + replace 200%R with (INR 200) by (rewrite INR_IZR_INZ; done).
      apply pow_2_le_exp.
Qed.

Lemma underflowing_layer_wf : linear_wf underflowing_layer.
Proof.
  split; try reflexivity.
  split; [reflexivity | by repeat constructor].
Qed.

(** C4, as stated, fails in floating point: every parameter of the layer
    is finite, [exp(-200)] underflows to zero in the binary32 range, the
    norm of the first row is zero, and the entry above the diagonal blocks
    is [0 / 0], not-a-number. *)
Lemma normalised_weights_underflow :
  Forall (Forall is_finite) (bnaf.BlockAutoregressiveLinear.W underflowing_layer)
  ∧ Forall is_finite (bnaf.BlockAutoregressiveLinear.W_log_scale underflowing_layer)
  ∧ floating.BlockAutoregressiveLinear.get_normalised_weights
      (H := binary32_range) underflowing_layer !! 0 ≫= (.!! 1)
    = Some NaN.
Proof.
  split; [by repeat constructor |]. split; [by repeat constructor |].
  rewrite (floating_get_normalised_weights_tab underflowing_layer underflowing_layer_wf).
  rewrite (floating_W_norms_tab underflowing_layer underflowing_layer_wf).
  cbn -[floating.fdiv floating.fmul floating.fexp floating.fadd floating.fsqrt
        rounded_masked_entry].
  unfold rounded_masked_entry, diag_fn, tril_fn.
  cbn -[floating.fdiv floating.fmul floating.fexp floating.fadd floating.fsqrt].
  assert (floating.fexp (H := binary32_range) (Fin (-200)) = Fin 0) as ->.
  { apply binary32_range_underflow, exp_minus_200_underflows. }
  assert (floating.fexp (H := binary32_range) (Fin 0) = Fin 1) as ->.
  { apply binary32_range_one, exp_0. }
  rewrite !fmul_zero_r by done. rewrite !fadd_zero_zero.
  rewrite !fmul_zero_r by done. rewrite !fadd_zero_zero.
  rewrite (fmul_zero_l (Fin 1)) by done. rewrite fadd_zero_zero.
  rewrite fmul_zero_r by done. rewrite fadd_zero_zero.
  assert (floating.fsqrt (H := binary32_range) (Fin 0) = Fin 0) as ->.
  { unfold floating.fsqrt. simpl ssqrt. rewrite Rsign_zero. simpl.
    apply (rnd_zero (H := binary32_range)). apply sqrt_0. }
  unfold floating.fdiv. simpl. by rewrite Rsign_zero.
Qed.

Lemma exp_5_in_binary32_range :
  floating.fexp (H := binary32_range) (Fin 5) = Fin (exp 5).
Proof.
  apply binary32_range_keep; [done | |].
  - pose proof (exp_ineq1 5 ltac:(lra)).
    rewrite Rabs_pos_eq by lra.
    apply (Rle_trans _ 1); [| lra]. pose proof one_in_binary32_range as [H1 _].
    by rewrite Rabs_R1 in H1.
  - rewrite Rabs_pos_eq by (left; apply exp_pos).
    replace 5%R with (INR 5) by (simpl; lra).
    apply (Rle_lt_trans _ (3 ^ 5)); [apply exp_le_pow_3 |].
    apply (Rlt_le_trans _ (2 ^ 8)); [lra |]. apply Rle_pow; [lra | lia].
Qed.

Lemma two_block_layer_norm :
  floating.BlockAutoregressiveLinear.W_norms (H := binary32_range) two_block_layer !!! 0
  = Fin 1.
Proof.
  rewrite (floating_W_norms_tab two_block_layer two_block_layer_wf).
  cbn -[floating.fdiv floating.fmul floating.fexp floating.fadd floating.fsqrt
        rounded_masked_entry].
  unfold rounded_masked_entry, diag_fn, tril_fn.
  cbn -[floating.fdiv floating.fmul floating.fexp floating.fadd floating.fsqrt].
  rewrite exp_5_in_binary32_range.
  assert (floating.fexp (H := binary32_range) (Fin 0) = Fin 1) as ->.
  { apply binary32_range_one, exp_0. }
  rewrite !fmul_zero_r by done. rewrite !fadd_zero_zero.
  rewrite !fmul_zero_r by done. rewrite !fadd_zero_zero.
  assert (floating.fmul (H := binary32_range) (Fin 1) (Fin 1) = Fin 1) as Hmul.
  { apply binary32_range_one. lra. }
  assert (floating.fadd (H := binary32_range) (Fin 1) (Fin 0) = Fin 1) as Hadd.
  { apply binary32_range_one. lra. }
  rewrite !Hmul, !Hadd, !Hmul, !Hadd.
  unfold floating.fsqrt. simpl ssqrt. rewrite (Rsign_pos 1) by lra. simpl.
  apply binary32_range_one, sqrt_1.
Qed.

Lemma normalised_weights_masked_rounded_witness :
  floating.BlockAutoregressiveLinear.get_normalised_weights
    (H := binary32_range) two_block_layer !! 0 ≫= (.!! 1)
  = Some (Fin 0).
Proof.
  apply (normalised_weights_masked_rounded (H := binary32_range) two_block_layer 0 1).
  - exact two_block_layer_wf.
  - simpl; lia.
  - simpl; lia.
  - simpl; lia.
  - simpl; lia.
  - exact I.
  - change (entry (bnaf.BlockAutoregressiveLinear.W two_block_layer) 0 1) with (Fin 5).
    by rewrite exp_5_in_binary32_range.
  - change (bnaf.BlockAutoregressiveLinear.W_log_scale two_block_layer !!! 0) with (Fin 0).
    change (is_finite (rnd (Rounding := binary32_range) (exp 0))).
    by rewrite (binary32_range_one _ exp_0).
  - rewrite two_block_layer_norm. simpl. by rewrite (Rsign_pos 1) by lra.
  - by rewrite two_block_layer_norm.
Defined.

(** ** The activation *)

Lemma ttab_length n r c f : length (ttab n r c f) = n.
Proof. unfold ttab. by rewrite length_fmap, length_seq. Qed.

Lemma vtab_split a b f :
  vtab (a + b) f = vtab a f ++ vtab b (λ j, f (a + j)).
Proof.
  rewrite vtab_app. apply vtab_ext. intros j Hj.
  destruct (Nat.ltb_spec j a); [done |]. f_equal. lia.
Qed.

Lemma chunks_vtab n d f :
  chunks n d (vtab (n * d) f) = (λ b, vtab d (λ k, f (b * d + k))) <$> seq 0 n.
Proof.
  revert f. induction n as [|n IH]; intros f; [done |].
  simpl chunks. replace (S n * d) with (d + n * d) by lia.
  rewrite vtab_split.
  rewrite take_app_length' by (by rewrite vtab_length).
  rewrite drop_app_length' by (by rewrite vtab_length).
  rewrite IH. simpl. f_equal.
  rewrite <- fmap_S_seq, <- list_fmap_compose. apply list_fmap_ext.
  intros i b _. simpl. apply vtab_ext. intros k _. f_equal. lia.
Qed.

Lemma full3_tab n r c v : full3 n r c v = ttab n r c (λ _ _ _, v).
Proof.
  unfold full3, ttab. rewrite full2_tab. apply list_eq. intros i.
  rewrite list_lookup_fmap. destruct (decide (i < n)) as [Hi|Hi].
  - by rewrite lookup_replicate_2, lookup_seq_lt by done.
  - rewrite !lookup_ge_None_2; [done | rewrite length_seq; lia | rewrite length_replicate; lia].
Qed.

Lemma insert_vtab n f k v :
  <[k := v]> (vtab n f) = vtab n (λ l, if k =? l then v else f l).
Proof.
  apply list_eq. intros l. destruct (decide (l < n)) as [Hl|Hl].
  - rewrite vtab_lookup by done. destruct (Nat.eqb_spec k l) as [->|Hkl].
    + apply list_lookup_insert_eq. by rewrite vtab_length.
    + rewrite list_lookup_insert_ne by done. by apply vtab_lookup.
  - rewrite !lookup_ge_None_2; [done | rewrite vtab_length; lia |
      rewrite length_insert, vtab_length; lia].
Qed.

Lemma set_diagonals_tab n d f g :
  bnaf._TanhBNAF.set_diagonals (ttab n d d f)
    ((λ b, vtab d (g b)) <$> seq 0 n)
  = ttab n d d (λ b k l, if k =? l then g b k else f b k l).
Proof.
  unfold bnaf._TanhBNAF.set_diagonals, ttab.
  rewrite zip_with_fmap_l, zip_with_fmap_r, zip_with_diag.
  apply list_fmap_ext. intros i b _. simpl.
  unfold mtab. apply list_eq. intros k.
  rewrite list_lookup_imap, !list_lookup_fmap.
  destruct (decide (k < d)) as [Hk|Hk].
  - rewrite lookup_seq_lt by done. simpl. f_equal.
    rewrite vtab_lookup by done. apply insert_vtab.
  - rewrite (lookup_ge_None_2 (seq 0 d)); [done | rewrite length_seq; lia].
Qed.

Lemma Rsign_two : Rsign 2 = Pos.
Proof. apply Rsign_pos. lra. Qed.

Lemma nth_lookup_R (xs : list R) i x : xs !! i = Some x → nth i xs 0%R = x.
Proof. intros Hx. by apply nth_lookup_Some. Qed.

Lemma fmap_as_vtab (h : R → scalar) (xs : list R) :
  h <$> xs = vtab (length xs) (λ i, h (nth i xs 0%R)).
Proof.
  apply list_eq. intros i. rewrite list_lookup_fmap.
  destruct (xs !! i) as [x|] eqn:Hx.
  - rewrite vtab_lookup by (by apply lookup_lt_Some in Hx). simpl.
    by rewrite (nth_lookup_R _ _ _ Hx).
  - simpl. apply lookup_ge_None in Hx. symmetry. apply lookup_ge_None.
    by rewrite vtab_length.
Qed.

Local Open Scope R_scope.

Lemma log_det_tanh x :
  -2 * (x + ln (1 + exp (-2 * x)) - ln 2) = ln (1 - tanh x * tanh x).
Proof.
  pose proof (exp_pos x) as Ha.
  assert (exp (- x) = / exp x) as Hinv by apply exp_Ropp.
  assert (exp (-2 * x) = / exp x * / exp x) as He2.
  { replace (-2 * x) with (- x + - x) by lra. by rewrite exp_plus, Hinv. }
  set (a := exp x) in *.
  assert (0 < / a) as Hia by (by apply Rinv_0_lt_compat).
  assert (0 < 1 + / a * / a) as Hs by nra.
  assert (0 < a * (1 + / a * / a)) as Hp by nra.
  assert (1 - tanh x * tanh x
          = (2 * / (a * (1 + / a * / a))) * (2 * / (a * (1 + / a * / a)))) as ->.
  { unfold tanh, sinh, cosh. rewrite Hinv. fold a. field. split; apply Rgt_not_eq; nra. }
  assert (0 < 2 * / (a * (1 + / a * / a))) as Hq.
  { apply Rmult_lt_0_compat; [lra |]. by apply Rinv_0_lt_compat. }
  rewrite ln_mult by done.
  rewrite (ln_mult 2) by (lra || by apply Rinv_0_lt_compat).
  rewrite ln_Rinv by done. rewrite ln_mult by done.
  rewrite He2. assert (ln a = x) as -> by apply ln_exp. lra.
Qed.
Local Close Scope R_scope.

Lemma floordiv_mul n d : 0 < n → floordiv (n * d) n = Ok d.
Proof.
  intros Hn. unfold floordiv. destruct n as [|n]; [lia |].
  f_equal. rewrite Nat.mul_comm. apply Nat.div_mul. lia.
Qed.

Lemma log_det_val x :
  smul (Fin (-2)) (ssub (sadd (Fin x) (softplus (smul (Fin (-2)) (Fin x)))) (slog (Fin 2)))
  = Fin (ln (1 - tanh x * tanh x)).
Proof.
  simpl. rewrite Rsign_two. simpl. f_equal. rewrite <- log_det_tanh. lra.
Qed.

(** C6.  For [n_blocks > 0] and a vector of [n_blocks * d] reals, the
    activation returns the elementwise [tanh] together with a tensor of
    shape [(n_blocks, d, d)] that is minus infinity off the diagonals and
    whose diagonal entry [k] of block [b] is [log (1 - tanh(x)^2)] at the
    coordinate [x = x_(b * d + k)]; the code's value
    [-2 * (x + softplus(-2 * x) - log 2)] is that logarithm. *)
Theorem tanh_bnaf_call (n d : nat) (xs : list R) (condition : option vec) :
  0 < n → length xs = n * d →
  bnaf._TanhBNAF.__call__ (bnaf._TanhBNAF.__init__ n) (Fin <$> xs) condition
  = Ok (Fin <$> (tanh <$> xs),
        ttab n d d (λ b k l,
          if k =? l
          then Fin (ln (1 - tanh (nth (b * d + k) xs 0) * tanh (nth (b * d + k) xs 0)))%R
          else NInf)).
Proof.
  intros Hn Hlen. unfold bnaf._TanhBNAF.__call__, bnaf._TanhBNAF.__init__.
  cbn [bnaf._TanhBNAF.n_blocks].
  rewrite length_fmap, Hlen, floordiv_mul by done. cbn [mbind result_bind].
  assert (vmap stanh (Fin <$> xs) = Fin <$> (tanh <$> xs)) as ->.
  { unfold vmap. by rewrite <- !list_fmap_compose. }
  match goal with
  | |- context [reshape2 n d (vmap ?g _)] =>
      assert (vmap g (Fin <$> xs)
              = vtab (n * d) (λ i, Fin (ln (1 - tanh (nth i xs 0) * tanh (nth i xs 0)))%R))
        as ->
  end.
  { unfold vmap. rewrite <- list_fmap_compose.
    rewrite (list_fmap_ext _ (λ x, Fin (ln (1 - tanh x * tanh x))) xs)
      by (intros; apply log_det_val).
    by rewrite (fmap_as_vtab _ xs), Hlen. }
  unfold reshape2. rewrite vtab_length, Nat.eqb_refl. cbn [mbind result_bind].
  by rewrite chunks_vtab, full3_tab, set_diagonals_tab.
Qed.

Lemma tanh_bnaf_call_witness :
  bnaf._TanhBNAF.__call__ (bnaf._TanhBNAF.__init__ 2) (Fin <$> [0; 1]%R) None
  = Ok (Fin <$> (tanh <$> [0; 1]%R),
        ttab 2 1 1 (λ b k l,
          if k =? l
          then Fin (ln (1 - tanh (nth (b * 1 + k) [0; 1]%R 0)
                           * tanh (nth (b * 1 + k) [0; 1]%R 0)))%R
          else NInf)).
Proof. apply (tanh_bnaf_call 2 1 [0; 1]%R None); [lia | reflexivity]. Defined.

(** ** The log-domain matrix product *)




Lemma mapM_vtab {A} (f : A → result scalar) (g : nat → A) n (h : nat → scalar) :
  (∀ i, i < n → f (g i) = Ok (h i)) →
  mapM f (g <$> seq 0 n) = Ok (vtab n h).
Proof.
  intros Hf. apply mapM_Ok. unfold vtab.
  apply Forall2_fmap, Forall2_same_length_lookup. split; [done |].
  intros i a b Ha Hb. apply lookup_seq in Ha as [-> Hi].
  apply lookup_seq in Hb as [-> _]. by apply Hf.
Qed.


Lemma col_mtab k m g j : j < m → col j (mtab k m g) = vtab k (λ l, g l j).
Proof.
  intros Hj. unfold col, mtab, vtab at 2. rewrite <- list_fmap_compose.
  apply list_fmap_ext. intros i l _. simpl.
  by rewrite (list_lookup_total_correct _ _ _ (vtab_lookup m (g l) j Hj)).
Qed.

Lemma mtab_nonempty k m g : 0 < k → mtab k m g ≠ [].
Proof. intros Hk. destruct k; [lia | done]. Qed.


Lemma row_op_mtab f r c g h :
  row_op f (mtab r c g) (vtab c h) = mtab r c (λ i j, f (g i j) (h j)).
Proof.
  unfold row_op, mtab. rewrite <- list_fmap_compose. apply list_fmap_ext.
  intros i x _. simpl. apply vzip_vtab.
Qed.

Lemma matmul_mtab n k m f g :
  0 < k →
  matmul (mtab n k f) (mtab k m g)
  = Ok (mtab n m (λ i j, dot (vtab k (f i)) (vtab k (λ l, g l j)))).
Proof.
  intros Hk. unfold matmul.
  assert (forallb (λ row, length row =? nrows (mtab k m g)) (mtab n k f) = true) as ->.
  { apply forallb_forall. intros row Hrow. apply list_elem_of_In in Hrow.
    unfold mtab in Hrow. apply list_elem_of_fmap in Hrow as (i & -> & _).
    unfold nrows. rewrite vtab_length, mtab_length. apply Nat.eqb_refl. }
  rewrite ncols_mtab by done. f_equal.
  apply fmap_mtab. intros i _. unfold vtab at 3. apply list_fmap_ext.
  intros j' j Hj. apply lookup_seq in Hj as [-> Hj]. simpl.
  by rewrite col_mtab.
Qed.


Lemma rsum_cons x l : rsum (x :: l) = (x + rsum l)%R.
Proof. done. Qed.

Lemma rsum_scale c (f : nat → R) (l : list nat) :
  rsum ((λ i, c * f i)%R <$> l) = (c * rsum (f <$> l))%R.
Proof.
  induction l as [|i l IH]; [simpl; lra |].
  rewrite !fmap_cons, !rsum_cons, IH. lra.
Qed.












(** ** Construction *)

Lemma unpack_keys_ok {K : Type} (keys : list K) n :
  length keys = n + 2 →
  ∃ w_key bias_key scale_key,
    bnaf.BlockAutoregressiveLinear.unpack_keys keys = Ok (w_key, bias_key, scale_key)
    ∧ length w_key = n.
Proof.
  intros Hlen. unfold bnaf.BlockAutoregressiveLinear.unpack_keys.
  destruct (reverse keys) as [|sk [|bk w]] eqn:E;
    apply (f_equal length) in E; rewrite length_reverse in E; simpl in E; try lia.
  eexists _, _, _. split; [done |]. rewrite length_reverse. lia.
Qed.

Lemma mzip_shape f a b r c :
  has_shape a r c → has_shape b r c → has_shape (mzip f a b) r c.
Proof.
  intros Ha Hb. rewrite (mat_as_mtab a r c Ha), (mat_as_mtab b r c Hb), mzip_mtab.
  apply has_shape_mtab.
Qed.

Lemma init_shape `{Random} key r c : has_shape (init key r c) r c.
Proof. split; [apply init_rows | apply init_cols]. Qed.

Lemma linear_init_ok `{Random} (key : prng_key) n bs :
  0 < n →
  ∃ lin, bnaf.BlockAutoregressiveLinear.__init__ key n bs = Ok lin ∧ layer_for n bs lin.
Proof.
  intros Hn. unfold bnaf.BlockAutoregressiveLinear.__init__.
  destruct (unpack_keys_ok (split key (n + 2)) n (split_length _ _))
    as (w_key & bias_key & scale_key & -> & Hw).
  cbn [mbind result_bind].
  destruct w_key as [|w_key0 w_key]; [simpl in Hw; lia |].
  cbn [first_item mbind result_bind].
  eexists. split; [reflexivity |].
  destruct bs as [r c]. split; [done |]. split; [done |].
  split; cbn; try done.
  - apply mzip_shape; [apply init_shape |].
    rewrite b_tril_mask_tab, b_diag_mask_tab, mzip_mtab. apply has_shape_mtab.
  - unfold vmap. by rewrite length_fmap, uniform_length.
  - unfold vmap. by rewrite length_fmap, uniform_length.
Qed.

Lemma split2_ok `{Random} (key : prng_key) :
  ∃ key' subkey, bnaf.BlockAutoregressiveNetwork.split2 key = Ok (key', subkey).
Proof.
  unfold bnaf.BlockAutoregressiveNetwork.split2.
  pose proof (split_length key 2) as Hlen.
  destruct (split key 2) as [|k [|sk [|? ?]]]; simpl in Hlen; try lia. eauto.
Qed.

Lemma init_loop_ok `{Random} (dim : nat) sizes :
  0 < dim →
  ∀ (key : prng_key) acc,
  ∃ lins,
    bnaf.BlockAutoregressiveNetwork.init_loop key dim sizes acc
    = Ok (acc ++ (lins ≫= λ l,
            [bnaf.BlockAutoregressiveNetwork.Linear l;
             bnaf.BlockAutoregressiveNetwork.Activation (bnaf._TanhBNAF.__init__ dim)]))
    ∧ Forall2 (layer_for dim) sizes lins.
Proof.
  intros Hdim. induction sizes as [|size sizes IH]; intros key acc.
  - exists []. simpl. by rewrite app_nil_r.
  - simpl. destruct (split2_ok key) as (key' & subkey & ->).
    cbn [mbind result_bind].
    destruct (linear_init_ok subkey dim size Hdim) as (lin & -> & Hlin).
    cbn [mbind result_bind].
    destruct (IH key' (acc ++ [bnaf.BlockAutoregressiveNetwork.Linear lin;
        bnaf.BlockAutoregressiveNetwork.Activation (bnaf._TanhBNAF.__init__ dim)]))
      as (lins & -> & Hlins).
    exists (lin :: lins). split; [| by constructor].
    by rewrite <- app_assoc.
Qed.

Lemma removelast_pairs {A B} (a : B) (f : A → B) (xs : list A) (x : A) :
  removelast ((x :: xs) ≫= λ l, [f l; a])
  = f x :: (xs ≫= λ l, [a; f l]).
Proof.
  revert x. induction xs as [|x' xs IH]; intros x; [done |].
  change ((x :: x' :: xs) ≫= λ l, [f l; a])
    with (f x :: a :: ((x' :: xs) ≫= λ l, [f l; a])).
  change ((x' :: xs) ≫= λ l, [a; f l]) with (a :: f x' :: (xs ≫= λ l, [a; f l])).
  rewrite <- IH. done.
Qed.

Lemma block_sizes_short n_layers bs :
  (n_layers ≤ 2)%Z →
  bnaf.BlockAutoregressiveNetwork.block_sizes n_layers bs = [(bs.1, 1); (1, bs.2)].
Proof.
  intros Hn. unfold bnaf.BlockAutoregressiveNetwork.block_sizes.
  by replace (Z.to_nat (n_layers - 2)) with 0 by lia.
Qed.

(** What the constructor does when [n_layers < 2]. *)
Lemma network_init_short `{Random} (key : prng_key) dim n_layers bs :
  (n_layers < 2)%Z → 0 < dim →
  ∃ net lin1 lin2,
    bnaf.BlockAutoregressiveNetwork.__init__ key dim n_layers bs = Ok net
    ∧ bnaf.BlockAutoregressiveNetwork.n_layers net = n_layers
    ∧ bnaf.BlockAutoregressiveNetwork.layers net
      = [bnaf.BlockAutoregressiveNetwork.Linear lin1;
         bnaf.BlockAutoregressiveNetwork.Activation (bnaf._TanhBNAF.__init__ dim);
         bnaf.BlockAutoregressiveNetwork.Linear lin2]
    ∧ bnaf.BlockAutoregressiveLinear.block_shape lin1 = (bs.1, 1)
    ∧ bnaf.BlockAutoregressiveLinear.block_shape lin2 = (1, bs.2)
    ∧ bnaf.BlockAutoregressiveNetwork.__init__ key dim 2 bs
      = Ok {| bnaf.BlockAutoregressiveNetwork.n_layers := 2;
              bnaf.BlockAutoregressiveNetwork.layers :=
                bnaf.BlockAutoregressiveNetwork.layers net;
              bnaf.BlockAutoregressiveNetwork.activation :=
                bnaf.BlockAutoregressiveNetwork.activation net |}.
Proof.
  intros Hn Hdim. unfold bnaf.BlockAutoregressiveNetwork.__init__.
  rewrite (block_sizes_short n_layers bs), (block_sizes_short 2 bs) by lia.
  destruct (init_loop_ok dim [(bs.1, 1); (1, bs.2)] Hdim key []) as (lins & -> & Hlins).
  cbn [mbind result_bind].
  inversion Hlins as [|? lin1 ? lins' (Hbs1 & _) Hrest]; subst.
  inversion Hrest as [|? lin2 ? lins'' (Hbs2 & _) Hnil]; subst.
  inversion Hnil; subst.
  eexists _, lin1, lin2. split; [reflexivity |]. by repeat split.
Qed.

(** C9, as stated, fails: with [n_layers = 1] the constructor returns a
    network. *)
Lemma network_with_one_layer_constructs :
  ∃ net,
    @bnaf.BlockAutoregressiveNetwork.__init__ counter_random 0 4 1%Z (8, 8) = Ok net
    ∧ bnaf.BlockAutoregressiveNetwork.n_layers net = 1%Z.
Proof.
  destruct (network_init_short (H := counter_random) 0 4 1%Z (8, 8))
    as (net & _ & _ & Hnet & Hn & _); [lia | lia |].
  by exists net.
Qed.

(** C9, amended.  The constructor has no check on [n_layers]: for
    [n_layers < 2] (and a dimension of at least one) it returns a network
    that stores [n_layers] as given and whose layers are those of the two
    block shapes [(block_size[0], 1)] and [(1, block_size[1])], a linear
    layer, an activation and a linear layer, exactly as for
    [n_layers = 2]. *)
Theorem network_init_few_layers `{Random} (key : prng_key) (dim : nat)
    (n_layers : Z) (block_size : nat * nat) :
  (n_layers < 2)%Z → 0 < dim →
  ∃ net lin1 lin2,
    bnaf.BlockAutoregressiveNetwork.__init__ key dim n_layers block_size = Ok net
    ∧ bnaf.BlockAutoregressiveNetwork.n_layers net = n_layers
    ∧ bnaf.BlockAutoregressiveNetwork.layers net
      = [bnaf.BlockAutoregressiveNetwork.Linear lin1;
         bnaf.BlockAutoregressiveNetwork.Activation (bnaf._TanhBNAF.__init__ dim);
         bnaf.BlockAutoregressiveNetwork.Linear lin2]
    ∧ bnaf.BlockAutoregressiveLinear.block_shape lin1 = (block_size.1, 1)
    ∧ bnaf.BlockAutoregressiveLinear.block_shape lin2 = (1, block_size.2)
    ∧ bnaf.BlockAutoregressiveNetwork.__init__ key dim 2 block_size
      = Ok {| bnaf.BlockAutoregressiveNetwork.n_layers := 2;
              bnaf.BlockAutoregressiveNetwork.layers :=
                bnaf.BlockAutoregressiveNetwork.layers net;
              bnaf.BlockAutoregressiveNetwork.activation :=
                bnaf.BlockAutoregressiveNetwork.activation net |}.
Proof. apply network_init_short. Qed.

Lemma network_init_few_layers_witness :
  ∃ net lin1 lin2,
    @bnaf.BlockAutoregressiveNetwork.__init__ counter_random 0 4 0%Z (8, 8) = Ok net
    ∧ bnaf.BlockAutoregressiveNetwork.n_layers net = 0%Z
    ∧ bnaf.BlockAutoregressiveNetwork.layers net
      = [bnaf.BlockAutoregressiveNetwork.Linear lin1;
         bnaf.BlockAutoregressiveNetwork.Activation (bnaf._TanhBNAF.__init__ 4);
         bnaf.BlockAutoregressiveNetwork.Linear lin2]
    ∧ bnaf.BlockAutoregressiveLinear.block_shape lin1 = (8, 1)
    ∧ bnaf.BlockAutoregressiveLinear.block_shape lin2 = (1, 8)
    ∧ @bnaf.BlockAutoregressiveNetwork.__init__ counter_random 0 4 2 (8, 8)
      = Ok {| bnaf.BlockAutoregressiveNetwork.n_layers := 2;
              bnaf.BlockAutoregressiveNetwork.layers :=
                bnaf.BlockAutoregressiveNetwork.layers net;
              bnaf.BlockAutoregressiveNetwork.activation :=
                bnaf.BlockAutoregressiveNetwork.activation net |}.
Proof.
  apply (network_init_few_layers (H := counter_random) 0 4 0%Z (8, 8)); lia.
Defined.

(** ** Shapes through the log-domain product and the layers *)

Lemma amax_last_mtab n k f :
  0 < k →
  amax_last (mtab n k f) = Ok (vtab n (λ i, from_result (amax (vtab k (f i))))).
Proof.
  intros Hk. unfold amax_last, mtab. apply mapM_vtab. intros i _.
  destruct k as [|k]; [lia |]. unfold vtab. by rewrite <- cons_seq, fmap_cons.
Qed.

Lemma amax_rows_mtab k m g :
  0 < k →
  amax_rows (mtab k m g)
  = Ok (vtab m (λ j, from_result (amax (vtab k (λ l, g l j))))).
Proof.
  intros Hk. unfold amax_rows.
  destruct (mtab k m g) eqn:E; [by apply mtab_nonempty in E |].
  rewrite <- E, ncols_mtab by done.
  rewrite <- (list_fmap_id (seq 0 m)) at 1. apply mapM_vtab. intros j Hj. simpl.
  rewrite col_mtab by done.
  destruct k as [|k]; [lia |]. unfold vtab. by rewrite <- cons_seq, fmap_cons.
Qed.

Lemma logmatmulexp_mtab n k m f g :
  0 < k → ∃ h, bnaf.logmatmulexp (mtab n k f) (mtab k m g) = Ok (mtab n m h).
Proof.
  intros Hk. unfold bnaf.logmatmulexp.
  rewrite amax_last_mtab, amax_rows_mtab by done. cbn [mbind result_bind].
  rewrite col_op_mtab, row_op_mtab, !mmap_mtab, matmul_mtab by done.
  cbn [mbind result_bind].
  rewrite mmap_mtab, col_op_mtab, row_op_mtab. eauto.
Qed.

Lemma logmatmulexp_shape (x y : matrix) n k m :
  has_shape x n k → has_shape y k m → 0 < k →
  ∃ z, bnaf.logmatmulexp x y = Ok z ∧ has_shape z n m.
Proof.
  intros Hx Hy Hk. rewrite (mat_as_mtab x n k Hx), (mat_as_mtab y k m Hy).
  destruct (logmatmulexp_mtab n k m (entry x) (entry y) Hk) as [h ->].
  eexists. split; [done | apply has_shape_mtab].
Qed.

Lemma mapM_exists {A B : Type} (f : A → result B) (P : B → Prop) (l : list A) :
  Forall (λ a, ∃ b, f a = Ok b ∧ P b) l →
  ∃ bs, mapM f l = Ok bs ∧ length bs = length l ∧ Forall P bs.
Proof.
  induction 1 as [|a l (b & Hb & HP) _ (bs & Hbs & Hlen & HPs)].
  - by exists [].
  - exists (b :: bs). simpl. rewrite Hb, Hbs. simpl.
    split; [done |]. split; [by rewrite Hlen | by constructor].
Qed.

Lemma logmatmulexp_3d_shape (x y : tensor3) d n k m :
  tensor_shape x d n k → tensor_shape y d k m → 0 < k →
  ∃ z, bnaf.logmatmulexp_3d x y = Ok z ∧ tensor_shape z d n m.
Proof.
  intros [Hxl Hx] [Hyl Hy] Hk. unfold bnaf.logmatmulexp_3d, bnaf.broadcast_batch.
  rewrite Hxl, Hyl, Nat.eqb_refl. cbn [mbind result_bind].
  destruct (mapM_exists (λ '(bx, by_), bnaf.logmatmulexp bx by_)
              (λ z, has_shape z n m) (zip x y)) as (zs & Hzs & Hlen & Hshape).
  { apply Forall_forall. intros [bx by_] Hin.
    apply elem_of_zip_l in Hin as Hbx. apply elem_of_zip_r in Hin as Hby.
    rewrite Forall_forall in Hx, Hy.
    by apply (logmatmulexp_shape bx by_ n k m); [apply Hx | apply Hy |]. }
  exists zs. split; [done |]. split; [| done].
  rewrite Hlen, length_zip. lia.
Qed.

(** ** Counting the entries of the diagonal mask *)

Lemma row_hits_length i (φ : nat → nat) (row : vec) :
  length (omap ((λ '(j, x), if nonzero x then Some (i, j) else None)
                  : nat * scalar → option (nat * nat))
               (imap (λ j x, (φ j, x)) row))
  = length (filter (λ x, nonzero x = true) row).
Proof.
  revert φ. induction row as [|x row IH]; intros φ; [done |].
  rewrite imap_cons. cbn [omap list_omap]. rewrite filter_cons.
  destruct (nonzero x) eqn:Hx.
  - rewrite decide_True by done. simpl. f_equal. apply (IH (φ ∘ S)).
  - rewrite decide_False by done. apply (IH (φ ∘ S)).
Qed.

Lemma jnp_where_length (mask : matrix) : length (jnp_where mask) = count_nonzero mask.
Proof.
  unfold jnp_where, count_nonzero.
  generalize (λ i : nat, i) as ψ.
  assert (∀ (ψ : nat → nat),
    length (concat (imap (λ i row,
      omap ((λ '(j, x), if nonzero x then Some (ψ i, j) else None)
              : nat * scalar → option (nat * nat))
           (imap (λ j x, (j, x)) row)) mask))
    = sum_list_with (λ row, length (filter (λ x, nonzero x = true) row)) mask) as Hgen.
  { induction mask as [|row mask IH]; intros ψ; [done |].
    rewrite imap_cons. simpl. rewrite length_app.
    rewrite (row_hits_length (ψ 0) (λ j, j) row). f_equal.
    apply (IH (ψ ∘ S)). }
  intros ψ. apply (Hgen (λ i, i)).
Qed.

Lemma nonzero_one : nonzero (Fin 1) = true.
Proof. simpl. rewrite Rsign_pos; [done | lra]. Qed.

Lemma nonzero_zero : nonzero (Fin 0) = false.
Proof. simpl. by rewrite Rsign_zero. Qed.

Lemma filter_zeros n : filter (λ x, nonzero x = true) (full n (Fin 0)) = [].
Proof.
  unfold full. induction n as [|n IH]; [done |]. simpl.
  rewrite filter_cons, decide_False; [done |]. rewrite nonzero_zero. done.
Qed.

Lemma filter_ones n :
  filter (λ x, nonzero x = true) (full n (Fin 1)) = full n (Fin 1).
Proof.
  unfold full. induction n as [|n IH]; [done |]. simpl.
  rewrite filter_cons, decide_True by apply nonzero_one. by rewrite IH.
Qed.

Lemma count_nonzero_app a b : count_nonzero (a ++ b) = count_nonzero a + count_nonzero b.
Proof. apply sum_list_with_app. Qed.

Lemma count_nonzero_pad_right (m : matrix) k :
  count_nonzero ((λ row, row ++ full k (Fin 0)) <$> m) = count_nonzero m.
Proof.
  unfold count_nonzero. induction m as [|row m IH]; [done |].
  rewrite fmap_cons. simpl. by rewrite IH, filter_app, filter_zeros, app_nil_r.
Qed.

Lemma count_nonzero_pad_left (m : matrix) k :
  count_nonzero ((λ row, full k (Fin 0) ++ row) <$> m) = count_nonzero m.
Proof.
  unfold count_nonzero. induction m as [|row m IH]; [done |].
  rewrite fmap_cons. simpl. by rewrite IH, filter_app, filter_zeros.
Qed.

Lemma count_nonzero_ones r c : count_nonzero (full2 r c (Fin 1)) = r * c.
Proof.
  unfold count_nonzero, full2. induction r as [|r IH]; [done |].
  simpl. rewrite IH, filter_ones. unfold full. by rewrite length_replicate.
Qed.

Lemma b_diag_mask_count r c n : count_nonzero (bnaf.b_diag_mask (r, c) n) = n * r * c.
Proof.
  unfold bnaf.b_diag_mask. simpl. induction n as [|n IH]; [done |].
  simpl replicate. simpl block_diag.
  rewrite count_nonzero_app, count_nonzero_pad_right, count_nonzero_pad_left.
  rewrite IH, count_nonzero_ones. lia.
Qed.

Lemma chunks_length {A} a b (v : list A) : length (chunks a b v) = a.
Proof. revert v. induction a as [|a IH]; intros v; simpl; [done | by rewrite IH]. Qed.

Lemma chunks_pieces {A} a b (v : list A) :
  length v = a * b → Forall (λ piece, length piece = b) (chunks a b v).
Proof.
  revert v. induction a as [|a IH]; intros v Hv; simpl; constructor.
  - rewrite length_take. lia.
  - apply IH. rewrite length_drop. lia.
Qed.

Lemma reshape3_shape n r c (v : vec) :
  length v = n * r * c →
  ∃ t, reshape3 n r c v = Ok t ∧ tensor_shape t n r c.
Proof.
  intros Hv. unfold reshape3. rewrite Hv, Nat.eqb_refl.
  eexists. split; [done |]. split.
  - by rewrite length_fmap, chunks_length.
  - apply Forall_fmap.
    eapply Forall_impl; [apply (chunks_pieces n (r * c)); lia |].
    intros piece Hpiece. simpl. split; [apply chunks_length |].
    by apply chunks_pieces.
Qed.

Lemma tmap_shape f t n r c : tensor_shape t n r c → tensor_shape (tmap f t) n r c.
Proof.
  intros [Hlen Hall]. split; [unfold tmap; by rewrite length_fmap |].
  unfold tmap. apply Forall_fmap. eapply Forall_impl; [exact Hall |].
  intros m [Hr Hc]. simpl. split; [unfold mmap; by rewrite length_fmap |].
  unfold mmap. apply Forall_fmap. eapply Forall_impl; [exact Hc |].
  intros row Hrow. simpl. unfold vmap. by rewrite length_fmap.
Qed.

Lemma matvec_mtab r c f (x : vec) :
  length x = c → ∃ y, matvec (mtab r c f) x = Ok y ∧ length y = r.
Proof.
  intros Hx. unfold matvec.
  assert (forallb (λ row, length row =? length x) (mtab r c f) = true) as ->.
  { apply forallb_forall. intros row Hrow. apply list_elem_of_In in Hrow.
    unfold mtab in Hrow. apply list_elem_of_fmap in Hrow as (i & -> & _).
    rewrite vtab_length, Hx. apply Nat.eqb_refl. }
  eexists. split; [done |]. by rewrite length_fmap, mtab_length.
Qed.

Lemma linear_call_shape (l : bnaf.BlockAutoregressiveLinear.t) dim r c (x : vec) :
  layer_for dim (r, c) l → length x = c * dim →
  ∃ y t, bnaf.BlockAutoregressiveLinear.__call__ l x = Ok (y, t)
         ∧ length y = r * dim ∧ tensor_shape t dim r c.
Proof.
  intros (Hbs & Hn & Hwf) Hx. unfold bnaf.BlockAutoregressiveLinear.__call__.
  cbv zeta. rewrite (get_normalised_weights_tab l Hwf).
  unfold bnaf.BlockAutoregressiveLinear.b_diag_mask_idxs.
  rewrite (wf_idxs l Hwf), (wf_diag l Hwf).
  pose proof (wf_bias l Hwf) as Hbias.
  rewrite Hbs, Hn in *. simpl in *.
  destruct (matvec_mtab (r * dim) (c * dim)
             (normalised_entry r c dim (entry (bnaf.BlockAutoregressiveLinear.W l))
                (λ i, bnaf.BlockAutoregressiveLinear.W_log_scale l !!! i)) x Hx)
    as (Wx & -> & HWx).
  cbn [mbind result_bind].
  destruct (reshape3_shape dim r c
    (gather (mtab (r * dim) (c * dim)
               (normalised_entry r c dim (entry (bnaf.BlockAutoregressiveLinear.W l))
                  (λ i, bnaf.BlockAutoregressiveLinear.W_log_scale l !!! i)))
            (jnp_where (bnaf.b_diag_mask (r, c) dim)))) as (t & -> & Ht).
  { unfold gather. by rewrite length_fmap, jnp_where_length, b_diag_mask_count. }
  cbn [mbind result_bind]. eexists _, _. split; [done |].
  split; [| by apply tmap_shape].
  unfold vzip. rewrite length_zip_with. lia.
Qed.

Lemma ttab_shape n r c f : tensor_shape (ttab n r c f) n r c.
Proof.
  split; [apply ttab_length |]. apply Forall_forall. intros m Hm.
  unfold ttab in Hm. apply list_elem_of_fmap in Hm as (b & -> & _).
  apply has_shape_mtab.
Qed.

Lemma tanh_call_shape n d (x : vec) condition :
  0 < n → length x = d * n →
  ∃ t, bnaf._TanhBNAF.__call__ (bnaf._TanhBNAF.__init__ n) x condition
       = Ok (vmap stanh x, t)
       ∧ tensor_shape t n d d.
Proof.
  intros Hn Hlen. unfold bnaf._TanhBNAF.__call__, bnaf._TanhBNAF.__init__.
  cbn [bnaf._TanhBNAF.n_blocks].
  rewrite Hlen, (Nat.mul_comm d n), floordiv_mul by done. cbn [mbind result_bind].
  match goal with
  | |- context [reshape2 n d ?v] =>
      assert (length v = n * d) as Hv by (unfold vmap; rewrite length_fmap; lia);
      rewrite (vec_as_vtab v), Hv
  end.
  unfold reshape2. rewrite vtab_length, Nat.eqb_refl. cbn [mbind result_bind].
  rewrite chunks_vtab, full3_tab, set_diagonals_tab.
  eexists. split; [done | apply ttab_shape].
Qed.

(** ** The forward pass *)

Section forward_pass.

Import bnaf.BlockAutoregressiveNetwork.

Lemma forward_loop_collect ls y acc :
  forward_loop ls y acc = ('(z, lds) ← collect ls y; Ok (z, acc ++ lds)).
Proof.
  revert y acc. induction ls as [|l ls IH]; intros y acc; simpl.
  - by rewrite app_nil_r.
  - destruct (call l y) as [[y' ld]|e]; simpl; [| done].
    rewrite IH. destruct (collect ls y') as [[z lds]|e]; simpl; [| done].
    by rewrite <- app_assoc.
Qed.

Lemma transform_loop_collect ls y :
  transform_loop ls y = ('(z, _) ← collect ls y; Ok z).
Proof.
  revert y. induction ls as [|l ls IH]; intros y; simpl; [done |].
  destruct (call l y) as [[y' ld]|e]; simpl; [| done].
  rewrite IH. by destruct (collect ls y') as [[z lds]|e].
Qed.

Lemma logdet_loop_app l1 l2 a :
  logdet_loop (l1 ++ l2) a = (x ← logdet_loop l1 a; logdet_loop l2 x).
Proof.
  revert a. induction l1 as [|ld l1 IH]; intros a; simpl; [done |].
  destruct (bnaf.logmatmulexp_3d a ld) as [a'|e]; simpl; [apply IH | done].
Qed.

Lemma logdet_loop_foldr lds a :
  logdet_loop (reverse lds) a
  = foldr (λ ld acc, logdet ← acc; bnaf.logmatmulexp_3d logdet ld) (Ok a) lds.
Proof.
  induction lds as [|ld lds IH]; [done |].
  rewrite reverse_cons, logdet_loop_app, IH. simpl.
  destruct (foldr _ _ lds) as [x|e]; simpl; [| done].
  by destruct (bnaf.logmatmulexp_3d x ld).
Qed.

Lemma transform_and_log_abs_det_jacobian_collect net x condition :
  transform_and_log_abs_det_jacobian net x condition
  = ('(y, lds) ← collect (layers net) x;
     logdet ← fold_from_last lds;
     Ok (y, tsum logdet)).
Proof.
  unfold transform_and_log_abs_det_jacobian, fold_from_last.
  rewrite forward_loop_collect.
  destruct (collect (layers net) x) as [[y lds]|e]; simpl; [| done].
  destruct (last_item lds) as [t|e]; simpl; [| done].
  by rewrite logdet_loop_foldr.
Qed.

Lemma foldr_chain dim lds k c :
  chain dim lds k c →
  ∀ acc ρ, 0 < k → tensor_shape acc dim ρ k →
  ∃ z, foldr (λ ld acc, logdet ← acc; bnaf.logmatmulexp_3d logdet ld) (Ok acc) lds = Ok z
       ∧ tensor_shape z dim ρ c.
Proof.
  induction 1 as [t r c Ht | lds t r k c Hlds IH Hk Ht]; intros acc ρ Hr Hacc.
  - simpl. by apply (logmatmulexp_3d_shape acc t dim ρ r c).
  - rewrite foldr_app. simpl.
    destruct (logmatmulexp_3d_shape acc t dim ρ r k Hacc Ht Hr) as (a' & -> & Ha').
    by apply IH.
Qed.

Lemma last_item_snoc {A} (l : list A) a : last_item (l ++ [a]) = Ok a.
Proof. unfold last_item. by rewrite last_snoc. Qed.

Lemma fold_from_last_chain dim lds r c :
  chain dim lds r c →
  ∃ z, fold_from_last lds = Ok z ∧ tensor_shape z dim r c.
Proof.
  intros Hchain. unfold fold_from_last.
  destruct Hchain as [t r c Ht | lds t r k c Hlds Hk Ht].
  - simpl. eauto.
  - rewrite last_item_snoc, removelast_last. cbn [mbind result_bind].
    by apply (foldr_chain dim lds k c).
Qed.

Lemma forward_pairs dim others :
  0 < dim →
  ∀ sizes, Forall2 (layer_for dim) sizes others →
  ∀ y acc rprev c0 rout,
    sizes_chain rprev sizes rout → 0 < rprev →
    chain dim acc rprev c0 → length y = rprev * dim →
    ∃ z lds,
      forward_loop (others ≫= λ l, [Activation (bnaf._TanhBNAF.__init__ dim); Linear l])
                   y acc = Ok (z, lds)
      ∧ chain dim lds rout c0 ∧ length z = rout * dim.
Proof.
  intros Hdim sizes Hall.
  induction Hall as [|[r c] l sizes others Hl _ IH];
    intros y acc rprev c0 rout Hsizes Hrprev Hacc Hy.
  - simpl in *. subst. eauto.
  - destruct Hsizes as (-> & Hr & Hsizes).
    change ((l :: others) ≫= λ l, [Activation (bnaf._TanhBNAF.__init__ dim); Linear l])
      with (Activation (bnaf._TanhBNAF.__init__ dim) :: Linear l
            :: (others ≫= λ l, [Activation (bnaf._TanhBNAF.__init__ dim); Linear l])).
    cbn [forward_loop call].
    destruct (tanh_call_shape dim rprev y None Hdim Hy) as (tA & -> & HtA).
    cbn [mbind result_bind].
    destruct (linear_call_shape l dim r rprev (vmap stanh y) Hl) as (y2 & tL & -> & Hy2 & HtL).
    { unfold vmap. by rewrite length_fmap. }
    cbn [mbind result_bind].
    apply (IH y2 _ r c0 rout Hsizes Hr); [| done].
    apply (chain_snoc dim _ tL r rprev c0); [| done..].
    by apply (chain_snoc dim acc tA rprev rprev c0).
Qed.

Lemma block_sizes_chain b middle :
  0 < b → sizes_chain b (replicate middle (b, b) ++ [(1, b)]) 1.
Proof. intros Hb. induction middle as [|k IH]; simpl; auto with lia. Qed.

(** C1.  For a network of dimension [dim] (with square blocks, as its
    layers require) and an input of length [dim],
    [transform_and_log_abs_det_jacobian] returns: the output [y] of passing
    [x] through every layer in order, and the sum of all entries of the
    tensor, of shape [(dim, 1, 1)], obtained by folding the tensors
    collected in forward order right-to-left with the log-domain matrix
    product, starting from the last one.  [transform] returns the same
    [y]. *)
Theorem transform_and_log_abs_det_jacobian_correct
    (net : bnaf.BlockAutoregressiveNetwork.t) (dim b : nat) (x : vec)
    (condition : option vec) :
  0 < dim → 0 < b → network_wf dim b net → length x = dim →
  ∃ y log_det_3ds logdet,
    collect (layers net) x = Ok (y, log_det_3ds)
    ∧ fold_from_last log_det_3ds = Ok logdet
    ∧ tensor_shape logdet dim 1 1
    ∧ transform_and_log_abs_det_jacobian net x condition = Ok (y, tsum logdet)
    ∧ transform net x condition = Ok y.
Proof.
  intros Hdim Hb (first & others & middle & Hlayers & Hfirst & Hothers) Hx.
  destruct (linear_call_shape first dim b 1 x Hfirst) as (y1 & t1 & Hcall & Hy1 & Ht1);
    [lia |].
  destruct (forward_pairs dim others Hdim _ Hothers y1 [t1] b 1 1)
    as (z & lds & Hfwd & Hchain & Hz);
    [by apply block_sizes_chain | done | by constructor | done |].
  destruct (fold_from_last_chain dim lds 1 1 Hchain) as (logdet & Hfold & Hshape).
  assert (collect (layers net) x = Ok (z, lds)) as Hcollect.
  { rewrite Hlayers. cbn [collect call]. rewrite Hcall. cbn [mbind result_bind].
    rewrite forward_loop_collect in Hfwd.
    destruct (collect _ y1) as [[z' lds']|e]; simpl in *; [| done].
    by injection Hfwd as -> <-. }
  exists z, lds, logdet.
  split; [done |]. split; [done |]. split; [done |]. split.
  - rewrite transform_and_log_abs_det_jacobian_collect, Hcollect.
    cbn [mbind result_bind]. by rewrite Hfold.
  - unfold transform. by rewrite transform_loop_collect, Hcollect.
Qed.

Lemma network_init_wf `{Random} (key : prng_key) dim n b :
  0 < dim →
  ∃ net, __init__ key dim n (b, b) = Ok net ∧ n_layers net = n ∧ network_wf dim b net.
Proof.
  intros Hdim. unfold __init__.
  destruct (init_loop_ok dim (block_sizes n (b, b)) Hdim key []) as (lins & -> & Hlins).
  cbn [mbind result_bind]. eexists. split; [done |]. split; [done |].
  unfold block_sizes in Hlins. simpl in Hlins.
  inversion Hlins as [|? first ? others Hfirst Hothers]; subst.
  exists first, others, (Z.to_nat (n - 2)). cbn [layers app].
  split; [apply (removelast_pairs _ Linear) | done].
Qed.

Lemma example_network_wf : network_wf 2 2 example_network.
Proof.
  unfold example_network.
  destruct (network_init_wf (H := counter_random) 0 2 3%Z 2) as (net & -> & _ & Hwf);
    [lia | done].
Qed.

Lemma transform_and_log_abs_det_jacobian_correct_witness :
  ∃ y log_det_3ds logdet,
    collect (layers example_network) [Fin 0; Fin 0] = Ok (y, log_det_3ds)
    ∧ fold_from_last log_det_3ds = Ok logdet
    ∧ tensor_shape logdet 2 1 1
    ∧ transform_and_log_abs_det_jacobian example_network [Fin 0; Fin 0] None
      = Ok (y, tsum logdet)
    ∧ transform example_network [Fin 0; Fin 0] None = Ok y.
Proof.
  apply (transform_and_log_abs_det_jacobian_correct example_network 2 2 [Fin 0; Fin 0]
           None).
  - lia.
  - lia.
  - exact example_network_wf.
  - reflexivity.
Defined.

End forward_pass.

(** ** Merging nested transformed distributions *)

Lemma sadd_0_l x : sadd (Fin 0) x = x.
Proof. destruct x; simpl; [f_equal; lra | done..]. Qed.

Lemma sadd_0_r x : sadd x (Fin 0) = x.
Proof. destruct x; simpl; [f_equal; lra | done..]. Qed.

Lemma sadd_comm x y : sadd x y = sadd y x.
Proof. destruct x, y; simpl; try done. f_equal; lra. Qed.

Lemma sadd_assoc x y z : sadd x (sadd y z) = sadd (sadd x y) z.
Proof. destruct x, y, z; simpl; try done. f_equal; lra. Qed.

Section merge.

Import distributions.
Context `{Random}.

Section chains.

Context (condition : option array).

Lemma chain_transform_cons b bs x :
  chain_transform condition (b :: bs) x = (y ← transform condition b x; chain_transform condition bs y).
Proof. done. Qed.

Lemma chain_transform_app bs1 bs2 x :
  chain_transform condition (bs1 ++ bs2) x = (y ← chain_transform condition bs1 x; chain_transform condition bs2 y).
Proof.
  revert x. induction bs1 as [|b bs1 IH]; intros x; [done |].
  rewrite <- app_comm_cons, !chain_transform_cons.
  destruct (transform condition b x) as [y|e]; simpl; [apply IH | done].
Qed.

Lemma chain_inverse_cons b bs y :
  chain_inverse_and_log_det condition (b :: bs) y
  = ('(x, log_det) ← chain_inverse_and_log_det condition bs y;
     '(x', log_det_i) ← inverse_and_log_det condition b x;
     Ok (x', sadd log_det log_det_i)).
Proof. done. Qed.

Lemma chain_inverse_app bs1 bs2 y :
  chain_inverse_and_log_det condition (bs1 ++ bs2) y
  = ('(x, ld2) ← chain_inverse_and_log_det condition bs2 y;
     '(x', ld1) ← chain_inverse_and_log_det condition bs1 x;
     Ok (x', sadd ld2 ld1)).
Proof.
  induction bs1 as [|b bs1 IH].
  - simpl. destruct (chain_inverse_and_log_det condition bs2 y) as [[x ld2]|e]; simpl; [| done].
    by rewrite sadd_0_r.
  - rewrite <- app_comm_cons, !chain_inverse_cons, IH.
    destruct (chain_inverse_and_log_det condition bs2 y) as [[x ld2]|e]; simpl; [| done].
    rewrite chain_inverse_cons.
    destruct (chain_inverse_and_log_det condition bs1 x) as [[x1 ld1]|e]; simpl; [| done].
    destruct (inverse_and_log_det condition b x1) as [[x2 ldi]|e]; simpl; [| done].
    by rewrite sadd_assoc.
Qed.

Lemma flatten_chain_cons b bs : flatten (Chain (b :: bs)) = flatten b ++ flatten (Chain bs).
Proof. done. Qed.

Lemma flatten_transform b x :
  chain_transform condition (flatten b) x = transform condition b x.
Proof.
  revert x. induction b as [l|bs IH] using bijection_ind'; intros x.
  - unfold chain_transform. simpl. by destruct (leaf_transform l x condition).
  - induction IH as [|b bs Hb _ IHbs] in x |- *; [done |].
    rewrite flatten_chain_cons, chain_transform_app, Hb.
    change (transform condition (Chain (b :: bs)) x)
      with (y ← transform condition b x; transform condition (Chain bs) y).
    destruct (transform condition b x) as [y|e]; simpl; [apply IHbs | done].
Qed.

Lemma flatten_inverse_and_log_det b y :
  chain_inverse_and_log_det condition (flatten b) y = inverse_and_log_det condition b y.
Proof.
  revert y. induction b as [l|bs IH] using bijection_ind'; intros y.
  - change (flatten (Leaf l)) with [Leaf l]. rewrite chain_inverse_cons.
    change (chain_inverse_and_log_det condition [] y) with (Ok (y, Fin 0)).
    cbn [mbind result_bind].
    destruct (inverse_and_log_det condition (Leaf l) y) as [[x ld]|e];
      cbn [mbind result_bind]; [| done].
    by rewrite sadd_0_l.
  - induction IH as [|b bs Hb _ IHbs] in y |- *; [done |].
    rewrite flatten_chain_cons, chain_inverse_app, IHbs.
    change (inverse_and_log_det condition (Chain (b :: bs)) y)
      with ('(x, log_det) ← inverse_and_log_det condition (Chain bs) y;
            '(x', log_det_i) ← inverse_and_log_det condition b x;
            Ok (x', sadd log_det log_det_i)).
    destruct (inverse_and_log_det condition (Chain bs) y) as [[x ld]|e]; simpl; [| done].
    by rewrite Hb.
Qed.

Lemma sample_unnested d key :
  _sample d key condition
  = (z ← _sample (innermost d) key condition; chain_transform condition (bijections_of d) z).
Proof.
  induction d as [c|base_dist IH bijection]; cbn [_sample innermost bijections_of].
  - by destruct (c_sample c key condition).
  - rewrite IH.
    destruct (_sample (innermost base_dist) key condition) as [z|e];
      cbn [mbind result_bind]; [| done].
    rewrite chain_transform_app.
    destruct (chain_transform condition (bijections_of base_dist) z) as [y|e];
      cbn [mbind result_bind]; [| done].
    rewrite chain_transform_cons. by destruct (transform condition bijection y).
Qed.

Lemma log_prob_unnested d x :
  _log_prob d x condition
  = ('(z, log_det) ← chain_inverse_and_log_det condition (bijections_of d) x;
     p_z ← _log_prob (innermost d) z condition;
     Ok (sadd p_z log_det)).
Proof.
  revert x. induction d as [c|base_dist IH bijection]; intros x;
    cbn [_log_prob innermost bijections_of].
  - change (chain_inverse_and_log_det condition [] x) with (Ok (x, Fin 0)).
    cbn [mbind result_bind].
    destruct (c_log_prob c x condition) as [p|e]; cbn [mbind result_bind]; [| done].
    by rewrite sadd_0_r.
  - rewrite chain_inverse_app, chain_inverse_cons.
    change (chain_inverse_and_log_det condition [] x) with (Ok (x, Fin 0)).
    cbn [mbind result_bind].
    destruct (inverse_and_log_det condition bijection x) as [[z ld]|e];
      cbn [mbind result_bind]; [| done].
    rewrite IH.
    destruct (chain_inverse_and_log_det condition (bijections_of base_dist) z)
      as [[z' ld']|e]; cbn [mbind result_bind]; [| done].
    destruct (_log_prob (innermost base_dist) z' condition) as [p|e];
      cbn [mbind result_bind]; [| done].
    f_equal. rewrite sadd_0_l, (sadd_comm ld ld'). symmetry. apply sadd_assoc.
Qed.

End chains.

Lemma flatten_chain_app bs1 bs2 :
  flatten (Chain (bs1 ++ bs2)) = flatten (Chain bs1) ++ flatten (Chain bs2).
Proof.
  induction bs1 as [|b bs1 IH]; [done |].
  by rewrite <- app_comm_cons, !flatten_chain_cons, IH, app_assoc.
Qed.

Lemma flatten_chain_one b : flatten (Chain [b]) = flatten b.
Proof. rewrite flatten_chain_cons. apply app_nil_r. Qed.

Lemma unnest_spec d acc :
  unnest d acc = (innermost d, acc ++ reverse (bijections_of d)).
Proof.
  revert acc. induction d as [c|base_dist IH bijection]; intros acc; simpl.
  - by rewrite app_nil_r.
  - rewrite IH, reverse_app. simpl. by rewrite <- app_assoc.
Qed.

Lemma innermost_not_transformed d : is_transformed (innermost d) = false.
Proof. by induction d. Qed.

Lemma shape_innermost d : shape d = shape (innermost d).
Proof. by induction d. Qed.

(** Conditioning shapes *)

Lemma chain_cond_shape_cons b bs :
  chain_cond_shape (b :: bs)
  = match bijection_cond_shape b with
    | Some s => Some s
    | None => chain_cond_shape bs
    end.
Proof. done. Qed.

Lemma chain_cond_shape_app bs1 bs2 :
  chain_cond_shape (bs1 ++ bs2)
  = match chain_cond_shape bs1 with
    | Some s => Some s
    | None => chain_cond_shape bs2
    end.
Proof.
  induction bs1 as [|b bs1 IH]; [done |].
  rewrite <- app_comm_cons, !chain_cond_shape_cons, IH.
  by destruct (bijection_cond_shape b).
Qed.

Lemma flatten_cond_shape b : chain_cond_shape (flatten b) = bijection_cond_shape b.
Proof.
  induction b as [l|bs IH] using bijection_ind'.
  - change (flatten (Leaf l)) with [Leaf l]. rewrite chain_cond_shape_cons.
    by destruct (bijection_cond_shape (Leaf l)).
  - induction IH as [|b bs Hb _ IHbs]; [done |].
    by rewrite flatten_chain_cons, chain_cond_shape_app, Hb, IHbs.
Qed.

Lemma cond_shape_Transformed base_dist bijection :
  cond_shape (Transformed base_dist bijection)
  = match bijection_cond_shape bijection with
    | Some s => Some s
    | None => cond_shape base_dist
    end.
Proof. simpl. by destruct (bijection_cond_shape bijection), (cond_shape base_dist). Qed.

Lemma check_init_agree base_dist bijection s s' :
  __check_init__ base_dist bijection = Ok () →
  cond_shape base_dist = Some s → bijection_cond_shape bijection = Some s' → s = s'.
Proof.
  unfold __check_init__, shape_eqb. intros Hcheck H1 H2.
  rewrite H1, H2 in Hcheck. by case_bool_decide.
Qed.

Lemma valid_cond_shape d s :
  valid d →
  chain_cond_shape (bijections_of d) = Some s ∨ cond_shape (innermost d) = Some s →
  cond_shape d = Some s.
Proof.
  induction d as [c|base_dist IH bijection]; intros Hvalid Hs.
  - by destruct Hs.
  - destruct Hvalid as [Hvalid Hcheck]. cbn [bijections_of innermost] in Hs.
    rewrite chain_cond_shape_app, chain_cond_shape_cons in Hs.
    rewrite cond_shape_Transformed.
    destruct (bijection_cond_shape bijection) as [s0|] eqn:Hbij.
    + destruct (chain_cond_shape (bijections_of base_dist)) as [s1|] eqn:Hchain.
      * f_equal. symmetry. apply (check_init_agree base_dist bijection s s0); [done | | done].
        apply IH; [done |]. destruct Hs as [[= ->]|Hs]; auto.
      * destruct Hs as [Hs|Hs]; [done |].
        f_equal. symmetry. apply (check_init_agree base_dist bijection s s0); auto.
    + apply IH; [done |].
      destruct (chain_cond_shape (bijections_of base_dist)); destruct Hs; auto; done.
Qed.

Lemma unconditional_cond_shape d :
  chain_cond_shape (bijections_of d) = None → cond_shape d = cond_shape (innermost d).
Proof.
  induction d as [c|base_dist IH bijection]; intros Hnone; [done |].
  cbn [bijections_of innermost] in *.
  rewrite chain_cond_shape_app, chain_cond_shape_cons in Hnone.
  rewrite cond_shape_Transformed.
  destruct (chain_cond_shape (bijections_of base_dist)); [done |].
  destruct (bijection_cond_shape bijection); [done |]. by apply IH.
Qed.

Lemma merged_cond_shape d :
  valid d →
  cond_shape (Transformed (innermost d) (Chain (flatten (Chain (bijections_of d)))))
  = cond_shape d.
Proof.
  intros Hvalid. rewrite cond_shape_Transformed.
  fold (chain_cond_shape (flatten (Chain (bijections_of d)))).
  rewrite flatten_cond_shape. fold (chain_cond_shape (bijections_of d)).
  destruct (chain_cond_shape (bijections_of d)) as [s|] eqn:Hchain.
  - symmetry. apply valid_cond_shape; auto.
  - symmetry. by apply unconditional_cond_shape.
Qed.

Lemma merged_check_init d :
  valid d →
  __check_init__ (innermost d) (Chain (flatten (Chain (bijections_of d)))) = Ok ().
Proof.
  intros Hvalid. unfold __check_init__.
  fold (chain_cond_shape (flatten (Chain (bijections_of d)))).
  rewrite flatten_cond_shape. fold (chain_cond_shape (bijections_of d)).
  destruct (cond_shape (innermost d)) as [s|] eqn:Hinner; [| done].
  destruct (chain_cond_shape (bijections_of d)) as [s'|] eqn:Hchain; [| done].
  assert (Some s = Some s') as [= ->].
  { rewrite <- (valid_cond_shape d s), <- (valid_cond_shape d s'); auto. }
  unfold shape_eqb. by rewrite bool_decide_eq_true_2.
Qed.

(** The public entry points depend on a distribution through its shape,
    its conditioning shape and its unbatched methods. *)

Lemma mapM_ext {A B} (f g : A → result B) l :
  (∀ a, f a = g a) → mapM f l = mapM g l.
Proof. intros Hfg. induction l as [|a l IH]; simpl; [done |]. by rewrite Hfg, IH. Qed.

Lemma vectorize_ext {A B} d1 d2 (m1 m2 : A → option array → result B) lead items c :
  cond_shape d1 = cond_shape d2 → (∀ a c, m1 a c = m2 a c) →
  _vectorize d1 m1 lead items c = _vectorize d2 m2 lead items c.
Proof.
  intros Hcs Hm. unfold _vectorize. rewrite Hcs.
  destruct (cond_shape d2) as [cs|].
  - destruct (arraylike_to_array c) as [c'|e]; simpl; [| done].
    destruct (unbatch cs c') as [[lead_c conds]|e]; simpl; [| done].
    destruct (broadcast_shapes lead lead_c) as [out|e]; simpl; [| done].
    f_equal. apply mapM_ext. intros idx.
    destruct (item items (ravel lead idx)) as [a|e]; simpl; [| done].
    destruct (item conds (ravel lead_c idx)) as [ci|e]; simpl; [| done].
    apply Hm.
  - f_equal. apply mapM_ext. intros a. apply Hm.
Qed.

Lemma log_prob_ext d1 d2 x c :
  shape d1 = shape d2 → cond_shape d1 = cond_shape d2 →
  (∀ x c, _log_prob d1 x c = _log_prob d2 x c) →
  log_prob d1 x c = log_prob d2 x c.
Proof.
  intros Hs Hcs Hm. unfold log_prob, convert_condition. rewrite Hs, Hcs.
  destruct (match cond_shape d2 with Some _ => _ | None => _ end) as [c'|e];
    simpl; [| done].
  destruct (unbatch (shape d2) x) as [[lead xs]|e]; simpl; [| done].
  by rewrite (vectorize_ext d1 d2 (_log_prob d1) (_log_prob d2)).
Qed.

Lemma sample_ext d1 d2 key sample_shape c :
  shape d1 = shape d2 → cond_shape d1 = cond_shape d2 →
  (∀ key c, _sample d1 key c = _sample d2 key c) →
  sample d1 key sample_shape c = sample d2 key sample_shape c.
Proof.
  intros Hs Hcs Hm. unfold sample, convert_condition, _get_sample_keys.
  rewrite Hs, Hcs.
  destruct (match cond_shape d2 with Some _ => _ | None => _ end) as [c'|e];
    simpl; [| done].
  match goal with |- context [mbind _ ?m] => destruct m as [[ks keys]|e] end;
    simpl; [| done].
  by rewrite (vectorize_ext d1 d2 (_sample d1) (_sample d2)).
Qed.

(** C7.  For a nested transformed distribution whose layers have passed
    their construction check, [merge_transforms] returns a transformed
    distribution whose base is the innermost distribution, which is not
    transformed, and whose bijection is one flat chain of the nested
    bijections, the outer bijection last; [_sample] and [_log_prob], and
    with them the public [sample] and [log_prob], agree with those of the
    nested distribution for every key, point and condition. *)
Theorem merge_transforms_equivalent (base_dist : distribution) (bijection : bijection) :
  is_transformed base_dist = true →
  valid (Transformed base_dist bijection) →
  ∃ merged inner,
    merge_transforms base_dist bijection = Ok merged
    ∧ merged = Transformed (innermost base_dist) (Chain (inner ++ flatten bijection))
    ∧ inner = flatten (Chain (bijections_of base_dist))
    ∧ is_transformed (innermost base_dist) = false
    ∧ (∀ key condition,
         _sample merged key condition
         = _sample (Transformed base_dist bijection) key condition)
    ∧ (∀ x condition,
         _log_prob merged x condition
         = _log_prob (Transformed base_dist bijection) x condition)
    ∧ (∀ key sample_shape condition,
         sample merged key sample_shape condition
         = sample (Transformed base_dist bijection) key sample_shape condition)
    ∧ (∀ x condition,
         log_prob merged x condition
         = log_prob (Transformed base_dist bijection) x condition).
Proof.
  intros Hnested Hvalid.
  set (self := Transformed base_dist bijection) in *.
  set (merged := Transformed (innermost self) (Chain (flatten (Chain (bijections_of self))))).
  assert (merge_transforms base_dist bijection = Ok merged) as Hmerge.
  { unfold merge_transforms, new_Transformed. rewrite Hnested, unnest_spec.
    cbn [negb]. unfold merge_chains.
    rewrite reverse_app, reverse_involutive.
    change (bijections_of base_dist ++ reverse [bijection]) with (bijections_of self).
    change (innermost base_dist) with (innermost self).
    by rewrite (merged_check_init self Hvalid). }
  assert (∀ key condition, _sample merged key condition = _sample self key condition)
    as Hsample.
  { intros key condition. rewrite (sample_unnested condition self).
    unfold merged. cbn [_sample].
    destruct (_sample (innermost self) key condition) as [z|e];
      cbn [mbind result_bind]; [| done].
    apply (flatten_transform condition (Chain (bijections_of self))). }
  assert (∀ x condition, _log_prob merged x condition = _log_prob self x condition)
    as Hlog_prob.
  { intros x condition. rewrite (log_prob_unnested condition self).
    unfold merged. cbn [_log_prob].
    change (inverse_and_log_det condition (Chain (flatten (Chain (bijections_of self)))) x)
      with (chain_inverse_and_log_det condition (flatten (Chain (bijections_of self))) x).
    by rewrite flatten_inverse_and_log_det. }
  assert (shape merged = shape self) as Hshape.
  { unfold merged. cbn [shape]. symmetry. apply shape_innermost. }
  pose proof (merged_cond_shape self Hvalid) as Hcond. fold merged in Hcond.
  exists merged, (flatten (Chain (bijections_of base_dist))).
  split; [exact Hmerge |]. split.
  { unfold merged. cbn [innermost self bijections_of]. do 2 f_equal.
    by rewrite flatten_chain_app, flatten_chain_one. }
  split; [done |]. split; [apply innermost_not_transformed |].
  split; [exact Hsample |]. split; [exact Hlog_prob |]. split.
  - intros key sample_shape condition. by apply sample_ext.
  - intros x condition. by apply log_prob_ext.
Qed.

End merge.

Lemma merge_transforms_equivalent_witness :
  ∃ merged inner,
    distributions.merge_transforms degenerate_flow (distributions.Leaf flat_bijection)
    = Ok merged
    ∧ merged
      = distributions.Transformed (distributions.innermost degenerate_flow)
          (distributions.Chain
             (inner ++ distributions.flatten (distributions.Leaf flat_bijection)))
    ∧ inner
      = distributions.flatten
          (distributions.Chain (distributions.bijections_of degenerate_flow))
    ∧ distributions.is_transformed (distributions.innermost degenerate_flow) = false
    ∧ (∀ key condition,
         distributions._sample merged key condition
         = distributions._sample
             (distributions.Transformed degenerate_flow
                (distributions.Leaf flat_bijection)) key condition)
    ∧ (∀ x condition,
         distributions._log_prob merged x condition
         = distributions._log_prob
             (distributions.Transformed degenerate_flow
                (distributions.Leaf flat_bijection)) x condition)
    ∧ (∀ key sample_shape condition,
         distributions.sample merged key sample_shape condition
         = distributions.sample
             (distributions.Transformed degenerate_flow
                (distributions.Leaf flat_bijection)) key sample_shape condition)
    ∧ (∀ x condition,
         distributions.log_prob merged x condition
         = distributions.log_prob
             (distributions.Transformed degenerate_flow
                (distributions.Leaf flat_bijection)) x condition).
Proof.
  apply (merge_transforms_equivalent degenerate_flow (distributions.Leaf flat_bijection)).
  - reflexivity.
  - by repeat split.
Defined.

(** * Further properties of [flowjax/bijections/bnaf.py] *)

Lemma entry_mtab r c f i j : i < r → j < c → entry (mtab r c f) i j = f i j.
Proof.
  intros Hi Hj. unfold entry.
  rewrite (list_lookup_total_correct _ _ _ (mtab_lookup r c f i Hi)).
  by rewrite (list_lookup_total_correct _ _ _ (vtab_lookup c (f i) j Hj)).
Qed.

(** X1.  For at least one block, [b_diag_mask] and [b_tril_mask] have
    the shape of the weight matrix; the diagonal mask is one exactly on the
    diagonal blocks, which hold [n_blocks * rows * cols] entries, and
    [b_tril_mask] is one exactly on the blocks strictly below them (its
    docstring says upper), so the two masks never overlap. *)
Theorem block_masks (r c n : nat) :
  0 < n →
  has_shape (bnaf.b_diag_mask (r, c) n) (r * n) (c * n)
  ∧ has_shape (bnaf.b_tril_mask (r, c) n) (r * n) (c * n)
  ∧ count_nonzero (bnaf.b_diag_mask (r, c) n) = n * r * c
  ∧ ∀ i j, i < r * n → j < c * n →
      entry (bnaf.b_diag_mask (r, c) n) i j = (if i / r =? j / c then Fin 1 else Fin 0)
      ∧ entry (bnaf.b_tril_mask (r, c) n) i j = (if j / c <? i / r then Fin 1 else Fin 0).
Proof.
  intros _.
  split; [rewrite b_diag_mask_tab; apply has_shape_mtab |].
  split; [rewrite b_tril_mask_tab; apply has_shape_mtab |].
  split; [apply b_diag_mask_count |].
  rewrite b_diag_mask_tab, b_tril_mask_tab. intros i j Hi Hj.
  by rewrite !entry_mtab.
Qed.

Lemma block_masks_witness :
  has_shape (bnaf.b_diag_mask (2, 3) 2) (2 * 2) (3 * 2)
  ∧ has_shape (bnaf.b_tril_mask (2, 3) 2) (2 * 2) (3 * 2)
  ∧ count_nonzero (bnaf.b_diag_mask (2, 3) 2) = 2 * 2 * 3
  ∧ ∀ i j, i < 2 * 2 → j < 3 * 2 →
      entry (bnaf.b_diag_mask (2, 3) 2) i j = (if i / 2 =? j / 3 then Fin 1 else Fin 0)
      ∧ entry (bnaf.b_tril_mask (2, 3) 2) i j = (if j / 3 <? i / 2 then Fin 1 else Fin 0).
Proof. apply (block_masks 2 3 2). lia. Defined.

(** ** Construction of a linear layer *)

Lemma counter_init_finite k r c : Forall (Forall is_finite) (@init counter_random k r c).
Proof.
  apply Forall_forall. intros row Hrow.
  apply elem_of_replicate in Hrow as [-> _].
  apply Forall_forall. intros x Hx. by apply elem_of_replicate in Hx as [-> _].
Qed.

(** X2.  With at least one block, [BlockAutoregressiveLinear.__init__]
    returns a layer whose arrays have the shapes of [out_features =
    block_shape[0] * n_blocks] rows and [in_features = block_shape[1] *
    n_blocks] columns and whose masks are those of its block shape; when
    the initialiser draws finite values, the raw weight [W] is zero at
    every entry above the diagonal blocks. *)
Theorem linear_init_masked `{Random} (key : prng_key) (n : nat) (bs : nat * nat) :
  0 < n →
  (∀ k r c, Forall (Forall is_finite) (init k r c)) →
  ∃ lin,
    bnaf.BlockAutoregressiveLinear.__init__ key n bs = Ok lin
    ∧ linear_wf lin
    ∧ bnaf.BlockAutoregressiveLinear.n_blocks lin = n
    ∧ bnaf.BlockAutoregressiveLinear.block_shape lin = bs
    ∧ bnaf.BlockAutoregressiveLinear.in_features lin = bs.2 * n
    ∧ bnaf.BlockAutoregressiveLinear.out_features lin = bs.1 * n
    ∧ ∀ i j, i < bs.1 * n → j < bs.2 * n → i / bs.1 < j / bs.2 →
        entry (bnaf.BlockAutoregressiveLinear.W lin) i j = Fin 0.
Proof.
  intros Hn Hfin. unfold bnaf.BlockAutoregressiveLinear.__init__.
  destruct (unpack_keys_ok (split key (n + 2)) n (split_length _ _))
    as (w_key & bias_key & scale_key & -> & Hw).
  cbn [mbind result_bind].
  destruct w_key as [|w_key0 w_key]; [simpl in Hw; lia |].
  cbn [first_item mbind result_bind].
  eexists. split; [reflexivity |].
  destruct bs as [r c]. cbn [fst snd].
  assert (has_shape (mzip smul (init w_key0 (r * n) (c * n))
            (mzip sadd (bnaf.b_tril_mask (r, c) n) (bnaf.b_diag_mask (r, c) n)))
            (r * n) (c * n)) as HW.
  { apply mzip_shape; [apply init_shape |].
    rewrite b_tril_mask_tab, b_diag_mask_tab, mzip_mtab. apply has_shape_mtab. }
  split.
  { split; cbn; try done.
    - unfold vmap. by rewrite length_fmap, uniform_length.
    - unfold vmap. by rewrite length_fmap, uniform_length. }
  do 4 (split; [done |]).
  intros i j Hi Hj Hup. cbn [bnaf.BlockAutoregressiveLinear.W].
  rewrite (mat_as_mtab _ _ _ (init_shape w_key0 (r * n) (c * n))).
  rewrite b_tril_mask_tab, b_diag_mask_tab, !mzip_mtab, entry_mtab by done.
  destruct (entry_finite _ _ _ i j (init_shape w_key0 (r * n) (c * n)) (Hfin _ _ _) Hi Hj)
    as [x ->].
  unfold tril_fn, diag_fn.
  destruct (Nat.ltb_spec (j / c) (i / r)); [lia |].
  destruct (Nat.eqb_spec (i / r) (j / c)); [lia |].
  simpl. f_equal. ring.
Qed.

Lemma linear_init_masked_witness :
  ∃ lin,
    @bnaf.BlockAutoregressiveLinear.__init__ counter_random 0 2 (3, 2) = Ok lin
    ∧ linear_wf lin
    ∧ bnaf.BlockAutoregressiveLinear.n_blocks lin = 2
    ∧ bnaf.BlockAutoregressiveLinear.block_shape lin = (3, 2)
    ∧ bnaf.BlockAutoregressiveLinear.in_features lin = 2 * 2
    ∧ bnaf.BlockAutoregressiveLinear.out_features lin = 3 * 2
    ∧ ∀ i j, i < 3 * 2 → j < 2 * 2 → i / 3 < j / 2 →
        entry (bnaf.BlockAutoregressiveLinear.W lin) i j = Fin 0.
Proof.
  apply (linear_init_masked (H := counter_random) 0 2 (3, 2)).
  - lia.
  - exact counter_init_finite.
Defined.

Lemma linear_init_no_blocks `{Random} (key : prng_key) (bs : nat * nat) :
  bnaf.BlockAutoregressiveLinear.__init__ key 0 bs = Raise IndexError.
Proof.
  unfold bnaf.BlockAutoregressiveLinear.__init__.
  destruct (unpack_keys_ok (split key (0 + 2)) 0 (split_length _ _))
    as (w_key & bias_key & scale_key & -> & Hw).
  destruct w_key; [done | simpl in Hw; lia].
Qed.

(** X3.  Neither constructor accepts a dimension of zero: a linear layer
    with [n_blocks = 0] has no key for its weight, so [w_key[0]] raises
    [IndexError], and a network of [dim = 0] raises it from its first
    layer, whatever [n_layers] and [block_size]. *)
Theorem init_without_blocks `{Random} (key : prng_key) (n_layers : Z)
    (block_size : nat * nat) :
  bnaf.BlockAutoregressiveLinear.__init__ key 0 block_size = Raise IndexError
  ∧ bnaf.BlockAutoregressiveNetwork.__init__ key 0 n_layers block_size
    = Raise IndexError.
Proof.
  split; [apply linear_init_no_blocks |].
  unfold bnaf.BlockAutoregressiveNetwork.__init__,
    bnaf.BlockAutoregressiveNetwork.block_sizes.
  cbn [app bnaf.BlockAutoregressiveNetwork.init_loop].
  destruct (split2_ok key) as (key' & subkey & ->). cbn [mbind result_bind].
  by rewrite linear_init_no_blocks.
Qed.

(** ** Weight normalisation *)

Lemma normalised_entry_Fin r c n w (s : nat → scalar) i j sv :
  i < r * n → j < c * n → 0 < c →
  (∀ j', j' < c * n → ∃ x, w i j' = Fin x) →
  s i = Fin sv →
  ∃ nrm m,
    (0 < nrm)%R
    ∧ ssqrt (vsum (vtab (c * n)
        (λ j', smul (masked_entry r c w i j') (masked_entry r c w i j')))) = Fin nrm
    ∧ masked_entry r c w i j = Fin m
    ∧ normalised_entry r c n w s i j = Fin (exp sv * m / nrm).
Proof.
  intros Hi Hj Hc Hfin Hs. unfold normalised_entry.
  destruct (row_norm_positive r c n w i Hi Hc Hfin) as (nrm & Hnrm & Hsqrt).
  destruct (Hfin j Hj) as [x Hx].
  exists nrm. eexists. split; [done |]. split; [done |].
  split; [apply (masked_entry_Fin _ _ _ _ _ _ Hx) |].
  rewrite Hsqrt, Hs, (masked_entry_Fin _ _ _ _ _ _ Hx). simpl.
  by rewrite (Rsign_pos _ Hnrm).
Qed.

Lemma ssqrt_Fin_pos S nrm :
  ssqrt (Fin S) = Fin nrm → (0 < nrm)%R → (0 < S ∧ nrm = sqrt S)%R.
Proof.
  simpl. unfold Rsign. destruct (total_order_T S 0) as [[Hlt|Heq]|Hgt]; [done | |].
  - intros [= <-]. subst. rewrite sqrt_0. lra.
  - intros [= <-]. done.
Qed.

(** X4.  Weight normalisation: for a layer as [__init__] shapes it, with
    finite raw weights and blocks that have a column, every row of the
    matrix returned by [get_normalised_weights] has Euclidean norm
    [exp(W_log_scale)] of that row, in exact arithmetic. *)
Theorem normalised_row_norm (l : bnaf.BlockAutoregressiveLinear.t) (i : nat) (s : R) :
  linear_wf l →
  Forall (Forall is_finite) (bnaf.BlockAutoregressiveLinear.W l) →
  0 < (bnaf.BlockAutoregressiveLinear.block_shape l).2 →
  bnaf.BlockAutoregressiveLinear.W_log_scale l !! i = Some (Fin s) →
  norm_last (bnaf.BlockAutoregressiveLinear.get_normalised_weights l) !! i
  = Some (Fin (exp s)).
Proof.
  intros Hwf HWfin Hc Hs.
  rewrite (get_normalised_weights_tab l Hwf).
  pose proof (wf_W l Hwf) as HW. pose proof (wf_W_log_scale l Hwf) as HS.
  pose proof (lookup_lt_Some _ _ _ Hs) as Hi. rewrite HS in Hi.
  destruct (bnaf.BlockAutoregressiveLinear.block_shape l) as [r c]. simpl in *.
  set (n := bnaf.BlockAutoregressiveLinear.n_blocks l) in *.
  set (w := entry (bnaf.BlockAutoregressiveLinear.W l)).
  rewrite norm_last_mtab, vtab_lookup by done. f_equal.
  assert (∀ j', j' < c * n → ∃ x, w i j' = Fin x) as Hfin.
  { intros j' Hj'. by apply (entry_finite _ _ _ _ _ HW). }
  destruct (row_norm_positive r c n w i Hi Hc Hfin) as (nrm & Hnrm & Hsqrt).
  set (μ := λ j', real_of (masked_entry r c w i j')).
  assert (∀ j', j' < c * n → masked_entry r c w i j' = Fin (μ j')) as Hμ.
  { intros j' Hj'. destruct (Hfin j' Hj') as [x Hx]. unfold μ.
    by rewrite (masked_entry_Fin _ _ _ _ _ _ Hx). }
  rewrite (vtab_ext _ _ (λ j', Fin (μ j' * μ j')%R)) in Hsqrt
    by (intros j' Hj'; by rewrite (Hμ j' Hj')).
  rewrite vtab_Fin, vsum_Fin in Hsqrt.
  apply ssqrt_Fin_pos in Hsqrt as [HS0 Hnrm_eq]; [| done].
  set (S := rsum ((λ j', μ j' * μ j')%R <$> seq 0 (c * n))) in *.
  rewrite (vtab_ext _ _
    (λ j', Fin ((exp s / nrm) * (exp s / nrm) * (μ j' * μ j'))%R)); last first.
  { intros j' Hj'. unfold normalised_entry.
    rewrite (vtab_ext _ _ (λ j', Fin (μ j' * μ j')%R))
      by (intros j'' Hj''; by rewrite (Hμ j'' Hj'')).
    rewrite vtab_Fin, vsum_Fin. fold S.
    rewrite (list_lookup_total_correct _ _ _ Hs), (Hμ j' Hj').
    simpl. rewrite (Rsign_pos _ HS0). rewrite <- Hnrm_eq. simpl.
    rewrite (Rsign_pos _ Hnrm). simpl. f_equal. field. lra. }
  rewrite vtab_Fin, vsum_Fin, rsum_scale. fold S.
  pose proof (exp_pos s) as He.
  assert (nrm * nrm = S)%R as Hsq by (rewrite Hnrm_eq; apply sqrt_sqrt; lra).
  replace (exp s / nrm * (exp s / nrm) * S)%R with (exp s * exp s)%R
    by (rewrite <- Hsq; field; lra).
  simpl. rewrite Rsign_pos by nra. f_equal. apply sqrt_square. lra.
Qed.

Lemma normalised_row_norm_witness :
  norm_last (bnaf.BlockAutoregressiveLinear.get_normalised_weights two_block_layer) !! 1
  = Some (Fin (exp 0)).
Proof.
  apply (normalised_row_norm two_block_layer 1 0).
  - exact two_block_layer_wf.
  - by repeat constructor.
  - simpl; lia.
  - reflexivity.
Defined.

Lemma diagonal_entry_positive (l : bnaf.BlockAutoregressiveLinear.t) (i j : nat) :
  linear_wf l →
  Forall (Forall is_finite) (bnaf.BlockAutoregressiveLinear.W l) →
  Forall is_finite (bnaf.BlockAutoregressiveLinear.W_log_scale l) →
  i < (bnaf.BlockAutoregressiveLinear.block_shape l).1 * bnaf.BlockAutoregressiveLinear.n_blocks l →
  j < (bnaf.BlockAutoregressiveLinear.block_shape l).2 * bnaf.BlockAutoregressiveLinear.n_blocks l →
  i / (bnaf.BlockAutoregressiveLinear.block_shape l).1
    = j / (bnaf.BlockAutoregressiveLinear.block_shape l).2 →
  ∃ v, entry (bnaf.BlockAutoregressiveLinear.get_normalised_weights l) i j = Fin v
       ∧ (0 < v)%R.
Proof.
  intros Hwf HWfin HSfin Hi Hj Hdiag.
  rewrite (get_normalised_weights_tab l Hwf).
  pose proof (wf_W l Hwf) as HW. pose proof (wf_W_log_scale l Hwf) as HS.
  destruct (bnaf.BlockAutoregressiveLinear.block_shape l) as [r c]. simpl in *.
  rewrite entry_mtab by done.
  assert (0 < c) as Hc by nia.
  destruct (bnaf.BlockAutoregressiveLinear.W_log_scale l !! i) as [s|] eqn:Hs;
    [| apply lookup_ge_None in Hs; lia].
  destruct (is_finite_Fin s (Forall_lookup_1 _ _ _ _ HSfin Hs)) as [sv ->].
  destruct (normalised_entry_Fin r c (bnaf.BlockAutoregressiveLinear.n_blocks l)
              (entry (bnaf.BlockAutoregressiveLinear.W l))
              (λ i, bnaf.BlockAutoregressiveLinear.W_log_scale l !!! i) i j sv Hi Hj Hc)
    as (nrm & m & Hnrm & _ & Hm & ->).
  { intros j' Hj'. by apply (entry_finite _ _ _ _ _ HW). }
  { by rewrite (list_lookup_total_correct _ _ _ Hs). }
  eexists. split; [done |].
  destruct (entry_finite _ _ _ i j HW HWfin Hi Hj) as [x Hx].
  rewrite (masked_entry_Fin _ _ _ _ _ _ Hx) in Hm. rewrite Hdiag in Hm.
  rewrite Nat.eqb_refl, Nat.ltb_irrefl in Hm. injection Hm as <-.
  pose proof (exp_pos sv). pose proof (exp_pos x).
  apply Rdiv_lt_0_compat; [| done]. nra.
Qed.

(** X5.  For a layer as [__init__] shapes it, with finite raw weights
    and log-scales, every entry of the normalised weight matrix that lies
    in a diagonal block is a strictly positive real, whatever the sign of
    the raw weight. *)
Theorem normalised_diagonal_positive (l : bnaf.BlockAutoregressiveLinear.t) (i j : nat) :
  linear_wf l →
  Forall (Forall is_finite) (bnaf.BlockAutoregressiveLinear.W l) →
  Forall is_finite (bnaf.BlockAutoregressiveLinear.W_log_scale l) →
  i < (bnaf.BlockAutoregressiveLinear.block_shape l).1 * bnaf.BlockAutoregressiveLinear.n_blocks l →
  j < (bnaf.BlockAutoregressiveLinear.block_shape l).2 * bnaf.BlockAutoregressiveLinear.n_blocks l →
  i / (bnaf.BlockAutoregressiveLinear.block_shape l).1
    = j / (bnaf.BlockAutoregressiveLinear.block_shape l).2 →
  ∃ v, entry (bnaf.BlockAutoregressiveLinear.get_normalised_weights l) i j = Fin v
       ∧ (0 < v)%R.
Proof. apply diagonal_entry_positive. Qed.

Lemma normalised_diagonal_positive_witness :
  ∃ v, entry (bnaf.BlockAutoregressiveLinear.get_normalised_weights two_block_layer) 1 1
       = Fin v
       ∧ (0 < v)%R.
Proof.
  apply (normalised_diagonal_positive two_block_layer 1 1).
  - exact two_block_layer_wf.
  - by repeat constructor.
  - by repeat constructor.
  - simpl; lia.
  - simpl; lia.
  - reflexivity.
Defined.

(** ** The diagonal blocks gathered by a linear layer *)

Lemma imap_fmap_seq {A B} (f : nat → A → B) (g : nat → A) n :
  imap f (g <$> seq 0 n) = (λ i, f i (g i)) <$> seq 0 n.
Proof.
  apply list_eq. intros i. rewrite list_lookup_imap, !list_lookup_fmap.
  by destruct (seq 0 n !! i) as [k|] eqn:E; [apply lookup_seq in E as [-> _] |].
Qed.

Lemma omap_fmap_list {A B C} (f : A → B) (g : B → option C) (l : list A) :
  omap g (f <$> l) = omap (g ∘ f) l.
Proof. induction l as [|a l IH]; csimpl; [done |]. by rewrite IH. Qed.

Lemma omap_all_None {A B} (f : A → option B) (l : list A) :
  Forall (λ a, f a = None) l → omap f l = [].
Proof. induction 1 as [|a l Ha _ IH]; csimpl; [done |]. by rewrite Ha. Qed.

Lemma omap_all_Some {A B} (f : A → option B) (g : A → B) (l : list A) :
  Forall (λ a, f a = Some (g a)) l → omap f l = g <$> l.
Proof. induction 1 as [|a l Ha _ IH]; csimpl; [done |]. by rewrite Ha, IH. Qed.

Lemma omap_block {B} (g : nat → B) q c n :
  q < n →
  omap (λ j, if q =? j / c then Some (g j) else None) (seq 0 (c * n))
  = (λ b, g (q * c + b)) <$> seq 0 c.
Proof.
  intros Hq. destruct (decide (c = 0)) as [->|Hc]; [done |].
  replace (c * n) with (q * c + (c + (c * n - q * c - c))) by nia.
  rewrite !seq_app, !omap_app.
  rewrite (omap_all_None _ (seq 0 (q * c))); last first.
  { apply Forall_forall. intros j Hj. apply elem_of_seq in Hj.
    destruct (Nat.eqb_spec q (j / c)) as [E|]; [| done].
    pose proof (div_lt_iff j c q). lia. }
  rewrite (omap_all_None _ (seq (0 + q * c + c) _)); last first.
  { apply Forall_forall. intros j Hj. apply elem_of_seq in Hj.
    destruct (Nat.eqb_spec q (j / c)) as [E|]; [| done].
    pose proof (div_le_iff j c (q + 1)). lia. }
  rewrite (omap_all_Some _ g); last first.
  { apply Forall_forall. intros j Hj. apply elem_of_seq in Hj.
    destruct (Nat.eqb_spec q (j / c)) as [E|E]; [done |].
    pose proof (div_lt_iff j c (q + 1)). pose proof (div_le_iff j c q). lia. }
  rewrite app_nil_r. simpl.
  transitivity (g <$> (Nat.add (q * c) <$> seq 0 c)).
  - rewrite fmap_add_seq. do 2 f_equal. lia.
  - by rewrite <- list_fmap_compose.
Qed.

Lemma jnp_where_diag r c n :
  jnp_where (mtab (r * n) (c * n) (diag_fn r c))
  = concat ((λ i, (λ b, (i, i / r * c + b)) <$> seq 0 c) <$> seq 0 (r * n)).
Proof.
  unfold jnp_where, mtab. rewrite imap_fmap_seq. f_equal.
  apply list_fmap_ext. intros i ? Hi. apply lookup_seq in Hi as [-> Hi]. simpl.
  rewrite imap_vtab, omap_fmap_list.
  assert (0 < r) as Hr by nia.
  assert (i / r < n) as Hq by (apply Nat.Div0.div_lt_upper_bound; lia).
  rewrite <- (omap_block (λ j, (i, j)) (i / r) c n Hq).
  apply list_omap_ext. apply Forall2_same_length_lookup. split; [done |].
  intros k j j' Hj Hj'. rewrite Hj in Hj'. injection Hj' as <-.
  simpl. unfold diag_fn. destruct (i / r =? j / c).
  - by rewrite nonzero_one.
  - by rewrite nonzero_zero.
Qed.

Lemma fmap_concat_list {A B} (f : A → B) (ls : list (list A)) :
  fmap (M := list) f (concat ls) = concat (fmap (M := list) (fmap (M := list) f) ls).
Proof.
  induction ls as [|l ls IH]; [done |]. simpl. by rewrite fmap_app, IH.
Qed.

Lemma concat_mtab R c g :
  concat (mtab R c g) = vtab (R * c) (λ p, g (p / c) (p mod c)).
Proof.
  induction R as [|R IH]; [done |].
  unfold mtab in *. rewrite seq_S, fmap_app, concat_app, IH. simpl.
  rewrite app_nil_r. replace (c + R * c) with (R * c + c) by lia.
  rewrite vtab_split. f_equal. apply vtab_ext. intros j Hj.
  rewrite (Nat.add_comm (R * c) j), Nat.div_add, Nat.Div0.mod_add by lia.
  by rewrite Nat.div_small, Nat.mod_small by lia.
Qed.

Lemma reshape3_concat_mtab n r c g :
  reshape3 n r c (concat (mtab (r * n) c g))
  = Ok (ttab n r c (λ k a b, g (k * r + a) b)).
Proof.
  rewrite concat_mtab. unfold reshape3.
  rewrite vtab_length.
  replace (r * n * c) with (n * (r * c)) by lia.
  replace (n * r * c) with (n * (r * c)) by lia. rewrite Nat.eqb_refl. f_equal.
  rewrite chunks_vtab, <- list_fmap_compose. unfold ttab.
  apply list_fmap_ext. intros ? k _. simpl.
  rewrite chunks_vtab. unfold mtab. apply list_fmap_ext. intros a ? Ha.
  apply lookup_seq in Ha as [-> Ha]. simpl. apply vtab_ext. intros b Hb.
  replace (k * (r * c) + (a * c + b)) with (b + (k * r + a) * c) by lia.
  rewrite Nat.div_add, Nat.Div0.mod_add by lia.
  by rewrite Nat.div_small, Nat.mod_small by lia.
Qed.

Lemma gather_diag_blocks (w : nat → nat → scalar) r c n :
  gather (mtab (r * n) (c * n) w) (jnp_where (mtab (r * n) (c * n) (diag_fn r c)))
  = concat (mtab (r * n) c (λ i b, w i (i / r * c + b))).
Proof.
  rewrite jnp_where_diag. unfold gather. rewrite fmap_concat_list, <- list_fmap_compose.
  f_equal. unfold mtab at 2. apply list_fmap_ext. intros i ? Hi.
  apply lookup_seq in Hi as [-> Hi]. simpl.
  rewrite <- list_fmap_compose. unfold vtab. apply list_fmap_ext. intros b ? Hb.
  apply lookup_seq in Hb as [-> Hb]. simpl.
  assert (0 < r) as Hr by nia.
  assert (i / r < n) as Hq by (apply Nat.Div0.div_lt_upper_bound; lia).
  apply (entry_mtab (r * n) (c * n) w); [done | nia].
Qed.

Lemma linear_call_blocks (l : bnaf.BlockAutoregressiveLinear.t) dim r c (x : vec) :
  layer_for dim (r, c) l → length x = c * dim →
  ∃ y,
    bnaf.BlockAutoregressiveLinear.__call__ l x
    = Ok (y, ttab dim r c (λ k a b,
               slog (entry (bnaf.BlockAutoregressiveLinear.get_normalised_weights l)
                           (k * r + a) (k * c + b))))
    ∧ length y = r * dim.
Proof.
  intros (Hbs & Hn & Hwf) Hx. unfold bnaf.BlockAutoregressiveLinear.__call__.
  cbv zeta. rewrite (get_normalised_weights_tab l Hwf).
  unfold bnaf.BlockAutoregressiveLinear.b_diag_mask_idxs.
  rewrite (wf_idxs l Hwf), (wf_diag l Hwf).
  pose proof (wf_bias l Hwf) as Hbias.
  rewrite Hbs, Hn in *. simpl in *.
  set (w := normalised_entry r c dim (entry (bnaf.BlockAutoregressiveLinear.W l))
                (λ i, bnaf.BlockAutoregressiveLinear.W_log_scale l !!! i)).
  destruct (matvec_mtab (r * dim) (c * dim) w x Hx) as (Wx & -> & HWx).
  cbn [mbind result_bind].
  rewrite b_diag_mask_tab, gather_diag_blocks, reshape3_concat_mtab.
  cbn [mbind result_bind]. eexists. split.
  - do 2 f_equal. unfold tmap, ttab. rewrite <- list_fmap_compose.
    apply list_fmap_ext. intros k ? Hk. apply lookup_seq in Hk as [-> Hk]. simpl.
    rewrite mmap_mtab. apply mtab_ext. intros a b Ha Hb.
    rewrite entry_mtab by nia.
    replace ((k * r + a) / r) with k; [done |].
    rewrite Nat.div_add_l by lia. rewrite Nat.div_small by lia. lia.
  - unfold vzip. rewrite length_zip_with. lia.
Qed.

Lemma two_block_layer_for : layer_for 2 (1, 1) two_block_layer.
Proof. split; [done |]. split; [done |]. exact two_block_layer_wf. Qed.

(** X6.  For a layer as [__init__] shapes it and an input of length
    [in_features], [__call__] returns an output of length [out_features]
    and the array of shape [(n_blocks, block_shape[0], block_shape[1])]
    whose [k]-th block is the logarithm of the [k]-th diagonal block of
    the normalised weights: entry [(k, a, b)] is the logarithm of the entry
    at row [k * block_shape[0] + a] and column [k * block_shape[1] + b]. *)
Theorem linear_call_jacobian_blocks (l : bnaf.BlockAutoregressiveLinear.t)
    (dim r c : nat) (x : vec) :
  layer_for dim (r, c) l → length x = c * dim →
  ∃ y,
    bnaf.BlockAutoregressiveLinear.__call__ l x
    = Ok (y, ttab dim r c (λ k a b,
               slog (entry (bnaf.BlockAutoregressiveLinear.get_normalised_weights l)
                           (k * r + a) (k * c + b))))
    ∧ length y = r * dim.
Proof. apply linear_call_blocks. Qed.

Lemma linear_call_jacobian_blocks_witness :
  ∃ y,
    bnaf.BlockAutoregressiveLinear.__call__ two_block_layer [Fin 0; Fin 0]
    = Ok (y, ttab 2 1 1 (λ k a b,
               slog (entry (bnaf.BlockAutoregressiveLinear.get_normalised_weights
                              two_block_layer)
                           (k * 1 + a) (k * 1 + b))))
    ∧ length y = 1 * 2.
Proof.
  apply (linear_call_jacobian_blocks two_block_layer 2 1 1 [Fin 0; Fin 0]).
  - exact two_block_layer_for.
  - reflexivity.
Defined.

Lemma Forall_vtab (P : scalar → Prop) n f :
  (∀ i, i < n → P (f i)) → Forall P (vtab n f).
Proof.
  intros Hf. apply Forall_forall. intros x Hx. unfold vtab in Hx.
  apply list_elem_of_fmap in Hx as (i & -> & Hi). apply elem_of_seq in Hi.
  apply Hf. lia.
Qed.

Lemma Forall_mtab (P : scalar → Prop) r c f :
  (∀ i j, i < r → j < c → P (f i j)) → Forall (Forall P) (mtab r c f).
Proof.
  intros Hf. apply Forall_forall. intros row Hrow. unfold mtab in Hrow.
  apply list_elem_of_fmap in Hrow as (i & -> & Hi). apply elem_of_seq in Hi.
  apply Forall_vtab. intros j Hj. apply Hf; lia.
Qed.

Lemma Forall_ttab (P : scalar → Prop) n r c f :
  (∀ k i j, k < n → i < r → j < c → P (f k i j)) →
  Forall (Forall (Forall P)) (ttab n r c f).
Proof.
  intros Hf. apply Forall_forall. intros m Hm. unfold ttab in Hm.
  apply list_elem_of_fmap in Hm as (k & -> & Hk). apply elem_of_seq in Hk.
  apply Forall_mtab. intros i j Hi Hj. apply Hf; lia.
Qed.

Lemma linear_call_finite_blocks (l : bnaf.BlockAutoregressiveLinear.t)
    (dim r c : nat) (x : vec) :
  layer_for dim (r, c) l → length x = c * dim →
  Forall (Forall is_finite) (bnaf.BlockAutoregressiveLinear.W l) →
  Forall is_finite (bnaf.BlockAutoregressiveLinear.W_log_scale l) →
  ∃ y log_jac,
    bnaf.BlockAutoregressiveLinear.__call__ l x = Ok (y, log_jac)
    ∧ length y = r * dim
    ∧ tensor_shape log_jac dim r c
    ∧ Forall (Forall (Forall is_finite)) log_jac.
Proof.
  intros Hl Hx HWfin HSfin.
  destruct (linear_call_blocks l dim r c x Hl Hx) as (y & Hcall & Hy).
  eexists _, _. split; [exact Hcall |]. split; [done |]. split; [apply ttab_shape |].
  destruct Hl as (Hbs & Hn & Hwf).
  apply Forall_ttab. intros k a b Hk Ha Hb.
  destruct (diagonal_entry_positive l (k * r + a) (k * c + b) Hwf HWfin HSfin)
    as (v & -> & Hv).
  - rewrite Hbs, Hn. simpl. nia.
  - rewrite Hbs, Hn. simpl. nia.
  - rewrite Hbs. simpl. rewrite !Nat.div_add_l by lia.
    by rewrite !Nat.div_small by lia.
  - simpl. by rewrite (Rsign_pos _ Hv).
Qed.

(** X7.  For a layer as [__init__] shapes it, with finite raw weights
    and log-scales, and an input of length [in_features], every entry of
    the log-Jacobian array returned by [__call__] is a real number: the
    logarithm is taken of positive entries only, so there is no [-inf] and
    no not-a-number in it. *)
Theorem linear_call_log_jacobian_finite (l : bnaf.BlockAutoregressiveLinear.t)
    (dim r c : nat) (x : vec) :
  layer_for dim (r, c) l → length x = c * dim →
  Forall (Forall is_finite) (bnaf.BlockAutoregressiveLinear.W l) →
  Forall is_finite (bnaf.BlockAutoregressiveLinear.W_log_scale l) →
  ∃ y log_jac,
    bnaf.BlockAutoregressiveLinear.__call__ l x = Ok (y, log_jac)
    ∧ length y = r * dim
    ∧ tensor_shape log_jac dim r c
    ∧ Forall (Forall (Forall is_finite)) log_jac.
Proof. apply linear_call_finite_blocks. Qed.

Lemma linear_call_log_jacobian_finite_witness :
  ∃ y log_jac,
    bnaf.BlockAutoregressiveLinear.__call__ two_block_layer [Fin 0; Fin 0] = Ok (y, log_jac)
    ∧ length y = 1 * 2
    ∧ tensor_shape log_jac 2 1 1
    ∧ Forall (Forall (Forall is_finite)) log_jac.
Proof.
  apply (linear_call_log_jacobian_finite two_block_layer 2 1 1 [Fin 0; Fin 0]).
  - exact two_block_layer_for.
  - reflexivity.
  - by repeat constructor.
  - by repeat constructor.
Defined.

(** ** Errors of the log-domain product and of the activation *)

Lemma has_shape_cons_inv (x : matrix) n k :
  has_shape x n k → 0 < n → ∃ row rest, x = row :: rest ∧ length row = k.
Proof.
  intros [Hlen Hrows] Hn. destruct x as [|row rest]; [simpl in Hlen; lia |].
  exists row, rest. split; [done |]. by inversion Hrows.
Qed.

Lemma matmul_mtab_mismatch n k k' m f g :
  0 < n → k ≠ k' → matmul (mtab n k f) (mtab k' m g) = Raise TypeError.
Proof.
  intros Hn Hne. unfold matmul, nrows. rewrite mtab_length.
  destruct n as [|n]; [lia |].
  unfold mtab. rewrite <- cons_seq, fmap_cons. cbn [forallb].
  rewrite vtab_length. by destruct (Nat.eqb_spec k k').
Qed.

(** X8.  [logmatmulexp] on a left operand of shape [(n, k)] with a row
    and a right operand of shape [(k', m)]: an empty inner dimension
    ([k = 0], or [k' = 0]) raises [ValueError] from the maximum over an
    empty axis, and inner dimensions that differ raise [TypeError] from the
    matrix product. *)
Theorem logmatmulexp_shape_errors (x y : matrix) (n k k' m : nat) :
  has_shape x n k → has_shape y k' m → 0 < n →
  (k = 0 → bnaf.logmatmulexp x y = Raise ValueError)
  ∧ (0 < k → k' = 0 → bnaf.logmatmulexp x y = Raise ValueError)
  ∧ (0 < k → 0 < k' → k ≠ k' → bnaf.logmatmulexp x y = Raise TypeError).
Proof.
  intros Hx Hy Hn. split; [| split].
  - intros ->. destruct (has_shape_cons_inv x n 0 Hx Hn) as (row & rest & -> & Hrow).
    destruct row; [done | simpl in Hrow; lia].
  - intros Hk ->. destruct Hy as [Hy _]. destruct y; [| simpl in Hy; lia].
    rewrite (mat_as_mtab x n k Hx). unfold bnaf.logmatmulexp.
    by rewrite amax_last_mtab by done.
  - intros Hk Hk' Hne.
    rewrite (mat_as_mtab x n k Hx), (mat_as_mtab y k' m Hy).
    unfold bnaf.logmatmulexp.
    rewrite amax_last_mtab, amax_rows_mtab by done. cbn [mbind result_bind].
    rewrite col_op_mtab, row_op_mtab, !mmap_mtab.
    by rewrite matmul_mtab_mismatch.
Qed.

Lemma logmatmulexp_shape_errors_witness :
  (1 = 0 → bnaf.logmatmulexp [[Fin 0]] [[Fin 0]; [Fin 0]] = Raise ValueError)
  ∧ (0 < 1 → 2 = 0 → bnaf.logmatmulexp [[Fin 0]] [[Fin 0]; [Fin 0]] = Raise ValueError)
  ∧ (0 < 1 → 0 < 2 → 1 ≠ 2
     → bnaf.logmatmulexp [[Fin 0]] [[Fin 0]; [Fin 0]] = Raise TypeError).
Proof.
  apply (logmatmulexp_shape_errors [[Fin 0]] [[Fin 0]; [Fin 0]] 1 1 2 1).
  - split; [reflexivity | by repeat constructor].
  - split; [reflexivity | by repeat constructor].
  - lia.
Defined.

(** X9.  [_TanhBNAF.__call__] raises [ZeroDivisionError] when
    [n_blocks] is zero, and [TypeError] (from the reshape of the
    log-derivatives) when the length of the input is not a multiple of
    [n_blocks]; the condition plays no part. *)
Theorem tanh_bnaf_call_errors (self : bnaf._TanhBNAF.t) (x : vec) (condition : option vec) :
  (bnaf._TanhBNAF.n_blocks self = 0
   → bnaf._TanhBNAF.__call__ self x condition = Raise ZeroDivisionError)
  ∧ (0 < bnaf._TanhBNAF.n_blocks self
     → length x mod bnaf._TanhBNAF.n_blocks self ≠ 0
     → bnaf._TanhBNAF.__call__ self x condition = Raise TypeError).
Proof.
  unfold bnaf._TanhBNAF.__call__. split.
  - by intros ->.
  - intros Hn Hmod. destruct (bnaf._TanhBNAF.n_blocks self) as [|n] eqn:E; [lia |].
    cbn [floordiv mbind result_bind]. unfold reshape2, vmap. rewrite length_fmap.
    destruct (Nat.eqb_spec (length x) (S n * (length x / S n))) as [Heq|]; [| done].
    exfalso. apply Hmod. rewrite Heq at 1. rewrite Nat.mul_comm.
    apply Nat.Div0.mod_mul.
Qed.

(** ** The network *)

Section network_properties.
Import bnaf.BlockAutoregressiveNetwork.

Lemma transform_raise_forward (net : t) (x : vec) (condition : option vec) e :
  transform net x condition = Raise e →
  transform_and_log_abs_det_jacobian net x condition = Raise e.
Proof.
  rewrite transform_and_log_abs_det_jacobian_collect.
  unfold transform. rewrite transform_loop_collect.
  destruct (collect (layers net) x) as [[z lds]|e0]; cbn [mbind result_bind]; congruence.
Qed.

(** X10.  [transform] and [transform_and_log_abs_det_jacobian] run the
    same pass over the layers: when the latter returns [(y, logdet)] the
    former returns the same [y], and an exception raised by [transform]
    is raised by [transform_and_log_abs_det_jacobian] as well. *)
Theorem transform_agrees_with_forward_pass (net : t) (x : vec)
    (condition : option vec) :
  (∀ y logdet,
     transform_and_log_abs_det_jacobian net x condition = Ok (y, logdet)
     → transform net x condition = Ok y)
  ∧ (∀ e,
       transform net x condition = Raise e
       → transform_and_log_abs_det_jacobian net x condition = Raise e).
Proof.
  split; [| intros e; apply transform_raise_forward].
  rewrite transform_and_log_abs_det_jacobian_collect.
  unfold transform. rewrite transform_loop_collect.
  destruct (collect (layers net) x) as [[z lds]|e0]; cbn [mbind result_bind]; [| done].
  intros y logdet. destruct (fold_from_last lds); cbn [mbind result_bind]; congruence.
Qed.

Lemma length_bind_pairs {A B} (f g : A → B) (l : list A) :
  length (l ≫= λ a, [f a; g a]) = 2 * length l.
Proof. induction l as [|a l IH]; [done |]. csimpl. rewrite IH. lia. Qed.

Lemma network_init_structure `{Random} (key : prng_key) (dim : nat) (n_layers : Z)
    (block_size : nat * nat) :
  0 < dim →
  ∃ net first others,
    __init__ key dim n_layers block_size = Ok net
    ∧ bnaf.BlockAutoregressiveNetwork.n_layers net = n_layers
    ∧ layers net
      = Linear first
        :: (others ≫= λ l, [Activation (bnaf._TanhBNAF.__init__ dim); Linear l])
    ∧ Forall2 (layer_for dim) (block_sizes n_layers block_size) (first :: others).
Proof.
  intros Hdim. unfold __init__.
  destruct (init_loop_ok dim (block_sizes n_layers block_size) Hdim key [])
    as (lins & -> & Hlins).
  cbn [mbind result_bind].
  unfold block_sizes in *. simpl in Hlins.
  inversion Hlins as [|? first ? others Hfirst Hothers]; subst.
  eexists _, first, others. split; [reflexivity |]. split; [done |].
  cbn [layers app].
  split; [apply (removelast_pairs _ Linear) |].
  by constructor.
Qed.

(** X11.  For a positive [dim], [BlockAutoregressiveNetwork.__init__]
    returns, whatever [n_layers] and [block_size]: the layers are a linear
    layer followed by pairs of a tanh activation and a linear layer, the
    linear layers have the block shapes [(block_size[0], 1)], then
    [block_size] for each inner layer, then [(1, block_size[1])], and there
    are [2 * max n_layers 2 - 1] layers in all, so an [n_layers] below two
    gives the three layers of [n_layers = 2]. *)
Theorem network_init_layers `{Random} (key : prng_key) (dim : nat) (n_layers : Z)
    (block_size : nat * nat) :
  0 < dim →
  ∃ net first others,
    __init__ key dim n_layers block_size = Ok net
    ∧ bnaf.BlockAutoregressiveNetwork.n_layers net = n_layers
    ∧ layers net
      = Linear first
        :: (others ≫= λ l, [Activation (bnaf._TanhBNAF.__init__ dim); Linear l])
    ∧ Forall2 (layer_for dim) (block_sizes n_layers block_size) (first :: others)
    ∧ length (layers net) = 2 * Z.to_nat (Z.max n_layers 2) - 1.
Proof.
  intros Hdim.
  destruct (network_init_structure key dim n_layers block_size Hdim)
    as (net & first & others & Hinit & Hn & Hlayers & Hall).
  exists net, first, others. do 4 (split; [done |]).
  rewrite Hlayers. cbn [length]. rewrite length_bind_pairs.
  apply Forall2_length in Hall.
  unfold block_sizes in Hall.
  rewrite !length_app, length_replicate in Hall. simpl in Hall. lia.
Qed.

Lemma network_init_layers_witness :
  ∃ net first others,
    @__init__ counter_random 0 2 3%Z (4, 4) = Ok net
    ∧ bnaf.BlockAutoregressiveNetwork.n_layers net = 3%Z
    ∧ layers net
      = Linear first
        :: (others ≫= λ l, [Activation (bnaf._TanhBNAF.__init__ 2); Linear l])
    ∧ Forall2 (layer_for 2) (block_sizes 3%Z (4, 4)) (first :: others)
    ∧ length (layers net) = 2 * Z.to_nat (Z.max 3 2) - 1.
Proof. apply (network_init_layers (H := counter_random) 0 2 3%Z (4, 4)). lia. Defined.

Lemma forward_pass_wf (net : t) (dim b : nat) (x : vec) :
  0 < dim → 0 < b → network_wf dim b net → length x = dim →
  ∃ y lds, collect (layers net) x = Ok (y, lds) ∧ chain dim lds 1 1 ∧ length y = dim.
Proof.
  intros Hdim Hb (first & others & middle & Hlayers & Hfirst & Hothers) Hx.
  destruct (linear_call_shape first dim b 1 x Hfirst) as (y1 & t1 & Hcall & Hy1 & Ht1);
    [lia |].
  destruct (forward_pairs dim others Hdim _ Hothers y1 [t1] b 1 1)
    as (z & lds & Hfwd & Hchain & Hz);
    [by apply block_sizes_chain | done | by constructor | done |].
  exists z, lds. split; [| split; [done | lia]].
  rewrite Hlayers. cbn [collect call]. rewrite Hcall. cbn [mbind result_bind].
  rewrite forward_loop_collect in Hfwd.
  destruct (collect _ y1) as [[z' lds']|e]; simpl in *; [| done].
  by injection Hfwd as -> <-.
Qed.

(** X12.  A network built by [__init__] with a positive [dim] and a
    square block size [(b, b)], [b] positive, transforms every input of
    length [dim]: [transform_and_log_abs_det_jacobian] returns an output
    and a log-determinant, [transform] returns the same output, and the
    output has length [dim]. *)
Theorem network_forward_pass_returns `{Random} (key : prng_key) (dim : nat)
    (n_layers : Z) (b : nat) (x : vec) :
  0 < dim → 0 < b → length x = dim →
  ∃ net y logdet,
    __init__ key dim n_layers (b, b) = Ok net
    ∧ transform_and_log_abs_det_jacobian net x None = Ok (y, logdet)
    ∧ transform net x None = Ok y
    ∧ length y = dim.
Proof.
  intros Hdim Hb Hx.
  destruct (network_init_wf key dim n_layers b Hdim) as (net & Hinit & _ & Hwf).
  destruct (forward_pass_wf net dim b x Hdim Hb Hwf Hx) as (y & lds & Hcollect & Hchain & Hy).
  destruct (fold_from_last_chain dim lds 1 1 Hchain) as (logdet & Hfold & _).
  exists net, y, (tsum logdet). split; [done |]. split; [| split; [| done]].
  - rewrite transform_and_log_abs_det_jacobian_collect, Hcollect.
    cbn [mbind result_bind]. by rewrite Hfold.
  - unfold transform. by rewrite transform_loop_collect, Hcollect.
Qed.

Lemma network_forward_pass_returns_witness :
  ∃ net y logdet,
    @__init__ counter_random 0 2 3%Z (2, 2) = Ok net
    ∧ transform_and_log_abs_det_jacobian net [Fin 0; Fin 0] None = Ok (y, logdet)
    ∧ transform net [Fin 0; Fin 0] None = Ok y
    ∧ length y = 2.
Proof.
  apply (network_forward_pass_returns (H := counter_random) 0 2 3%Z 2 [Fin 0; Fin 0]).
  - lia.
  - lia.
  - reflexivity.
Defined.

Lemma matvec_mtab_mismatch r c f (x : vec) :
  0 < r → length x ≠ c → matvec (mtab r c f) x = Raise TypeError.
Proof.
  intros Hr Hne. unfold matvec. destruct r as [|r]; [lia |].
  unfold mtab. rewrite <- cons_seq, fmap_cons. cbn [forallb].
  rewrite vtab_length. by destruct (Nat.eqb_spec c (length x)).
Qed.

Lemma linear_call_mismatch (l : bnaf.BlockAutoregressiveLinear.t) dim r c (x : vec) :
  layer_for dim (r, c) l → 0 < r → 0 < dim → length x ≠ c * dim →
  bnaf.BlockAutoregressiveLinear.__call__ l x = Raise TypeError.
Proof.
  intros (Hbs & Hn & Hwf) Hr Hdim Hx. unfold bnaf.BlockAutoregressiveLinear.__call__.
  cbv zeta. rewrite (get_normalised_weights_tab l Hwf). rewrite Hbs, Hn. simpl.
  rewrite matvec_mtab_mismatch; [done | nia | done].
Qed.

(** X13.  A block size that is not square gives a network that cannot be
    applied: for positive [dim], [r] and [c] with [r ≠ c], [__init__]
    with [block_size = (r, c)] returns a network, and on every input of
    length [dim] both [transform] and
    [transform_and_log_abs_det_jacobian] raise [TypeError], as the first
    layer hands [r * dim] values to a layer that takes [c * dim]. *)
Theorem network_with_oblong_blocks `{Random} (key : prng_key) (dim : nat)
    (n_layers : Z) (r c : nat) (x : vec) :
  0 < dim → 0 < r → 0 < c → r ≠ c → length x = dim →
  ∃ net,
    __init__ key dim n_layers (r, c) = Ok net
    ∧ transform net x None = Raise TypeError
    ∧ transform_and_log_abs_det_jacobian net x None = Raise TypeError.
Proof.
  intros Hdim Hr Hc Hne Hx.
  destruct (network_init_structure key dim n_layers (r, c) Hdim)
    as (net & first & others & Hinit & _ & Hlayers & Hall).
  exists net. split; [done |].
  assert (transform net x None = Raise TypeError) as Htransform.
  { unfold transform. rewrite Hlayers.
    unfold block_sizes in Hall. cbn [fst snd app] in Hall.
    apply Forall2_cons in Hall as [Hfirst Hothers].
    assert (∃ r2 second others', 0 < r2 ∧ others = second :: others'
                                 ∧ layer_for dim (r2, c) second)
      as (r2 & second & others' & Hr2 & -> & Hsecond).
    { destruct (Z.to_nat (n_layers - 2)) as [|k]; simpl in Hothers.
      - apply Forall2_cons_inv_l in Hothers as (second & others' & Hs & _ & ->).
        exists 1, second, others'. auto.
      - apply Forall2_cons_inv_l in Hothers as (second & others' & Hs & _ & ->).
        exists r, second, others'. auto. }
    change ((second :: others') ≫= λ l, [Activation (bnaf._TanhBNAF.__init__ dim); Linear l])
      with (Activation (bnaf._TanhBNAF.__init__ dim) :: Linear second
            :: (others' ≫= λ l, [Activation (bnaf._TanhBNAF.__init__ dim); Linear l])).
    cbn [transform_loop call].
    destruct (linear_call_shape first dim r 1 x Hfirst) as (y1 & t1 & -> & Hy1 & _);
      [lia |].
    cbn [mbind result_bind].
    destruct (tanh_call_shape dim r y1 None Hdim Hy1) as (tA & -> & _).
    cbn [mbind result_bind].
    rewrite (linear_call_mismatch second dim r2 c); [done | done | done | done |].
    unfold vmap. rewrite length_fmap, Hy1. nia. }
  split; [done |]. by apply transform_raise_forward.
Qed.

Lemma network_with_oblong_blocks_witness :
  ∃ net,
    @__init__ counter_random 0 2 3%Z (8, 4) = Ok net
    ∧ transform net [Fin 0; Fin 0] None = Raise TypeError
    ∧ transform_and_log_abs_det_jacobian net [Fin 0; Fin 0] None = Raise TypeError.
Proof.
  apply (network_with_oblong_blocks (H := counter_random) 0 2 3%Z 8 4 [Fin 0; Fin 0]).
  - lia.
  - lia.
  - lia.
  - lia.
  - reflexivity.
Defined.

End network_properties.

(** * Further properties of [flowjax/distributions.py] *)

Lemma sneg_sadd x y : sneg (sadd x y) = sadd (sneg x) (sneg y).
Proof. destruct x, y; simpl; try done. f_equal; lra. Qed.

Lemma ssub_0_r x : ssub x (Fin 0) = x.
Proof. destruct x; simpl; [f_equal; lra | done..]. Qed.

Lemma ssub_ssub x y z : ssub (ssub x y) z = ssub x (sadd y z).
Proof. unfold ssub. by rewrite sneg_sadd, sadd_assoc. Qed.

Lemma mapM_length {A B} (f : A → result B) l bs : mapM f l = Ok bs → length bs = length l.
Proof.
  revert bs. induction l as [|a l IH]; intros bs; simpl; [by intros [= <-] |].
  destruct (f a) as [b|]; [| done]. cbn [mbind result_bind].
  destruct (mapM f l) as [bs'|]; [| done]. cbn [mbind result_bind].
  intros [= <-]. simpl. f_equal. by apply IH.
Qed.

Section public_methods.
Import distributions.
Context `{Random}.

(** ** Shapes of the public methods *)

(** X14.  For an unconditional distribution, a [sample_shape] with a
    dimension of zero makes [sample] and [sample_and_log_prob] raise
    [TypeError]: [_get_sample_keys] splits [max(1, 0) = 1] key and cannot
    reshape it to no keys. *)
Theorem sample_with_empty_sample_shape (d : distribution) (key : prng_key)
    (sample_shape : list nat) (condition : option array) :
  cond_shape d = None → prod sample_shape = 0 →
  sample d key sample_shape condition = Raise TypeError
  ∧ sample_and_log_prob d key sample_shape condition = Raise TypeError.
Proof.
  intros Hcs Hprod.
  unfold sample, sample_and_log_prob, convert_condition, _get_sample_keys.
  rewrite Hcs. cbn [mbind result_bind]. rewrite app_nil_r, Hprod. done.
Qed.

(** X16.  For an unconditional distribution, [log_prob] raises
    [ValueError] when the trailing dimensions of [x] are not [shape]; when
    it returns, the result has the leading dimensions of [x], those before
    [shape], and one log-probability for each index of them. *)
Theorem log_prob_result_shape (d : distribution) (x : array) (condition : option array) :
  cond_shape d = None →
  (drop (length (shape_of x) - length (shape d)) (shape_of x) ≠ shape d
   → log_prob d x condition = Raise ValueError)
  ∧ (∀ lps, log_prob d x condition = Ok lps
       → shape_of x = shape_of lps ++ shape d
         ∧ length (data lps) = prod (shape_of lps)).
Proof.
  intros Hcs. unfold log_prob, convert_condition, _vectorize, unbatch, shape_eqb.
  rewrite Hcs. cbn [mbind result_bind]. split.
  - intros Hne. by rewrite bool_decide_eq_false_2.
  - intros lps. case_bool_decide as Hshape; [| done]. cbn [mbind result_bind].
    destruct (mapM _ _) as [outs|] eqn:Houts; [| done]. cbn [mbind result_bind].
    intros [= <-]. cbn [shape_of data]. split.
    + rewrite <- (take_drop (length (shape_of x) - length (shape d)) (shape_of x)) at 1.
      by rewrite Hshape.
    + apply mapM_length in Houts.
      by rewrite length_fmap, Houts, length_fmap, chunks_length.
Qed.

(** ** [_sample_and_log_prob] of a merged distribution *)

Section forward.
Context (condition : option array).

Lemma transform_and_log_det_Chain bs x :
  transform_and_log_det condition (Chain bs) x = chain_forward condition bs x (Fin 0).
Proof.
  change (transform_and_log_det condition (Chain bs) x)
    with ((fix loop (bs : list bijection) (x : array) (log_det : scalar)
             : result (array * scalar) :=
             match bs with
             | [] => Ok (x, log_det)
             | b' :: bs' =>
                 '(y, log_det_i) ← transform_and_log_det condition b' x;
                 loop bs' y (sadd log_det log_det_i)
             end) bs x (Fin 0)).
  generalize (Fin 0). revert x.
  induction bs as [|b bs IH]; intros x acc; [done |].
  cbn [chain_forward].
  destruct (transform_and_log_det condition b x) as [[y ld]|e]; cbn [mbind result_bind];
    [apply IH | done].
Qed.

Lemma chain_forward_acc bs x acc :
  chain_forward condition bs x acc
  = ('(y, ld) ← chain_forward condition bs x (Fin 0); Ok (y, sadd acc ld)).
Proof.
  revert x acc. induction bs as [|b bs IH]; intros x acc.
  - simpl. by rewrite sadd_0_r.
  - cbn [chain_forward].
    destruct (transform_and_log_det condition b x) as [[y ldi]|e]; cbn [mbind result_bind];
      [| done].
    rewrite (IH y (sadd acc ldi)), (IH y (sadd (Fin 0) ldi)).
    destruct (chain_forward condition bs y (Fin 0)) as [[z ld]|e]; cbn [mbind result_bind];
      [| done].
    by rewrite sadd_0_l, sadd_assoc.
Qed.

Lemma chain_forward_app bs1 bs2 x acc :
  chain_forward condition (bs1 ++ bs2) x acc
  = ('(y, ld) ← chain_forward condition bs1 x acc; chain_forward condition bs2 y ld).
Proof.
  revert x acc. induction bs1 as [|b bs1 IH]; intros x acc; [done |].
  rewrite <- app_comm_cons. cbn [chain_forward].
  destruct (transform_and_log_det condition b x) as [[y ldi]|e]; cbn [mbind result_bind];
    [apply IH | done].
Qed.

Lemma flatten_forward b x :
  chain_forward condition (flatten b) x (Fin 0) = transform_and_log_det condition b x.
Proof.
  revert x. induction b as [l|bs IH] using bijection_ind'; intros x.
  - change (flatten (Leaf l)) with [Leaf l]. cbn [chain_forward].
    destruct (transform_and_log_det condition (Leaf l) x) as [[y ld]|e];
      cbn [mbind result_bind]; [| done].
    by rewrite sadd_0_l.
  - rewrite transform_and_log_det_Chain. generalize (Fin 0). revert x.
    induction IH as [|b bs Hb _ IHbs]; intros x acc; [done |].
    rewrite flatten_chain_cons, chain_forward_app, chain_forward_acc, Hb.
    cbn [chain_forward].
    destruct (transform_and_log_det condition b x) as [[y ld]|e];
      cbn [mbind result_bind]; [apply IHbs | done].
Qed.

Lemma sample_and_log_prob_unnested d key :
  _sample_and_log_prob d key condition
  = ('(z, lp) ← _sample_and_log_prob (innermost d) key condition;
     '(y, ld) ← chain_forward condition (bijections_of d) z (Fin 0);
     Ok (y, ssub lp ld)).
Proof.
  induction d as [c|base_dist IH bijection].
  - cbn [innermost bijections_of chain_forward].
    destruct (_sample_and_log_prob (Concrete c) key condition) as [[z lp]|e];
      cbn [mbind result_bind]; [| done].
    by rewrite ssub_0_r.
  - cbn [_sample_and_log_prob innermost bijections_of]. rewrite IH.
    destruct (_sample_and_log_prob (innermost base_dist) key condition) as [[z lp]|e];
      cbn [mbind result_bind]; [| done].
    rewrite chain_forward_app.
    destruct (chain_forward condition (bijections_of base_dist) z (Fin 0)) as [[y ld]|e];
      cbn [mbind result_bind chain_forward]; [| done].
    destruct (transform_and_log_det condition bijection y) as [[s ldi]|e];
      cbn [mbind result_bind]; [| done].
    by rewrite ssub_ssub.
Qed.

End forward.

Lemma sample_and_log_prob_ext d1 d2 key sample_shape c :
  shape d1 = shape d2 → cond_shape d1 = cond_shape d2 →
  (∀ key c, _sample_and_log_prob d1 key c = _sample_and_log_prob d2 key c) →
  sample_and_log_prob d1 key sample_shape c = sample_and_log_prob d2 key sample_shape c.
Proof.
  intros Hs Hcs Hm. unfold sample_and_log_prob, convert_condition, _get_sample_keys.
  rewrite Hs, Hcs.
  destruct (match cond_shape d2 with Some _ => _ | None => _ end) as [c'|e];
    simpl; [| done].
  match goal with |- context [mbind _ ?m] => destruct m as [[ks keys]|e] end;
    simpl; [| done].
  by rewrite (vectorize_ext d1 d2 (_sample_and_log_prob d1) (_sample_and_log_prob d2)).
Qed.

Lemma merge_transforms_nested base_dist bijection :
  is_transformed base_dist = true →
  valid (Transformed base_dist bijection) →
  merge_transforms base_dist bijection
  = Ok (Transformed (innermost base_dist)
          (Chain (flatten (Chain (bijections_of base_dist ++ [bijection]))))).
Proof.
  intros Hnested Hvalid.
  unfold merge_transforms, new_Transformed. rewrite Hnested, unnest_spec.
  cbn [negb]. unfold merge_chains.
  rewrite reverse_app, reverse_involutive.
  change (reverse [bijection]) with [bijection].
  pose proof (merged_check_init (Transformed base_dist bijection) Hvalid) as Hcheck.
  cbn [innermost bijections_of] in Hcheck. by rewrite Hcheck.
Qed.

(** X17.  For a transformed distribution whose layers have passed their
    construction check, nested or not, [merge_transforms] returns, and
    the distribution it returns has the same [_sample_and_log_prob], and
    with it the same public [sample_and_log_prob], as the distribution it
    was called on: the same sample and the same log-probability (or the
    same exception) for every key, sample shape and condition. *)
Theorem merge_transforms_sample_and_log_prob (base_dist : distribution)
    (bijection : bijection) :
  valid (Transformed base_dist bijection) →
  ∃ merged,
    merge_transforms base_dist bijection = Ok merged
    ∧ (∀ key condition,
         _sample_and_log_prob merged key condition
         = _sample_and_log_prob (Transformed base_dist bijection) key condition)
    ∧ (∀ key sample_shape condition,
         sample_and_log_prob merged key sample_shape condition
         = sample_and_log_prob (Transformed base_dist bijection) key sample_shape condition).
Proof.
  intros Hvalid.
  destruct (is_transformed base_dist) eqn:Hnested; last first.
  { exists (Transformed base_dist bijection). unfold merge_transforms.
    by rewrite Hnested. }
  set (self := Transformed base_dist bijection) in *.
  eexists. split; [by apply merge_transforms_nested |].
  change (bijections_of base_dist ++ [bijection]) with (bijections_of self).
  change (innermost base_dist) with (innermost self).
  set (merged := Transformed (innermost self) (Chain (flatten (Chain (bijections_of self))))).
  assert (∀ key condition,
            _sample_and_log_prob merged key condition
            = _sample_and_log_prob self key condition) as Hsame.
  { intros key condition. rewrite (sample_and_log_prob_unnested condition self).
    unfold merged. cbn [_sample_and_log_prob].
    destruct (_sample_and_log_prob (innermost self) key condition) as [[z lp]|e];
      cbn [mbind result_bind]; [| done].
    by rewrite transform_and_log_det_Chain, flatten_forward, transform_and_log_det_Chain. }
  split; [exact Hsame |].
  intros key sample_shape condition. apply sample_and_log_prob_ext; [| | exact Hsame].
  - unfold merged. cbn [shape]. symmetry. apply shape_innermost.
  - apply (merged_cond_shape self Hvalid).
Qed.

(** X18.  [merge_transforms] is idempotent: whenever it returns, the
    result is a transformed distribution whose base is not itself
    transformed, and calling [merge_transforms] on the result returns the
    result unchanged. *)
Theorem merge_transforms_idempotent (base_dist : distribution) (bijection : bijection)
    (merged : distribution) :
  merge_transforms base_dist bijection = Ok merged →
  ∃ base_dist' bijection',
    merged = Transformed base_dist' bijection'
    ∧ is_transformed base_dist' = false
    ∧ merge_transforms base_dist' bijection' = Ok merged.
Proof.
  unfold merge_transforms at 1.
  destruct (is_transformed base_dist) eqn:Hnested; cbn [negb].
  - rewrite unnest_spec. unfold new_Transformed.
    destruct (__check_init__ _ _); [| done]. cbn [mbind result_bind].
    intros [= <-]. eexists _, _. split; [done |].
    split; [apply innermost_not_transformed |].
    unfold merge_transforms. by rewrite innermost_not_transformed.
  - intros [= <-]. exists base_dist, bijection. split; [done |]. split; [done |].
    unfold merge_transforms. by rewrite Hnested.
Qed.

End public_methods.

Lemma sample_with_empty_sample_shape_witness :
  distributions.sample (distributions.Concrete underflowed_base) 0 [2; 0] None
  = Raise TypeError
  ∧ distributions.sample_and_log_prob (distributions.Concrete underflowed_base)
      0 [2; 0] None
    = Raise TypeError.
Proof.
  apply (sample_with_empty_sample_shape (H := counter_random)
           (distributions.Concrete underflowed_base) 0 [2; 0] None); reflexivity.
Defined.

Lemma log_prob_result_shape_witness :
  (drop (length [2] - length (distributions.shape (distributions.Concrete underflowed_base)))
        [2]
   ≠ distributions.shape (distributions.Concrete underflowed_base)
   → distributions.log_prob (distributions.Concrete underflowed_base)
       {| distributions.shape_of := [2]; distributions.data := [Fin 0; Fin 0] |} None
     = Raise ValueError)
  ∧ (∀ lps,
       distributions.log_prob (distributions.Concrete underflowed_base)
         {| distributions.shape_of := [2]; distributions.data := [Fin 0; Fin 0] |} None
       = Ok lps
       → [2] = distributions.shape_of lps
               ++ distributions.shape (distributions.Concrete underflowed_base)
         ∧ length (distributions.data lps) = distributions.prod (distributions.shape_of lps)).
Proof.
  apply (log_prob_result_shape (distributions.Concrete underflowed_base)
           {| distributions.shape_of := [2]; distributions.data := [Fin 0; Fin 0] |} None).
  reflexivity.
Defined.

Lemma merge_transforms_sample_and_log_prob_witness :
  ∃ merged,
    distributions.merge_transforms degenerate_flow (distributions.Leaf flat_bijection)
    = Ok merged
    ∧ (∀ key condition,
         distributions._sample_and_log_prob merged key condition
         = distributions._sample_and_log_prob
             (distributions.Transformed degenerate_flow
                (distributions.Leaf flat_bijection)) key condition)
    ∧ (∀ key sample_shape condition,
         distributions.sample_and_log_prob merged key sample_shape condition
         = distributions.sample_and_log_prob
             (distributions.Transformed degenerate_flow
                (distributions.Leaf flat_bijection)) key sample_shape condition).
Proof.
  apply (merge_transforms_sample_and_log_prob (H := counter_random) degenerate_flow
           (distributions.Leaf flat_bijection)).
  by repeat split.
Defined.

Lemma merge_transforms_idempotent_witness :
  ∃ base_dist' bijection',
    distributions.Transformed (distributions.Concrete underflowed_base)
      (distributions.Chain [distributions.Leaf flat_bijection;
                            distributions.Leaf flat_bijection])
    = distributions.Transformed base_dist' bijection'
    ∧ distributions.is_transformed base_dist' = false
    ∧ distributions.merge_transforms base_dist' bijection'
      = Ok (distributions.Transformed (distributions.Concrete underflowed_base)
              (distributions.Chain [distributions.Leaf flat_bijection;
                                    distributions.Leaf flat_bijection])).
Proof.
  apply (merge_transforms_idempotent degenerate_flow (distributions.Leaf flat_bijection)).
  reflexivity.
Defined.

(** ** The standard Gumbel and Student T distributions *)

Lemma finite_as_reals (v : vec) : Forall is_finite v → ∃ rs : list R, v = Fin <$> rs.
Proof.
  induction 1 as [|x v Hx _ (rs & ->)]; [by exists [] |].
  destruct (is_finite_Fin x Hx) as [r ->]. by exists (r :: rs).
Qed.

Lemma rsum_ge_length (f : R → R) (rs : list R) :
  (∀ r, 1 <= f r)%R → (INR (length rs) <= rsum (f <$> rs))%R.
Proof.
  intros Hf. induction rs as [|r rs IH]; [simpl; lra |].
  rewrite fmap_cons, rsum_cons. change (length (r :: rs)) with (S (length rs)).
  rewrite S_INR. specialize (Hf r). lra.
Qed.

Lemma vsum_NaN (v : vec) : NaN ∈ v → vsum v = NaN.
Proof.
  unfold vsum. induction v as [|x v IH]; intros Hin; [by apply elem_of_nil in Hin |].
  apply elem_of_cons in Hin as [<-|Hin]; [done |].
  simpl. rewrite (IH Hin). by destruct x.
Qed.

Section gumbel.
Import distributions.
Context `{Random}.
Context (gumbel : prng_key → list nat → array).

(** X19.  The log-density of the standard Gumbel distribution at a point
    with finite entries is finite and at most minus the number of
    entries: each entry contributes [-(x + exp(-x))], which is at most
    [-1]. *)
Theorem gumbel_log_prob_bound (shape : list nat) (x : array) (condition : option array) :
  Forall is_finite (data x) →
  ∃ lp : R,
    _log_prob (Concrete (_StandardGumbel.new gumbel shape)) x condition = Ok (Fin lp)
    ∧ (lp <= - INR (length (data x)))%R.
Proof.
  intros Hfin. destruct (finite_as_reals _ Hfin) as [rs Hrs].
  cbn [_log_prob _StandardGumbel.new c_log_prob]. unfold _StandardGumbel._log_prob.
  rewrite Hrs. unfold vmap. rewrite <- list_fmap_compose.
  rewrite (list_fmap_ext _ (Fin ∘ (λ r, r + exp (- r))%R) rs) by done.
  rewrite list_fmap_compose, vsum_Fin. eexists. split; [done |].
  rewrite !length_fmap.
  pose proof (rsum_ge_length (λ r, r + exp (- r))%R rs) as Hge.
  assert (∀ r, 1 <= r + exp (- r))%R as Hone.
  { intros r. pose proof (exp_ineq1_le (- r)). lra. }
  specialize (Hge Hone). lra.
Qed.

(** X20.  At a point with an entry [-inf] the Gumbel [_log_prob] is
    [nan], from [-inf + exp(inf)], and the public [log_prob] returns
    [-inf] in its place. *)
Theorem gumbel_log_prob_at_minus_infinity (shape : list nat) (x : array) :
  shape_of x = shape → length (data x) = prod shape → NInf ∈ data x →
  _log_prob (Concrete (_StandardGumbel.new gumbel shape)) x None = Ok NaN
  ∧ log_prob (Concrete (_StandardGumbel.new gumbel shape)) x None
    = Ok {| shape_of := []; data := [NInf] |}.
Proof.
  intros Hshape Hlen Hin.
  assert (_StandardGumbel._log_prob x None = Ok NaN) as Hnan.
  { unfold _StandardGumbel._log_prob. f_equal.
    rewrite vsum_NaN; [done |]. unfold vmap.
    apply list_elem_of_fmap. by exists NInf. }
  split; [exact Hnan |].
  unfold log_prob, convert_condition, _vectorize, unbatch, shape_eqb.
  cbn [cond_shape distributions.shape _StandardGumbel.new c_cond_shape c_shape
       mbind result_bind].
  rewrite Hshape, Nat.sub_diag, drop_0, bool_decide_eq_true_2 by done.
  rewrite take_0. change (prod []) with 1. cbn [chunks].
  rewrite <- Hlen, firstn_all. cbn [fmap list_fmap mapM _log_prob c_log_prob].
  destruct x as [s d]. cbn [shape_of data] in *. subst s.
  cbn [_StandardGumbel.new c_log_prob mbind result_bind mapM]. by rewrite Hnan.
Qed.

End gumbel.

Lemma gumbel_log_prob_bound_witness :
  ∃ lp : R,
    distributions._log_prob
      (distributions.Concrete
         (distributions._StandardGumbel.new (H := counter_random) modal_gumbel [2]))
      {| distributions.shape_of := [2]; distributions.data := [Fin 0; Fin 1] |} None
    = Ok (Fin lp)
    ∧ (lp <= - INR (length [Fin 0; Fin 1]))%R.
Proof.
  apply (gumbel_log_prob_bound (H := counter_random) modal_gumbel [2]
           {| distributions.shape_of := [2]; distributions.data := [Fin 0; Fin 1] |} None).
  by repeat constructor.
Defined.

Lemma gumbel_log_prob_at_minus_infinity_witness :
  distributions._log_prob
    (distributions.Concrete
       (distributions._StandardGumbel.new (H := counter_random) modal_gumbel [2]))
    {| distributions.shape_of := [2]; distributions.data := [Fin 0; NInf] |} None
  = Ok NaN
  ∧ distributions.log_prob
      (distributions.Concrete
         (distributions._StandardGumbel.new (H := counter_random) modal_gumbel [2]))
      {| distributions.shape_of := [2]; distributions.data := [Fin 0; NInf] |} None
    = Ok {| distributions.shape_of := []; distributions.data := [NInf] |}.
Proof.
  apply (gumbel_log_prob_at_minus_infinity (H := counter_random) modal_gumbel [2]
           {| distributions.shape_of := [2]; distributions.data := [Fin 0; NInf] |}).
  - reflexivity.
  - reflexivity.
  - apply elem_of_cons. right. apply elem_of_cons. by left.
Defined.

Lemma exp_log_positive v : sle v (Fin 0) = false → sexp (slog v) = v.
Proof.
  destruct v as [r| | |]; simpl; try done.
  destruct (Rle_dec r 0) as [|Hr]; [done |]. intros _.
  rewrite Rsign_pos by lra. simpl. f_equal. apply exp_ln. lra.
Qed.

(** X21.  [_StandardStudentT.__init__] raises [ValueError] when an entry
    of [df] is at most zero; when it returns, the distribution has the
    shape of [df], and the property [df], the exponential of the stored
    logarithm, gives back the degrees of freedom it was built from (over
    the real numbers, where [exp (ln r) = r]). *)
Theorem student_t_init (df : distributions.array) :
  (Exists (λ v, sle v (Fin 0) = true) (distributions.data df)
   → distributions._StandardStudentT.__init__ df = Raise ValueError)
  ∧ (∀ t, distributions._StandardStudentT.__init__ df = Ok t
       → distributions._StandardStudentT.shape t = distributions.shape_of df
         ∧ distributions._StandardStudentT.df t = df).
Proof.
  unfold distributions._StandardStudentT.__init__. split.
  - intros Hex. rewrite (proj2 (existsb_exists _ _)); [done |].
    apply Exists_exists in Hex as (v & Hv & Hle). exists v.
    split; [by apply list_elem_of_In | done].
  - intros t. destruct (existsb _ _) eqn:Hex; [done |]. intros [= <-].
    split; [done |]. unfold distributions._StandardStudentT.df. cbn.
    destruct df as [s d]. cbn in *. f_equal.
    unfold vmap. rewrite <- list_fmap_compose.
    rewrite <- (list_fmap_id d) at 2. apply list_fmap_ext. intros i v Hv. simpl.
    apply exp_log_positive.
    destruct (sle v (Fin 0)) eqn:Hle; [| done].
    assert (existsb (λ v, sle v (Fin 0)) d = true) as Htrue; [| congruence].
    apply existsb_exists. exists v. split; [| done].
    apply list_elem_of_In. by eapply list_elem_of_lookup_2.
Qed.

(** * Properties of [flowjax/train_utils.py] *)

(** ** The order on the scalars *)

Ltac order_cases :=
  repeat match goal with
  | x : scalar |- _ => destruct x
  end;
  unfold slt, sle, seqb in *;
  repeat match goal with
  | |- context [Rle_dec ?a ?b] => destruct (Rle_dec a b)
  | |- context [Req_dec_T ?a ?b] => destruct (Req_dec_T a b)
  | H : context [Rle_dec ?a ?b] |- _ => destruct (Rle_dec a b)
  | H : context [Req_dec_T ?a ?b] |- _ => destruct (Req_dec_T a b)
  end;
  simpl in *; try done; try (exfalso; lra).

Tactic Notation "bind_ok" hyp(H) "as" simple_intropattern(p) ident(E) :=
  match type of H with
  | mbind _ ?m = Ok _ =>
      destruct m as [p|?] eqn:E; cbn [mbind result_bind] in H; [| discriminate H]
  end.

Lemma sle_refl x : isnan x = false → sle x x = true.
Proof. intros. order_cases. Qed.

Lemma slt_sle x y : slt x y = true → sle x y = true.
Proof. intros. order_cases. Qed.

Lemma not_slt_sle x y :
  isnan x = false → isnan y = false → slt x y = false → sle y x = true.
Proof. intros. order_cases. Qed.

Lemma slt_sle_trans x y z : slt x y = true → sle y z = true → slt x z = true.
Proof. intros. order_cases. Qed.

Lemma slt_trans x y z : slt x y = true → slt y z = true → slt x z = true.
Proof. intros. order_cases. Qed.

Lemma seqb_eq x y : seqb x y = true → x = y.
Proof.
  destruct x, y; simpl; try done.
  destruct (Req_dec_T r r0); [by intros _; f_equal | done].
Qed.

Lemma seqb_refl x : isnan x = false → seqb x x = true.
Proof. destruct x; simpl; try done. by destruct (Req_dec_T r r). Qed.

Lemma seqb_sym x y : seqb x y = seqb y x.
Proof.
  destruct x, y; simpl; try done.
  destruct (Req_dec_T r r0), (Req_dec_T r0 r); congruence.
Qed.

(** ** [count_fruitless] *)

Section fruitless.
Import train_utils.
Context {array_format : Rounding}.

Lemma argmin_from_snoc best bi idx l x :
  argmin_from best bi idx (l ++ [x])
  = (let '(m, k) := argmin_from best bi idx l in
     if slt x m || (isnan x && negb (isnan m)) then (x, idx + length l) else (m, k)).
Proof.
  revert best bi idx. induction l as [|y l IH]; intros best bi idx.
  - simpl. rewrite Nat.add_0_r. done.
  - cbn [app argmin_from length].
    replace (idx + S (length l)) with (S idx + length l) by lia.
    destruct (slt y best || (isnan y && negb (isnan best))); apply IH.
Qed.

Lemma argmin_from_value best bi idx l :
  bi < idx →
  ∀ m k, argmin_from best bi idx l = (m, k) →
  (k = bi ∧ m = best) ∨ (idx ≤ k < idx + length l ∧ l !! (k - idx) = Some m).
Proof.
  revert best bi idx. induction l as [|y l IH]; intros best bi idx Hlt m k.
  - simpl. intros [= <- <-]. by left.
  - cbn [argmin_from].
    destruct (slt y best || (isnan y && negb (isnan best))); intros Hm.
    + destruct (IH y idx (S idx) (Nat.lt_succ_diag_r idx) m k Hm) as [[-> ->]|[Hk Hl]].
      * right. rewrite Nat.sub_diag. simpl. split; [lia | done].
      * right. simpl. split; [lia |].
        replace (k - idx) with (S (k - S idx)) by lia. done.
    + destruct (IH best bi (S idx) (Nat.lt_lt_succ_r _ _ Hlt) m k Hm) as [[-> ->]|[Hk Hl]].
      * by left.
      * right. simpl. split; [lia |].
        replace (k - idx) with (S (k - S idx)) by lia. done.
Qed.

Lemma argmin_from_least best bi idx l :
  bi < idx → isnan best = false → Forall (λ x, isnan x = false) l →
  ∀ m k, argmin_from best bi idx l = (m, k) →
  ((k = bi ∧ m = best) ∨ (idx ≤ k ∧ slt m best = true))
  ∧ isnan m = false
  ∧ sle m best = true
  ∧ (∀ j y, l !! j = Some y → sle m y = true)
  ∧ (∀ j y, l !! j = Some y → idx + j < k → slt m y = true).
Proof.
  intros Hlt Hbest Hall. revert best bi idx Hlt Hbest.
  induction Hall as [|x l Hx Hl IH]; intros best bi idx Hlt Hbest m k.
  - simpl. intros [= <- <-]. split; [by left |]. split; [done |].
    split; [by apply sle_refl |]. split; intros j y Hy; by rewrite lookup_nil in Hy.
  - cbn [argmin_from]. rewrite Hx. cbn [andb]. rewrite orb_false_r.
    destruct (slt x best) eqn:Hxb; intros Hm.
    + destruct (IH x idx (S idx) (Nat.lt_succ_diag_r idx) Hx m k Hm)
        as (Hcase & Hnan & Hmx & Hle & Hlt').
      split; [right; split; [destruct Hcase as [[-> _]|[? _]]; lia |] |].
      { destruct Hcase as [[_ ->]|[_ Hmlt]]; [done |]. by apply (slt_trans m x best). }
      split; [done |].
      split; [apply slt_sle; destruct Hcase as [[_ ->]|[_ Hmlt]];
              [done | by apply (slt_trans m x best)] |].
      split.
      * intros [|j] y Hy; simpl in Hy; [by injection Hy as <- | by apply (Hle j)].
      * intros [|j] y Hy Hj; simpl in Hy.
        -- injection Hy as <-. destruct Hcase as [[-> _]|[_ Hmlt]]; [lia | done].
        -- apply (Hlt' j y Hy). lia.
    + destruct (IH best bi (S idx) (Nat.lt_lt_succ_r _ _ Hlt) Hbest m k Hm)
        as (Hcase & Hnan & Hmb & Hle & Hlt').
      pose proof (not_slt_sle x best Hx Hbest Hxb) as Hbx.
      split; [destruct Hcase as [?|[? ?]]; [by left | right; split; [lia | done]] |].
      split; [done |]. split; [done |]. split.
      * intros [|j] y Hy; simpl in Hy; [| by apply (Hle j)].
        injection Hy as <-. destruct Hcase as [[_ ->]|[_ Hmlt]]; [done |].
        apply slt_sle. by apply (slt_sle_trans m best x).
      * intros [|j] y Hy Hj; simpl in Hy; [| apply (Hlt' j y Hy); lia].
        injection Hy as <-. destruct Hcase as [[-> _]|[_ Hmlt]]; [lia |].
        by apply (slt_sle_trans m best x).
Qed.

Lemma argmin_spec (losses : list scalar) k :
  argmin losses = Ok k →
  ∃ x l m, losses = x :: l ∧ argmin_from x 0 1 l = (m, k)
           ∧ k < length losses ∧ losses !! k = Some m.
Proof.
  destruct losses as [|x l]; [done |]. cbn [argmin].
  destruct (argmin_from x 0 1 l) as [m k'] eqn:E. intros [= <-].
  exists x, l, m. split; [done |]. split; [done |].
  destruct (argmin_from_value x 0 1 l Nat.lt_0_1 m k' E) as [[-> ->]|[Hk Hl]].
  - split; [simpl; lia | done].
  - split; [simpl; lia |]. by replace k' with (S (k' - 1)) by lia.
Qed.

Lemma argmin_first_minimum (l : list scalar) :
  l ≠ [] → Forall (λ x, isnan x = false) l →
  ∃ k m,
    argmin l = Ok k
    ∧ k < length l
    ∧ l !! k = Some m
    ∧ (∀ j y, l !! j = Some y → sle m y = true)
    ∧ (∀ j y, l !! j = Some y → j < k → slt m y = true).
Proof.
  intros Hne Hall.
  destruct (argmin l) as [k|e] eqn:Hk; [| by destruct l].
  destruct (argmin_spec l k Hk) as (x & l' & m & -> & Hm & Hlt & Hlook).
  exists k, m. split; [done |]. split; [done |]. split; [done |].
  apply Forall_cons in Hall as [Hx Hl].
  destruct (argmin_from_least x 0 1 l' Nat.lt_0_1 Hx Hl m k Hm)
    as (Hcase & _ & Hmx & Hle & Hlt').
  split.
  - intros [|j] y Hy; simpl in Hy; [by injection Hy as <- | by apply (Hle j)].
  - intros [|j] y Hy Hj; simpl in Hy.
    + injection Hy as <-. destruct Hcase as [[-> _]|[_ Hmlt]]; [lia | done].
    + apply (Hlt' j y Hy). lia.
Qed.

(** X22.  [count_fruitless] raises [ValueError] on an empty list of
    losses.  On a list with an entry and without a not-a-number it returns
    the number [k] of epochs since the minimum of the losses as
    [jnp.array] converts them to the float format of the arrays: [k] is
    less than the number of losses, and the converted loss [k] places
    before the last one is at most every converted loss and strictly less
    than every converted loss before it, so it is the first occurrence of
    the minimum among the converted losses. *)
Theorem count_fruitless_since_minimum :
  count_fruitless [] = Raise ValueError
  ∧ ∀ losses : list scalar,
      losses ≠ [] → Forall (λ x, isnan x = false) losses →
      ∃ k m,
        count_fruitless losses = Ok k
        ∧ k < length losses
        ∧ (rounded <$> losses) !! (length losses - 1 - k) = Some m
        ∧ (∀ j y, losses !! j = Some y → sle m (rounded y) = true)
        ∧ (∀ j y, losses !! j = Some y → j < length losses - 1 - k
             → slt m (rounded y) = true).
Proof.
  split; [done |]. intros losses Hne Hall. unfold count_fruitless.
  destruct (argmin_first_minimum (rounded <$> losses))
    as (k & m & -> & Hlt & Hlook & Hle & Hless).
  { by destruct losses. }
  { apply Forall_fmap. eapply Forall_impl; [exact Hall |].
    intros x Hx. simpl. by rewrite isnan_rounded. }
  rewrite length_fmap in Hlt. cbn [mbind result_bind].
  exists (length losses - k - 1), m. split; [done |]. split; [lia |].
  replace (length losses - 1 - (length losses - k - 1)) with k by lia.
  split; [done |]. split.
  - intros j y Hy. apply (Hle j). by rewrite list_lookup_fmap, Hy.
  - intros j y Hy Hj. apply (Hless j); [| done]. by rewrite list_lookup_fmap, Hy.
Qed.

(** X23.  One more epoch: when [count_fruitless] of the losses so far is
    [k], with [m] the minimum of the converted losses, and the next loss
    [x] is not a not-a-number, the count after appending [x] is [0] if [x]
    converted to the float format of the arrays is strictly less than [m],
    and [k + 1] otherwise, so a loss whose converted value equals the
    minimum counts as fruitless. *)
Theorem count_fruitless_next_epoch (losses : list scalar) (k : nat) (m x : scalar) :
  count_fruitless losses = Ok k →
  (rounded <$> losses) !! (length losses - 1 - k) = Some m →
  isnan x = false →
  count_fruitless (losses ++ [x]) = Ok (if slt (rounded x) m then 0 else S k).
Proof.
  unfold count_fruitless. intros Hk Hm Hx.
  destruct (argmin (rounded <$> losses)) as [i|e] eqn:Hi; [| done].
  cbn [mbind result_bind] in Hk. injection Hk as <-.
  destruct (argmin_spec _ i Hi) as (x0 & l & m' & Hl & Hfrom & Hlt & Hlook).
  rewrite length_fmap in Hlt.
  assert (length losses = S (length l)) as Hlen
    by (by rewrite <- (length_fmap rounded), Hl).
  replace (length losses - 1 - (length losses - i - 1)) with i in Hm by lia.
  rewrite Hlook in Hm. injection Hm as ->.
  rewrite fmap_app, Hl. cbn [fmap list_fmap app]. cbn [argmin].
  rewrite argmin_from_snoc, Hfrom, isnan_rounded, Hx.
  cbn [andb]. rewrite orb_false_r. cbn [mbind result_bind].
  rewrite length_app. cbn [length].
  destruct (slt (rounded x) m); cbn [snd]; f_equal; lia.
Qed.

Lemma py_min_snoc l x m :
  py_min l = Ok m → py_min (l ++ [x]) = Ok (if slt x m then x else m).
Proof.
  destruct l as [|y l]; [done |]. simpl. intros [= <-]. by rewrite foldl_app.
Qed.

Lemma py_min_least l m :
  Forall (λ x, isnan x = false) l → py_min l = Ok m →
  isnan m = false ∧ m ∈ l ∧ ∀ y, y ∈ l → sle m y = true.
Proof.
  revert m. induction l as [|x l IH] using rev_ind; [done |].
  intros m Hall Hm. apply Forall_app in Hall as [Hl Hx].
  rewrite Forall_singleton in Hx.
  destruct l as [|y l].
  - simpl in *. injection Hm as <-. split; [done |].
    split; [apply list_elem_of_singleton; done |].
    intros y Hy. apply list_elem_of_singleton in Hy as ->. by apply sle_refl.
  - destruct (py_min (y :: l)) as [m0|] eqn:Hm0; [| done].
    rewrite (py_min_snoc _ x m0 Hm0) in Hm. injection Hm as <-.
    destruct (IH m0 Hl eq_refl) as (Hnan & Hin & Hle).
    destruct (slt x m0) eqn:Hlt.
    + split; [done |]. split; [apply elem_of_app; right; by apply list_elem_of_singleton |].
      intros z Hz. apply elem_of_app in Hz as [Hz|Hz].
      * apply slt_sle. by apply (slt_sle_trans x m0 z); [| apply Hle].
      * apply list_elem_of_singleton in Hz as ->. by apply sle_refl.
    + split; [done |]. split; [apply elem_of_app; by left |].
      intros z Hz. apply elem_of_app in Hz as [Hz|Hz]; [by apply Hle |].
      apply list_elem_of_singleton in Hz as ->. by apply not_slt_sle.
Qed.

End fruitless.

Lemma count_fruitless_next_epoch_witness :
  train_utils.count_fruitless (array_format := binary32_range)
    ([Fin 0] ++ [Fin (- / 2 ^ 151)])
  = Ok (if slt (rounded (H := binary32_range) (Fin (- / 2 ^ 151))) (Fin 0)
        then 0 else 1).
Proof.
  apply (count_fruitless_next_epoch (array_format := binary32_range)
           [Fin 0] 0 (Fin 0) (Fin (- / 2 ^ 151))).
  - reflexivity.
  - simpl. f_equal. apply binary32_range_rnd_0.
  - reflexivity.
Defined.

(** Two losses that differ by less than the format resolves are one
    minimum, found at the earlier of the two: the second loss is the lower
    one, yet one epoch is counted since the minimum. *)
Lemma count_fruitless_merges_close_losses :
  train_utils.count_fruitless (array_format := binary32_range)
    [Fin 0; Fin (- / 2 ^ 151)]
  = Ok 1.
Proof.
  unfold train_utils.count_fruitless. cbn [fmap list_fmap rounded].
  rewrite (rnd_0 (Rounding := binary32_range)).
  rewrite (binary32_range_underflow (- / 2 ^ 151)); last first.
  { rewrite Rabs_Ropp, Rabs_pos_eq.
    - apply Rinv_lt_contravar.
      + apply Rmult_lt_0_compat; apply pow_lt; lra.
      + apply Rlt_pow; [lra | lia].
    - left. apply Rinv_0_lt_compat, pow_lt. lra. }
  cbn [train_utils.argmin train_utils.argmin_from].
  assert (slt (Fin 0) (Fin 0) = false) as ->; [| reflexivity].
  unfold slt, sle, seqb. destruct (Rle_dec 0 0); [| lra].
  by destruct (Req_dec_T 0 0).
Qed.

(** ** Shuffling and splitting *)

Lemma Int_part_nonneg r : (0 <= r)%R → (0 ≤ Int_part r)%Z.
Proof.
  intros Hr. destruct (base_Int_part r) as [_ Hgt].
  assert (-1 < IZR (Int_part r))%R as Hlt by lra.
  apply lt_IZR in Hlt. lia.
Qed.

Lemma round_half_even_bounds r n :
  (0 <= r)%R → (r <= INR n)%R →
  (0 ≤ train_utils.round_half_even r ≤ Z.of_nat n)%Z.
Proof.
  intros H0 Hn. pose proof (Int_part_nonneg r H0) as Hf.
  destruct (base_Int_part r) as [Hle Hgt].
  rewrite INR_IZR_INZ in Hn.
  assert (Int_part r ≤ Z.of_nat n)%Z as Hfn by (apply le_IZR; lra).
  assert ((0 < frac_part r)%R → (Int_part r + 1 ≤ Z.of_nat n)%Z) as Hstrict.
  { unfold frac_part. intros Hd.
    assert (IZR (Int_part r) < IZR (Z.of_nat n))%R as Hlt by lra.
    apply lt_IZR in Hlt. lia. }
  unfold train_utils.round_half_even.
  destruct (Rlt_dec (frac_part r) (1 / 2)); [lia |].
  destruct (Rlt_dec (1 / 2) (frac_part r)); [split; [lia | apply Hstrict; lra] |].
  destruct (Z.even (Int_part r)); [lia |]. split; [lia | apply Hstrict; lra].
Qed.

Lemma round_half_even_one r : r = 1%R → train_utils.round_half_even r = 1%Z.
Proof.
  intros ->.
  assert (Int_part 1 = 1%Z) as Hint by (symmetry; apply Int_part_spec; simpl; lra).
  unfold train_utils.round_half_even, frac_part. rewrite Hint.
  destruct (Rlt_dec (1 - 1) (1 / 2)); [done | lra].
Qed.

Section splitting.
Import train_utils.
Context `{Permute} {python_float : Binary64}.

Lemma float64_INR (n : nat) :
  (Z.of_nat n ≤ 2 ^ 53)%Z → float64 (INR n) = INR n.
Proof.
  intros Hn. rewrite INR_IZR_INZ. apply float64_integer. lia.
Qed.

Lemma float64_product_bounds (v : R) (n : nat) :
  (0 <= v <= 1)%R → (Z.of_nat n ≤ 2 ^ 53)%Z →
  (0 <= float64 (v * INR n) <= INR n)%R.
Proof.
  intros [Hv0 Hv1] Hn. pose proof (pos_INR n) as Hpos. split.
  - rewrite <- (float64_integer 0) by done. apply float64_monotone. nra.
  - rewrite <- (float64_INR n Hn) at 2. apply float64_monotone. nra.
Qed.

Lemma fmap_lookup_total_seq {A} `{Inhabited A} (a : list A) :
  (λ i, a !!! i) <$> seq 0 (length a) = a.
Proof.
  apply list_eq. intros i. rewrite list_lookup_fmap.
  destruct (decide (i < length a)) as [Hi|Hi].
  - rewrite lookup_seq_lt by done. simpl. symmetry.
    by apply list_lookup_lookup_total_lt.
  - rewrite !lookup_ge_None_2; [done | lia | rewrite length_seq; lia].
Qed.

Lemma take_rows_in_range (a : matrix) (idx : list nat) :
  Forall (λ i, i < length a) idx → take_rows a idx = (λ i, a !!! i) <$> idx.
Proof.
  intros Hall. unfold take_rows. apply list_fmap_ext. intros k i Hi.
  pose proof (Forall_lookup_1 _ _ _ _ Hall Hi) as Hlt. simpl in Hlt.
  by rewrite Nat.min_l by lia.
Qed.

Lemma permutation_in_range (key : prng_key) n :
  Forall (λ i, i < n) (permutation key n).
Proof.
  rewrite (permutation_Permutation key n). apply Forall_forall.
  intros i Hi. apply elem_of_seq in Hi. lia.
Qed.

Lemma take_rows_permutation (key : prng_key) (a : matrix) :
  take_rows a (permutation key (length a)) ≡ₚ a.
Proof.
  rewrite take_rows_in_range by apply permutation_in_range.
  rewrite (permutation_Permutation key (length a)). by rewrite fmap_lookup_total_seq.
Qed.

Lemma length_take_rows (a : matrix) idx : length (take_rows a idx) = length idx.
Proof. unfold take_rows. apply length_fmap. Qed.

Lemma length_permutation (key : prng_key) n : length (permutation key n) = n.
Proof. by rewrite (permutation_Permutation key n), length_seq. Qed.

Lemma random_permutation_multiple_rows (key : prng_key) (arrays : list matrix)
    (a0 : matrix) (rest : list matrix) :
  arrays = a0 :: rest → Forall (λ a, length a = length a0) arrays →
  ∃ shuffle,
    shuffle ≡ₚ seq 0 (length a0)
    ∧ random_permutation_multiple key arrays
      = Ok ((λ a : matrix, (λ i, a !!! i) <$> shuffle) <$> arrays)
    ∧ Forall (λ a : matrix, (λ i, a !!! i) <$> shuffle ≡ₚ a) arrays.
Proof.
  intros -> Hall. exists (permutation key (length a0)).
  split; [apply permutation_Permutation |]. split.
  - unfold random_permutation_multiple. cbn [first_item mbind result_bind]. f_equal.
    apply list_fmap_ext. intros k a Ha.
    pose proof (Forall_lookup_1 _ _ _ _ Hall Ha) as Hlen. simpl in Hlen.
    apply take_rows_in_range. rewrite Hlen. apply permutation_in_range.
  - apply Forall_forall. intros a Ha.
    pose proof (proj1 (Forall_forall _ _) Hall a Ha) as Hlen. simpl in Hlen.
    rewrite <- Hlen, <- take_rows_in_range by apply permutation_in_range.
    apply take_rows_permutation.
Qed.

(** X24.  [random_permutation_multiple] on arrays with the same number of
    rows applies one shuffle, a rearrangement of the row numbers of the
    first array, to every array, so rows that belong together stay
    together, and each array it returns is a rearrangement of the rows of
    the array it was given. *)
Theorem random_permutation_multiple_consistent (key : prng_key) (arrays : list matrix)
    (a0 : matrix) (rest : list matrix) :
  arrays = a0 :: rest → Forall (λ a, length a = length a0) arrays →
  ∃ shuffle,
    shuffle ≡ₚ seq 0 (length a0)
    ∧ random_permutation_multiple key arrays
      = Ok ((λ a : matrix, (λ i, a !!! i) <$> shuffle) <$> arrays)
    ∧ Forall (λ a : matrix, (λ i, a !!! i) <$> shuffle ≡ₚ a) arrays.
Proof. apply random_permutation_multiple_rows. Qed.

Lemma train_val_split_returns (key : prng_key) (arrays : list matrix) (v : R)
    (a0 : matrix) (rest : list matrix) :
  (0 <= v <= 1)%R →
  arrays = a0 :: rest → Forall (λ a, length a = length a0) arrays →
  (Z.of_nat (length a0) ≤ 2 ^ 53)%Z →
  ∃ shuffled n_val,
    train_val_split key arrays (Fin v)
    = Returns (until_last n_val <$> shuffled, last_rows n_val <$> shuffled)
    ∧ n_val = Z.to_nat (round_half_even (float64 (v * INR (length a0))))
    ∧ n_val ≤ length a0
    ∧ Forall2 (λ s a : matrix, s ≡ₚ a) shuffled arrays.
Proof.
  intros Hv Harrays Hall Hsize. pose proof Hv as [Hv0 Hv1]. unfold train_val_split.
  destruct (Rle_dec 0 v); [| done]. destruct (Rle_dec v 1); [| done].
  destruct (split2_ok key) as (key' & subkey & ->). cbn [mbind result_bind].
  destruct (random_permutation_multiple_rows subkey arrays a0 rest Harrays Hall)
    as (shuffle & Hperm & -> & Hrows).
  cbn [mbind result_bind]. subst arrays. cbn [fmap list_fmap first_item mbind result_bind run].
  assert (length ((λ i, a0 !!! i) <$> shuffle) = length a0) as Hlen
    by (by rewrite length_fmap, Hperm, length_seq).
  eexists ((λ a : matrix, (λ i, a !!! i) <$> shuffle) <$> (a0 :: rest)), _.
  rewrite Hlen, (float64_INR _ Hsize).
  split; [reflexivity |]. split; [reflexivity |]. split.
  - destruct (float64_product_bounds v (length a0) Hv Hsize) as [Hlo Hhi].
    destruct (round_half_even_bounds (float64 (v * INR (length a0))) (length a0))
      as [_ Hle]; [done | done | lia].
  - apply Forall2_fmap_l, Forall_Forall2_diag. exact Hrows.
Qed.

(** X25.  [train_val_split] with [0 <= val_prop <= 1] on arrays with the
    same number [n] of rows, [n] at most [2 ^ 53], returns: with [n_val]
    the integer nearest to the binary64 product [val_prop * n], a tie going
    to the even one, which is at most [n], and the arrays shuffled, the
    validation part is the last [n_val] rows of each and the training part
    the rows before them, when [n_val] is positive; when [n_val] is zero
    the slices [a[:-0]] and [a[-0:]] make the training part empty and the
    validation part all of the rows. *)
Theorem train_val_split_partition (key : prng_key) (arrays : list matrix) (v : R)
    (a0 : matrix) (rest : list matrix) :
  (0 <= v <= 1)%R →
  arrays = a0 :: rest → Forall (λ a, length a = length a0) arrays →
  (Z.of_nat (length a0) ≤ 2 ^ 53)%Z →
  ∃ shuffled train val n_val,
    train_val_split key arrays (Fin v) = Returns (train, val)
    ∧ n_val = Z.to_nat (round_half_even (float64 (v * INR (length a0))))
    ∧ n_val ≤ length a0
    ∧ Forall2 (λ s a : matrix, s ≡ₚ a) shuffled arrays
    ∧ (0 < n_val →
       train = take (length a0 - n_val) <$> shuffled
       ∧ val = drop (length a0 - n_val) <$> shuffled)
    ∧ (n_val = 0 → train = (λ _, []) <$> shuffled ∧ val = shuffled).
Proof.
  intros Hv Harrays Hall Hsize.
  destruct (train_val_split_returns key arrays v a0 rest Hv Harrays Hall Hsize)
    as (shuffled & n_val & Hsplit & Hn & Hle & Hshuffled).
  exists shuffled, (until_last n_val <$> shuffled), (last_rows n_val <$> shuffled), n_val.
  do 4 (split; [done |]).
  assert (Forall (λ s : matrix, length s = length a0) shuffled) as Hlens.
  { apply Forall_forall. intros s Hs.
    apply list_elem_of_lookup in Hs as [i Hs].
    destruct (Forall2_lookup_l _ _ _ _ _ Hshuffled Hs) as (a & Ha & Hsa).
    rewrite Hsa. exact (Forall_lookup_1 _ _ _ _ Hall Ha). }
  split.
  - intros Hpos. destruct n_val as [|k]; [lia |]. split.
    + apply Forall_fmap_ext_1. eapply Forall_impl; [exact Hlens |].
      intros s Hs. simpl. by rewrite Hs.
    + apply Forall_fmap_ext_1. eapply Forall_impl; [exact Hlens |].
      intros s Hs. simpl. by rewrite Hs.
  - intros ->. split; [done |]. apply list_fmap_id.
Qed.

End splitting.

Lemma random_permutation_multiple_consistent_witness :
  ∃ shuffle,
    shuffle ≡ₚ seq 0 (length [[Fin 0]; [Fin 1]])
    ∧ train_utils.random_permutation_multiple (H0 := reversing_permute) 0
        [[[Fin 0]; [Fin 1]]; [[Fin 2]; [Fin 3]]]
      = Ok ((λ a : matrix, (λ i, a !!! i) <$> shuffle)
              <$> [[[Fin 0]; [Fin 1]]; [[Fin 2]; [Fin 3]]])
    ∧ Forall (λ a : matrix, (λ i, a !!! i) <$> shuffle ≡ₚ a)
        [[[Fin 0]; [Fin 1]]; [[Fin 2]; [Fin 3]]].
Proof.
  apply (random_permutation_multiple_consistent (H0 := reversing_permute) 0
           [[[Fin 0]; [Fin 1]]; [[Fin 2]; [Fin 3]]]
           [[Fin 0]; [Fin 1]] [[[Fin 2]; [Fin 3]]]).
  - reflexivity.
  - by repeat constructor.
Defined.

Lemma train_val_split_partition_witness :
  ∃ shuffled train val n_val,
    train_utils.train_val_split (H0 := reversing_permute)
      (python_float := exact_binary64) 0
      [[[Fin 0]; [Fin 1]]; [[Fin 2]; [Fin 3]]] (Fin (1 / 2))
    = train_utils.Returns (train, val)
    ∧ n_val
      = Z.to_nat (train_utils.round_half_even
                    (float64 (Binary64 := exact_binary64)
                       (1 / 2 * INR (length [[Fin 0]; [Fin 1]]))))
    ∧ n_val ≤ length [[Fin 0]; [Fin 1]]
    ∧ Forall2 (λ s a : matrix, s ≡ₚ a) shuffled [[[Fin 0]; [Fin 1]]; [[Fin 2]; [Fin 3]]]
    ∧ (0 < n_val →
       train = take (length [[Fin 0]; [Fin 1]] - n_val) <$> shuffled
       ∧ val = drop (length [[Fin 0]; [Fin 1]] - n_val) <$> shuffled)
    ∧ (n_val = 0 → train = (λ _, []) <$> shuffled ∧ val = shuffled).
Proof.
  apply (train_val_split_partition (H0 := reversing_permute)
           (python_float := exact_binary64) 0
           [[[Fin 0]; [Fin 1]]; [[Fin 2]; [Fin 3]]] (1 / 2)
           [[Fin 0]; [Fin 1]] [[[Fin 2]; [Fin 3]]]).
  - lra.
  - reflexivity.
  - by repeat constructor.
  - simpl. lia.
Defined.

(** ** [train_flow] *)

Section training_properties.
Import train_utils.
Context `{Permute} {array_format : Rounding} {python_float : Binary64}.
Context {Flow Params Static Grads Updates OptState : Type}.
Context (flow_log_prob : Flow → matrix → option matrix → result vec).
Context (grad : Flow → matrix → option matrix → Grads).
Context (apply_updates : Flow → Updates → Flow).
Context (partition : Flow → Params * Static).
Context (combine : Params → Static → Flow).
Context (adam : scalar → optimizer (Params := Params) (Grads := Grads)
                          (Updates := Updates) (OptState := OptState)).

Local Abbreviation optimizer_t :=
  (optimizer (Params := Params) (Grads := Grads) (Updates := Updates)
             (OptState := OptState)).
Local Abbreviation state_t := (state (Flow := Flow) (OptState := OptState)).
Local Abbreviation epoch' := (epoch flow_log_prob grad apply_updates).
Local Abbreviation epochs_loop' := (epochs_loop flow_log_prob grad apply_updates partition).
Local Abbreviation epochs_run' := (epochs_run flow_log_prob grad apply_updates).
Local Abbreviation train_flow' :=
  (train_flow flow_log_prob grad apply_updates partition combine adam).

Lemma range_empty step : 0 < step → range 0 step = Ok [].
Proof.
  intros Hstep. unfold range. destruct step as [|k]; [lia |].
  by rewrite (Nat.div_small (0 + S k - 1) (S k)) by lia.
Qed.

Lemma length_until_last {A} k (a : list A) : length (until_last k a) ≤ length a.
Proof. destruct k; simpl; [lia |]. rewrite length_take. lia. Qed.

Lemma epoch_no_batches (optimizer : optimizer_t) batch_size val_args (st : state_t)
    t0 ts val_x val_condition :
  st_train_args st = t0 :: ts →
  0 < batch_size → length t0 ≤ batch_size →
  unpack val_args = Ok (val_x, val_condition) →
  (∀ f a c, ∃ lps, flow_log_prob f a c = Ok lps) →
  epoch' optimizer batch_size val_args st = Raise ZeroDivisionError.
Proof.
  intros Hargs Hbs Hlen Hval Htotal. unfold epoch.
  destruct (split2_ok (st_key st)) as (key' & subkey & ->). cbn [mbind result_bind].
  rewrite Hargs. unfold random_permutation_multiple.
  cbn [first_item mbind result_bind fmap list_fmap].
  rewrite length_take_rows, length_permutation.
  replace (length t0 - batch_size) with 0 by lia.
  rewrite range_empty by done. cbn [mbind result_bind batches_loop].
  rewrite Hval. cbn [mbind result_bind]. unfold loss.
  destruct (Htotal (st_flow st) val_x val_condition) as [lps ->].
  done.
Qed.

(** X26.  A training set that does not exceed one batch: with a flow
    whose [log_prob] returns, [0 <= val_prop <= 1], at least one epoch and
    a positive [batch_size], [train_flow] on an [x] of at most
    [batch_size] rows raises [ZeroDivisionError] in its first epoch, as
    [batches] is empty and the epoch's training loss is divided by
    [len(batches)]. *)
Theorem train_flow_small_training_set (key : prng_key) (flow : Flow) (x : matrix)
    (condition : option matrix) (max_epochs max_patience : nat)
    (learning_rate : scalar) (batch_size : nat) (v : R) :
  (0 <= v <= 1)%R → 0 < max_epochs → 0 < batch_size → length x ≤ batch_size →
  (∀ f a c, ∃ lps, flow_log_prob f a c = Ok lps) →
  train_flow' key flow x condition max_epochs max_patience learning_rate
              batch_size (Fin v)
  = Raises ZeroDivisionError.
Proof.
  intros [Hv0 Hv1] Hepochs Hbs Hx Htotal. unfold train_flow.
  destruct (split2_ok key) as (key' & subkey & ->). cbn [run mbind outcome_bind].
  unfold train_val_split.
  destruct (Rle_dec 0 v); [| done]. destruct (Rle_dec v 1); [| done].
  destruct (split2_ok subkey) as (key'' & subkey' & ->). cbn [mbind result_bind].
  destruct max_epochs as [|epochs]; [lia |].
  destruct (partition flow) as [best_params static] eqn:Hpart.
  cbn [epochs_loop].
  destruct condition as [c|].
  - unfold random_permutation_multiple.
    cbn [first_item mbind result_bind fmap list_fmap run outcome_bind].
    erewrite epoch_no_batches; [done | reflexivity | done | | reflexivity | done].
    etrans; [apply length_until_last |].
    by rewrite length_take_rows, length_permutation.
  - unfold random_permutation_multiple.
    cbn [first_item mbind result_bind fmap list_fmap run outcome_bind].
    erewrite epoch_no_batches; [done | reflexivity | done | | reflexivity | done].
    etrans; [apply length_until_last |].
    by rewrite length_take_rows, length_permutation.
Qed.

Lemma epochs_loop_losses (optimizer : optimizer_t) max_patience batch_size val_args
    epochs :
  ∀ (st : state_t) best_params losses best_params' losses',
  epochs_loop' optimizer max_patience batch_size val_args epochs st best_params losses
  = Ok (best_params', losses') →
  ∃ d, length (train losses') = length (train losses) + d
       ∧ length (val losses') = length (val losses) + d
       ∧ d ≤ epochs
       ∧ (d < epochs → stopped_early max_patience (val losses')).
Proof.
  induction epochs as [|epochs IH];
    intros st best_params losses best_params' losses' Hrun.
  - injection Hrun as <- <-. exists 0.
    split; [lia |]. split; [lia |]. split; [lia |]. lia.
  - cbn [epochs_loop] in Hrun.
    bind_ok Hrun as [[st' mean_train_loss] val_loss] Hepoch.
    bind_ok Hrun as least Hleast.
    cbn [val train] in *.
    destruct (seqb val_loss least) eqn:Hbest.
    + apply IH in Hrun as (d & Htrain & Hval & Hd & Hearly).
      cbn [val train] in *. rewrite length_app in Htrain, Hval. simpl in *.
      exists (S d). split; [lia |]. split; [lia |]. split; [lia |].
      intros Hlt. apply Hearly. lia.
    + bind_ok Hrun as fruitless Hfruitless.
      destruct (max_patience <? fruitless) eqn:Hpatience.
      * injection Hrun as <- <-. cbn [val train]. rewrite !length_app. simpl.
        exists 1. split; [lia |]. split; [lia |]. split; [lia |].
        intros _. exists fruitless, least, val_loss.
        split; [done |]. split; [by apply Nat.ltb_lt |]. split; [done |].
        split; [apply last_snoc | done].
      * apply IH in Hrun as (d & Htrain & Hval & Hd & Hearly).
        cbn [val train] in *. rewrite length_app in Htrain, Hval. simpl in *.
        exists (S d). split; [lia |]. split; [lia |]. split; [lia |].
        intros Hlt. apply Hearly. lia.
Qed.

(** X27.  When [train_flow] returns, the two lists of [losses] have the
    same length, one entry for each epoch run, and at most [max_epochs]
    entries; when there are fewer than [max_epochs], the loop was left by
    [break]: the last validation loss is not the minimum of the
    validation losses and [count_fruitless] of them exceeds
    [max_patience]. *)
Theorem train_flow_losses (key : prng_key) (flow : Flow) (x : matrix)
    (condition : option matrix) (max_epochs max_patience : nat)
    (learning_rate : scalar) (batch_size : nat) (val_prop : scalar)
    (trained : Flow) (losses : losses_t) :
  train_flow' key flow x condition max_epochs max_patience learning_rate
              batch_size val_prop
  = Returns (trained, losses) →
  length (train losses) = length (val losses)
  ∧ length (val losses) ≤ max_epochs
  ∧ (length (val losses) < max_epochs → stopped_early max_patience (val losses)).
Proof.
  unfold train_flow. intros Hrun.
  destruct (run (bnaf.BlockAutoregressiveNetwork.split2 key)) as [[key' subkey]| |];
    cbn [mbind outcome_bind] in Hrun; try done.
  destruct (train_val_split subkey _ val_prop) as [[train_args val_args]| |];
    cbn [mbind outcome_bind] in Hrun; try done.
  destruct (partition flow) as [best_params static].
  destruct (epochs_loop' _ _ _ _ _ _ _ _) as [[best_params' losses']|e] eqn:Hloop;
    cbn [run mbind outcome_bind] in Hrun; [| done].
  injection Hrun as _ <-.
  apply epochs_loop_losses in Hloop as (d & Htrain & Hval & Hd & Hearly).
  simpl in Htrain, Hval. rewrite Htrain, Hval. done.
Qed.

Lemma epochs_loop_best (optimizer : optimizer_t) max_patience batch_size val_args
    epochs :
  ∀ (st : state_t) best_params losses best_params' losses',
  epochs_loop' optimizer max_patience batch_size val_args epochs st best_params losses
  = Ok (best_params', losses') →
  ∃ vs,
    val losses' = val losses ++ vs
    ∧ ((best_params' = best_params
        ∧ ∀ i v least, vs !! i = Some v →
            py_min (val losses ++ take (S i) vs) = Ok least → seqb v least = false)
       ∨ ∃ j st_j v_j,
           vs !! j = Some v_j
           ∧ epochs_run' optimizer batch_size val_args (S j) st = Ok st_j
           ∧ best_params' = (partition (st_flow st_j)).1
           ∧ py_min (val losses ++ take (S j) vs) = Ok v_j
           ∧ ∀ i v least, j < i → vs !! i = Some v →
               py_min (val losses ++ take (S i) vs) = Ok least → seqb v least = false).
Proof.
  induction epochs as [|epochs IH];
    intros st best_params losses best_params' losses' Hrun.
  - injection Hrun as <- <-. exists []. split; [by rewrite app_nil_r |].
    left. split; [done |]. intros i v least Hv. by rewrite lookup_nil in Hv.
  - cbn [epochs_loop] in Hrun.
    bind_ok Hrun as [[st' mean_train_loss] val_loss] Hepoch.
    bind_ok Hrun as least Hleast.
    cbn [val train] in *.
    assert (∀ i vs', val losses ++ take (S (S i)) (val_loss :: vs')
                     = (val losses ++ [val_loss]) ++ take (S i) vs') as Hshift.
    { intros i vs'. by rewrite <- app_assoc. }
    assert (val losses ++ take 1 [val_loss] = val losses ++ [val_loss]) as Hone by done.
    destruct (seqb val_loss least) eqn:Hbest.
    + apply seqb_eq in Hbest as ->.
      apply IH in Hrun as (vs & Hval & Hcases). cbn [val] in *.
      exists (least :: vs). split; [by rewrite Hval, <- app_assoc |].
      right. destruct Hcases as [[-> Hnone]|(j & st_j & v_j & Hj & Hrun_j & -> & Hmin & Hlater)].
      * exists 0, st', least. split; [done |]. split.
        { cbn [epochs_run]. by rewrite Hepoch. }
        split; [done |]. split; [done |].
        intros [|i] v least' Hi Hv; [lia |]. rewrite Hshift. by apply Hnone.
      * exists (S j), st_j, v_j. split; [done |]. split.
        { cbn [epochs_run] in *. by rewrite Hepoch. }
        split; [done |]. split; [by rewrite Hshift |].
        intros [|i] v least' Hi Hv; [lia |]. rewrite Hshift. apply Hlater; [lia | done].
    + bind_ok Hrun as fruitless Hfruitless.
      destruct (max_patience <? fruitless).
      * injection Hrun as <- <-. cbn [val]. exists [val_loss]. split; [done |].
        left. split; [done |]. intros [|i] v least' Hv; [| done].
        injection Hv as <-. intros Hleast'.
        assert (Ok least = Ok least') as [= <-] by (rewrite <- Hleast; exact Hleast').
        done.
      * apply IH in Hrun as (vs & Hval & Hcases). cbn [val] in *.
        exists (val_loss :: vs). split; [by rewrite Hval, <- app_assoc |].
        destruct Hcases as [[-> Hnone]|(j & st_j & v_j & Hj & Hrun_j & -> & Hmin & Hlater)].
        -- left. split; [done |]. intros [|i] v least' Hv.
           ++ injection Hv as <-. intros Hleast'.
              assert (Ok least = Ok least') as [= <-]
                by (rewrite <- Hleast; exact Hleast').
              done.
           ++ rewrite Hshift. by apply Hnone.
        -- right. exists (S j), st_j, v_j. split; [done |]. split.
           { cbn [epochs_run] in *. by rewrite Hepoch. }
           split; [done |]. split; [by rewrite Hshift |].
           intros [|i] v least' Hi Hv; [lia |]. rewrite Hshift. apply Hlater; [lia | done].
Qed.

Lemma last_minimum (vs : list scalar) (j : nat) (v_j : scalar) :
  Forall (λ v, isnan v = false) vs →
  vs !! j = Some v_j →
  py_min (take (S j) vs) = Ok v_j →
  (∀ i v least, j < i → vs !! i = Some v →
     py_min (take (S i) vs) = Ok least → seqb v least = false) →
  (∀ i v, vs !! i = Some v → sle v_j v = true)
  ∧ (∀ i v, vs !! i = Some v → j < i → slt v_j v = true).
Proof.
  intros Hall Hj Hmin Hlater.
  assert (∀ d i, i = j + d → i < length vs → py_min (take (S i) vs) = Ok v_j) as Hsame.
  { induction d as [|d IH]; intros i -> Hi; [by rewrite Nat.add_0_r |].
    destruct (vs !! (j + S d)) as [v|] eqn:Hv; [| apply lookup_ge_None in Hv; lia].
    specialize (IH (j + d) eq_refl ltac:(lia)).
    replace (j + S d) with (S (j + d)) in * by lia.
    pose proof (py_min_snoc _ v _ IH) as Hsnoc.
    rewrite <- (take_S_r _ _ _ Hv) in Hsnoc.
    pose proof (Hlater (S (j + d)) v _ ltac:(lia) Hv Hsnoc) as Hne.
    rewrite Hsnoc. destruct (slt v v_j); [| done].
    rewrite seqb_refl in Hne; [done |].
    exact (Forall_lookup_1 _ _ _ _ Hall Hv). }
  assert (∀ i v, vs !! i = Some v → j < i → slt v_j v = true) as Hstrict.
  { intros i v Hv Hi. pose proof (lookup_lt_Some _ _ _ Hv) as Hlt.
    pose proof (Hsame (i - j) i ltac:(lia) Hlt) as Hmin_i.
    pose proof (Hlater i v _ Hi Hv Hmin_i) as Hne.
    destruct (py_min_least (take (S i) vs) v_j (Forall_take _ _ _ Hall) Hmin_i)
      as (_ & _ & Hle).
    unfold slt. rewrite Hle, seqb_sym, Hne; [done |].
    apply (list_elem_of_lookup_2 _ i). rewrite lookup_take_lt by lia. done. }
  split; [| exact Hstrict].
  intros i v Hv. destruct (decide (j < i)) as [Hi|Hi].
  - apply slt_sle. by apply (Hstrict i).
  - destruct (py_min_least (take (S j) vs) v_j (Forall_take _ _ _ Hall) Hmin)
      as (_ & _ & Hle).
    apply Hle. apply (list_elem_of_lookup_2 _ i). rewrite lookup_take_lt by lia. done.
Qed.

(** X28.  When [train_flow] returns after at least one epoch and no
    validation loss is a not-a-number, the flow it returns is not the flow
    of the last epoch but the one with the parameters of the best epoch:
    there is an epoch [j] whose validation loss is at most every
    validation loss and strictly less than every later one, and the
    returned flow combines the arrays of the flow as it was after epoch
    [j] with the static part of the flow that was passed in. *)
Theorem train_flow_returns_best_parameters (key : prng_key) (flow : Flow) (x : matrix)
    (condition : option matrix) (max_epochs max_patience : nat)
    (learning_rate : scalar) (batch_size : nat) (val_prop : scalar)
    (trained : Flow) (losses : losses_t) :
  train_flow' key flow x condition max_epochs max_patience learning_rate
              batch_size val_prop
  = Returns (trained, losses) →
  val losses ≠ [] → Forall (λ v, isnan v = false) (val losses) →
  ∃ key' subkey train_args val_args j st_j v_j,
    bnaf.BlockAutoregressiveNetwork.split2 key = Ok (key', subkey)
    ∧ train_val_split subkey (match condition with None => [x] | Some c => [x; c] end)
                      val_prop
      = Returns (train_args, val_args)
    ∧ epochs_run' (adam learning_rate) batch_size val_args (S j)
        (initial_state partition key' flow (adam learning_rate) train_args)
      = Ok st_j
    ∧ trained = combine (partition (st_flow st_j)).1 (partition flow).2
    ∧ val losses !! j = Some v_j
    ∧ (∀ i v, val losses !! i = Some v → sle v_j v = true)
    ∧ (∀ i v, val losses !! i = Some v → j < i → slt v_j v = true).
Proof.
  unfold train_flow. intros Hrun Hne Hall.
  destruct (bnaf.BlockAutoregressiveNetwork.split2 key) as [[key' subkey]|];
    cbn [run mbind outcome_bind] in Hrun; [| done].
  destruct (train_val_split subkey _ val_prop) as [[train_args val_args]| |] eqn:Hsplit;
    cbn [mbind outcome_bind] in Hrun; try done.
  destruct (partition flow) as [best_params static] eqn:Hpart.
  destruct (epochs_loop' _ _ _ _ _ _ _ _) as [[best_params' losses']|e] eqn:Hloop;
    cbn [run mbind outcome_bind] in Hrun; [| done].
  injection Hrun as <- <-.
  apply epochs_loop_best in Hloop as (vs & Hval & Hcases). cbn [val app] in Hval.
  rewrite Hval in *.
  destruct Hcases as [[_ Hnone]|(j & st_j & v_j & Hj & Hrun_j & -> & Hmin & Hlater)].
  - exfalso. destruct vs as [|v vs]; [done |].
    apply Forall_cons in Hall as [Hv _].
    specialize (Hnone 0 v v eq_refl eq_refl). by rewrite seqb_refl in Hnone.
  - cbn [val app] in Hmin, Hlater.
    destruct (last_minimum vs j v_j Hall Hj Hmin Hlater) as [Hle Hlt].
    exists key', subkey, train_args, val_args, j, st_j, v_j.
    split; [done |]. split; [done |]. split; [done |]. done.
Qed.

End training_properties.

(** A run of [train_flow] on three rows, one epoch, batches of one row
    and a third of the rows held out. *)

Lemma sdiv_Fin_one a b : b = 1%R → sdiv (Fin a) (Fin b) = Fin (a / 1).
Proof. intros ->. simpl. by rewrite Rsign_pos by lra. Qed.

Lemma train_counter_runs :
  train_counter [[Fin 0]; [Fin 1]; [Fin 2]] 1 1 (Fin (1 / 3))
  = train_utils.Returns
      (1, {| train_utils.train := [Fin 0]; train_utils.val := [Fin 0] |}).
Proof.
  unfold train_counter, train_utils.train_flow, train_utils.train_val_split.
  destruct (Rle_dec 0 (1 / 3)); [| lra]. destruct (Rle_dec (1 / 3) 1); [| lra].
  cbn -[train_utils.round_half_even Rmult Rdiv INR train_utils.epochs_loop].
  rewrite (round_half_even_one (1 / 3 * INR 3)) by (simpl; lra).
  change (Z.to_nat 1) with 1.
  cbn -[Rmult Rdiv INR sdiv mean].
  assert (mean [Fin 0] = Fin ((0 + 0) / 1)) as ->
    by (unfold mean; cbn -[sdiv INR]; apply sdiv_Fin_one; simpl; lra).
  cbn -[Rmult Rdiv INR sdiv seqb].
  rewrite seqb_refl by done. rewrite sdiv_Fin_one by (simpl; lra).
  cbn [train_utils.run mbind train_utils.outcome_bind].
  replace ((0 + - ((0 + 0) / 1)) / 1)%R with 0%R by lra.
  by replace (- ((0 + 0) / 1))%R with 0%R by lra.
Qed.

Lemma train_flow_small_training_set_witness :
  train_counter [[Fin 0]; [Fin 1]] 1 2 (Fin (1 / 2))
  = train_utils.Raises ZeroDivisionError.
Proof.
  apply (train_flow_small_training_set (H0 := reversing_permute)
           (array_format := binary32_range) (python_float := exact_binary64)
           zero_log_prob (λ _ _ _, ()) (λ flow _, S flow) (λ flow, (flow, ()))
           (λ params _, params) (λ _, counting_optimizer)
           0 0 [[Fin 0]; [Fin 1]] None 1 5 (Fin (1 / 1000)) 2 (1 / 2)).
  - lra.
  - lia.
  - lia.
  - simpl. lia.
  - intros f a c. by exists [Fin 0].
Defined.

Lemma train_flow_losses_witness :
  length [Fin 0] = length [Fin 0]
  ∧ length [Fin 0] ≤ 1
  ∧ (length [Fin 0] < 1
     → train_utils.stopped_early (array_format := binary32_range) 5 [Fin 0]).
Proof.
  apply (train_flow_losses (H0 := reversing_permute)
           (array_format := binary32_range) (python_float := exact_binary64)
           zero_log_prob (λ _ _ _, ()) (λ flow _, S flow) (λ flow, (flow, ()))
           (λ params _, params) (λ _, counting_optimizer)
           0 0 [[Fin 0]; [Fin 1]; [Fin 2]] None 1 5 (Fin (1 / 1000)) 1 (Fin (1 / 3))
           1 {| train_utils.train := [Fin 0]; train_utils.val := [Fin 0] |}).
  exact train_counter_runs.
Defined.

Lemma train_flow_returns_best_parameters_witness :
  ∃ key' subkey train_args val_args j st_j v_j,
    bnaf.BlockAutoregressiveNetwork.split2 (H := counter_random) 0 = Ok (key', subkey)
    ∧ train_utils.train_val_split (H0 := reversing_permute)
        (python_float := exact_binary64) subkey
        [[[Fin 0]; [Fin 1]; [Fin 2]]] (Fin (1 / 3))
      = train_utils.Returns (train_args, val_args)
    ∧ train_utils.epochs_run zero_log_prob (λ _ _ _, ()) (λ flow _, S flow)
        counting_optimizer 1 val_args (S j)
        (train_utils.initial_state (λ flow, (flow, ())) key' 0 counting_optimizer
           train_args)
      = Ok st_j
    ∧ 1 = (train_utils.st_flow st_j, ()).1
    ∧ [Fin 0] !! j = Some v_j
    ∧ (∀ i v, [Fin 0] !! i = Some v → sle v_j v = true)
    ∧ (∀ i v, [Fin 0] !! i = Some v → j < i → slt v_j v = true).
Proof.
  apply (train_flow_returns_best_parameters (H0 := reversing_permute)
           (array_format := binary32_range) (python_float := exact_binary64)
           zero_log_prob (λ _ _ _, ()) (λ flow _, S flow) (λ flow, (flow, ()))
           (λ params _, params) (λ _, counting_optimizer)
           0 0 [[Fin 0]; [Fin 1]; [Fin 2]] None 1 5 (Fin (1 / 1000)) 1 (Fin (1 / 3))
           1 {| train_utils.train := [Fin 0]; train_utils.val := [Fin 0] |}).
  - exact train_counter_runs.
  - done.
  - by repeat constructor.
Defined.

(** * Properties of [flowjax/train/variational_fit.py] *)

Lemma ndindex_vector n : distributions.ndindex [n] = (λ i, [i]) <$> seq 0 n.
Proof.
  cbn [distributions.ndindex]. generalize 0.
  induction n as [|n IH]; intros s; [done |]. csimpl. by rewrite IH.
Qed.

Lemma ravel_vector n i : i < n → distributions.ravel [n] [i] = i.
Proof.
  intros Hi. unfold distributions.ravel. simpl.
  destruct (Nat.eqb_spec n 1); lia.
Qed.

Lemma mapM_app {A B} (f : A → result B) l1 l2 :
  mapM f (l1 ++ l2) = (bs1 ← mapM f l1; bs2 ← mapM f l2; Ok (bs1 ++ bs2)).
Proof.
  induction l1 as [|a l1 IH]; simpl.
  - by destruct (mapM f l2).
  - destruct (f a) as [b|]; [| done]. cbn [mbind result_bind]. rewrite IH.
    destruct (mapM f l1) as [bs1|]; [| done]. cbn [mbind result_bind].
    by destruct (mapM f l2).
Qed.

Lemma mapM_zip (f : scalar → scalar → scalar) (a b : vec) n :
  length a = n → length b = n →
  mapM (λ idx, x ← distributions.item a (distributions.ravel [n] idx);
               y ← distributions.item b (distributions.ravel [n] idx);
               Ok (f x y))
       ((λ i, [i]) <$> seq 0 n)
  = Ok (zip_with f a b).
Proof.
  intros Ha Hb.
  assert (∀ k, k ≤ n →
            mapM (λ idx, x ← distributions.item a (distributions.ravel [n] idx);
                         y ← distributions.item b (distributions.ravel [n] idx);
                         Ok (f x y))
                 ((λ i, [i]) <$> seq 0 k)
            = Ok (zip_with f (take k a) (take k b))) as Hk.
  { induction k as [|k IH]; intros Hle; [done |].
    rewrite seq_S, fmap_app, mapM_app, IH by lia. cbn [mbind result_bind].
    simpl. rewrite ravel_vector by lia. unfold distributions.item.
    destruct (a !! k) as [x|] eqn:Hx; [| apply lookup_ge_None in Hx; lia].
    destruct (b !! k) as [y|] eqn:Hy; [| apply lookup_ge_None in Hy; lia].
    cbn [mbind result_bind]. f_equal.
    rewrite (take_S_r a k x Hx), (take_S_r b k y Hy).
    rewrite zip_with_app by (rewrite !length_take; lia). done. }
  rewrite (Hk n (le_n n)). by rewrite <- Ha, firstn_all, Ha, <- Hb, firstn_all.
Qed.

Lemma broadcast_binary_vectors (f : scalar → scalar → scalar)
    (a b : distributions.array) n :
  distributions.shape_of a = [n] → distributions.shape_of b = [n] →
  length (distributions.data a) = n → length (distributions.data b) = n →
  variational_fit.broadcast_binary f a b
  = Ok {| distributions.shape_of := [n];
          distributions.data := zip_with f (distributions.data a) (distributions.data b) |}.
Proof.
  intros Hsa Hsb Ha Hb. unfold variational_fit.broadcast_binary.
  rewrite Hsa, Hsb.
  assert (distributions.broadcast_shapes [n] [n] = Ok [n]) as ->.
  { unfold distributions.broadcast_shapes. simpl. by rewrite Nat.eqb_refl. }
  cbn [mbind result_bind]. rewrite ndindex_vector, (mapM_zip f _ _ n Ha Hb). done.
Qed.

Section elbo.
Import distributions.
Context `{Random}.

Lemma sample_and_log_prob_vector (d : distribution) (key : prng_key) (n : nat)
    (condition : option array) samples lps :
  cond_shape d = None → 0 < n →
  sample_and_log_prob d key [n] condition = Ok (samples, lps) →
  shape_of lps = [n] ∧ length (data lps) = n.
Proof.
  intros Hcs Hn. unfold sample_and_log_prob, convert_condition, _get_sample_keys, _vectorize.
  rewrite Hcs. cbn [mbind result_bind]. rewrite app_nil_r.
  replace (prod [n]) with n by (simpl; lia).
  replace (Nat.max 1 n) with n by lia. rewrite Nat.eqb_refl. cbn [mbind result_bind].
  destruct (mapM _ _) as [rs|] eqn:Hrs; [| done]. cbn [mbind result_bind].
  intros [= <- <-]. cbn [shape_of data]. split; [done |].
  apply mapM_length in Hrs. by rewrite length_fmap, Hrs, split_length.
Qed.

(** X29.  [elbo_loss] on an unconditional distribution: with
    [num_samples = 0] it raises [TypeError], from the reshape of the
    sample keys, before [target] is called; with a positive
    [num_samples], when [sample_and_log_prob] returns and [target]
    returns one density for each sample, it returns the mean over the
    samples of the approximate log-density minus the target
    log-density. *)
Theorem elbo_loss_value (key : prng_key) (dist : distribution)
    (target : array → result array) (num_samples : nat) :
  cond_shape dist = None →
  (num_samples = 0 → variational_fit.elbo_loss key dist target num_samples = Raise TypeError)
  ∧ (∀ samples approx_density target_density,
       0 < num_samples →
       sample_and_log_prob dist key [num_samples] None = Ok (samples, approx_density) →
       target samples = Ok target_density →
       shape_of target_density = [num_samples] →
       length (data target_density) = num_samples →
       variational_fit.elbo_loss key dist target num_samples
       = Ok (mean (zip_with ssub (data approx_density) (data target_density)))).
Proof.
  intros Hcs. split.
  - intros ->. unfold variational_fit.elbo_loss.
    unfold sample_and_log_prob, convert_condition, _get_sample_keys.
    by rewrite Hcs.
  - intros samples lps t Hn Hsample Htarget Hshape Hlen.
    destruct (sample_and_log_prob_vector dist key num_samples None samples lps
                Hcs Hn Hsample) as [Hs Hl].
    unfold variational_fit.elbo_loss. rewrite Hsample. cbn [mbind result_bind].
    rewrite Htarget. cbn [mbind result_bind].
    by rewrite (broadcast_binary_vectors ssub lps t num_samples Hs Hshape Hl Hlen).
Qed.

End elbo.

Lemma elbo_loss_value_witness :
  (2 = 0 → variational_fit.elbo_loss (H := counter_random) 0
             (distributions.Concrete underflowed_base)
             (λ _, Ok {| distributions.shape_of := [2];
                         distributions.data := [Fin 1; Fin 2] |}) 2
           = Raise TypeError)
  ∧ (∀ samples approx_density target_density,
       0 < 2 →
       distributions.sample_and_log_prob (distributions.Concrete underflowed_base)
         0 [2] None
       = Ok (samples, approx_density) →
       Ok {| distributions.shape_of := [2]; distributions.data := [Fin 1; Fin 2] |}
       = Ok target_density →
       distributions.shape_of target_density = [2] →
       length (distributions.data target_density) = 2 →
       variational_fit.elbo_loss (H := counter_random) 0
         (distributions.Concrete underflowed_base)
         (λ _, Ok {| distributions.shape_of := [2];
                     distributions.data := [Fin 1; Fin 2] |}) 2
       = Ok (mean (zip_with ssub (distributions.data approx_density)
                                 (distributions.data target_density)))).
Proof.
  apply (elbo_loss_value (H := counter_random) 0
           (distributions.Concrete underflowed_base)
           (λ _, Ok {| distributions.shape_of := [2];
                       distributions.data := [Fin 1; Fin 2] |}) 2).
  reflexivity.
Defined.
